(** * Backbone RMSD of the remodeled region, and the filter score table

    A shallow embedding of
      - job_scripts/calculate_bb_remodeled_region_rmsd.py
      - local_protein_sequence_design/filter.py
    Python floats are read as real numbers; numpy arrays of 3D points as
    records of three reals, 3x3 arrays as records of nine reals.  Python
    exceptions are the [Raise] outcomes of an error monad.  The modelling
    toolkit (poses, movers, filters) and numpy's SVD are collaborators:
    they appear as parameters with the contract the scripts rely on. *)

From Stdlib Require Import Reals Lra Lia ZArith Sorted.
From stdpp Require Import gmap strings list.

(** ** Outcomes of Python code *)

Inductive error : Type :=
| PointCountMismatch   (* Exception("Sets to be superimposed must have same number of points.") *)
| AssertionError
| ZeroDivisionError
| IndexError
| ValueError
| LinAlgError          (* numpy.linalg.LinAlgError *)
| TypeError
| FileNotFoundError
| ToolkitError.        (* an exception raised inside the modelling toolkit *)

Inductive result (A : Type) : Type :=
| Ok (a : A)
| Raise (e : error).
Arguments Ok {A} a.
Arguments Raise {A} e.

#[global] Instance result_ret : MRet result := fun A a => Ok a.
#[global] Instance result_bind : MBind result := fun A B k r =>
  match r with
  | Ok a => k a
  | Raise e => Raise e
  end.

Definition is_ok {A : Type} (r : result A) : bool :=
  match r with Ok _ => true | Raise _ => false end.

Definition py_assert (b : bool) : result unit :=
  if b then Ok tt else Raise AssertionError.

(** ** numpy: points and 3x3 arrays over the reals *)

Module Numpy.

Local Open Scope R_scope.

Record vec3 : Type := mkV { vx : R; vy : R; vz : R }.

Record mat3 : Type := mkM {
  m00 : R; m01 : R; m02 : R;
  m10 : R; m11 : R; m12 : R;
  m20 : R; m21 : R; m22 : R }.

Definition vzero : vec3 := mkV 0 0 0.
Definition vadd (a b : vec3) : vec3 := mkV (vx a + vx b) (vy a + vy b) (vz a + vz b).
Definition vsub (a b : vec3) : vec3 := mkV (vx a - vx b) (vy a - vy b) (vz a - vz b).
Definition vscale (c : R) (a : vec3) : vec3 := mkV (c * vx a) (c * vy a) (c * vz a).
Definition vdot (a b : vec3) : R := vx a * vx b + vy a * vy b + vz a * vz b.
Definition cross (a b : vec3) : vec3 :=
  mkV (vy a * vz b - vz a * vy b) (vz a * vx b - vx a * vz b) (vx a * vy b - vy a * vx b).

Definition mzero : mat3 := mkM 0 0 0 0 0 0 0 0 0.
Definition mident : mat3 := mkM 1 0 0 0 1 0 0 0 1.

Definition madd (a b : mat3) : mat3 :=
  mkM (m00 a + m00 b) (m01 a + m01 b) (m02 a + m02 b)
      (m10 a + m10 b) (m11 a + m11 b) (m12 a + m12 b)
      (m20 a + m20 b) (m21 a + m21 b) (m22 a + m22 b).

Definition msub (a b : mat3) : mat3 :=
  mkM (m00 a - m00 b) (m01 a - m01 b) (m02 a - m02 b)
      (m10 a - m10 b) (m11 a - m11 b) (m12 a - m12 b)
      (m20 a - m20 b) (m21 a - m21 b) (m22 a - m22 b).

(* np.transpose on a 3x3 array *)
Definition transpose (a : mat3) : mat3 :=
  mkM (m00 a) (m10 a) (m20 a)
      (m01 a) (m11 a) (m21 a)
      (m02 a) (m12 a) (m22 a).

(* np.dot on two 3x3 arrays *)
Definition mmul (a b : mat3) : mat3 :=
  mkM (m00 a * m00 b + m01 a * m10 b + m02 a * m20 b)
      (m00 a * m01 b + m01 a * m11 b + m02 a * m21 b)
      (m00 a * m02 b + m01 a * m12 b + m02 a * m22 b)
      (m10 a * m00 b + m11 a * m10 b + m12 a * m20 b)
      (m10 a * m01 b + m11 a * m11 b + m12 a * m21 b)
      (m10 a * m02 b + m11 a * m12 b + m12 a * m22 b)
      (m20 a * m00 b + m21 a * m10 b + m22 a * m20 b)
      (m20 a * m01 b + m21 a * m11 b + m22 a * m21 b)
      (m20 a * m02 b + m21 a * m12 b + m22 a * m22 b).

(* np.dot on a 3x3 array and a point *)
Definition mvmul (a : mat3) (v : vec3) : vec3 :=
  mkV (m00 a * vx v + m01 a * vy v + m02 a * vz v)
      (m10 a * vx v + m11 a * vy v + m12 a * vz v)
      (m20 a * vx v + m21 a * vy v + m22 a * vz v).

(* np.linalg.det on a 3x3 array *)
Definition det (a : mat3) : R :=
  m00 a * (m11 a * m22 a - m12 a * m21 a)
  - m01 a * (m10 a * m22 a - m12 a * m20 a)
  + m02 a * (m10 a * m21 a - m11 a * m20 a).

(* the 3x3 array with the given diagonal *)
Definition diag (s : vec3) : mat3 := mkM (vx s) 0 0 0 (vy s) 0 0 0 (vz s).

(* column vector times row vector: the contribution of one pair of points
   to np.dot(np.transpose(A), B) *)
Definition outer (a b : vec3) : mat3 :=
  mkM (vx a * vx b) (vx a * vy b) (vx a * vz b)
      (vy a * vx b) (vy a * vy b) (vy a * vz b)
      (vz a * vx b) (vz a * vy b) (vz a * vz b).

(* V[:, -1] = -V[:, -1] *)
Definition negate_last_column (v : mat3) : mat3 :=
  mkM (m00 v) (m01 v) (- m02 v)
      (m10 v) (m11 v) (- m12 v)
      (m20 v) (m21 v) (- m22 v).

Definition vsum (ps : list vec3) : vec3 := foldr vadd vzero ps.

(* np.mean(P, axis=0) for a non-empty list of points (on an empty list
   numpy gives nan, and an empty array minus nan is still empty: see
   cross_covariance) *)
Definition mean (ps : list vec3) : vec3 := vscale (/ INR (length ps)) (vsum ps).

(* np.array(P) - com *)
Definition centered (ps : list vec3) (com : vec3) : list vec3 :=
  map (fun p => vsub p com) ps.

(* np.dot(np.transpose(A), B) for two n x 3 arrays given by their rows;
   rows beyond the shorter array do not occur (the caller has checked the
   lengths) *)
Fixpoint dot_transpose (a b : list vec3) : mat3 :=
  match a, b with
  | p :: a', q :: b' => madd (outer p q) (dot_transpose a' b')
  | _, _ => mzero
  end.

(* What the right-hand side of [R = np.dot(...)] is as a numpy value.
   On two empty lists np.mean gives nan (with a warning, no exception),
   both differences are empty 1-d arrays and np.dot of them is a 0-d scalar. *)
Inductive ndarray : Type :=
| Array0d
| Array3x3 (m : mat3).

(* np.linalg.svd on a 3x3 array: (V, S, W) with S the vector of singular
   values, or nothing when the iteration does not converge. *)
Definition svd_routine : Type := mat3 -> option (mat3 * vec3 * mat3).

(** *** Notions used to state what the superposition computes *)

Definition mscale (c : R) (a : mat3) : mat3 :=
  mkM (c * m00 a) (c * m01 a) (c * m02 a)
      (c * m10 a) (c * m11 a) (c * m12 a)
      (c * m20 a) (c * m21 a) (c * m22 a).

Definition trace (a : mat3) : R := m00 a + m11 a + m22 a.

(* the quadratic form x^T A x *)
Definition quad (a : mat3) (x : vec3) : R := vdot x (mvmul a x).

Definition symmetric (a : mat3) : Prop := transpose a = a.
Definition positive_semidefinite (a : mat3) : Prop := forall x, 0 <= quad a x.
Definition orthogonal (a : mat3) : Prop :=
  mmul (transpose a) a = mident ∧ mmul a (transpose a) = mident.
Definition proper_rotation (r : mat3) : Prop := orthogonal r ∧ det r = 1.

(* the Gram matrix A^T A of an n x 3 array given by its rows *)
Definition gram (a : list vec3) : mat3 := dot_transpose a a.

(* the columns of a 3x3 array *)
Definition col0 (a : mat3) : vec3 := mkV (m00 a) (m10 a) (m20 a).
Definition col1 (a : mat3) : vec3 := mkV (m01 a) (m11 a) (m21 a).
Definition col2 (a : mat3) : vec3 := mkV (m02 a) (m12 a) (m22 a).

(* the 3x3 array handed to the SVD for two non-empty point lists *)
Definition covariance_matrix (P1 P2 : list vec3) : mat3 :=
  dot_transpose (centered P1 (mean P1)) (centered P2 (mean P2)).

(* the routine returns an exact singular value decomposition of h:
   h = V diag(S) W with V and W orthogonal and the singular values in
   descending order *)
Definition svd_exact_at (svd : svd_routine) (h : mat3) : Prop :=
  exists V S W,
    svd h = Some (V, S, W)
    ∧ orthogonal V ∧ orthogonal W
    ∧ 0 <= vz S ∧ vz S <= vy S ∧ vy S <= vx S
    ∧ h = mmul (mmul V (diag S)) W.

(* two of the points, taken from the centroid, span a plane *)
Definition not_collinear (P : list vec3) : Prop :=
  exists p q, p ∈ P ∧ q ∈ P ∧ cross (vsub p (mean P)) (vsub q (mean P)) ≠ vzero.

(* four points of the plane z = 0 around the origin *)
Definition square_points : list vec3 :=
  [mkV 1 0 0; mkV (-1) 0 0; mkV 0 1 0; mkV 0 (-1) 0].

(* the quarter turn about the z axis *)
Definition quarter_turn : mat3 := mkM 0 (-1) 0 1 0 0 0 0 1.

(* the half turn about the z axis *)
Definition half_turn : mat3 := mkM (-1) 0 0 0 (-1) 0 0 0 1.

(* an SVD routine that knows the decomposition of the cross-covariance of
   square_points with its quarter-turned image *)
Definition quarter_turn_svd : svd_routine :=
  fun _ => Some (mident, mkV 2 2 0, transpose quarter_turn).

End Numpy.

Export Numpy.

(** ** job_scripts/calculate_bb_remodeled_region_rmsd.py *)

(** A residue carries its three backbone atoms and its remaining atoms;
    a pose is its residues, numbered from 1. *)
Record residue : Type := mkResidue {
  atom_N : vec3;
  atom_CA : vec3;
  atom_C : vec3;
  other_atoms : list vec3 }.

Abbreviation pose := (list residue).

(* pose.size() *)
Definition pose_size (p : pose) : nat := length p.

(* pose.residue(i): the toolkit refuses positions outside 1..size *)
Definition pose_residue (p : pose) (i : nat) : result residue :=
  match i with
  | O => Raise ToolkitError
  | S k => match p !! k with
           | Some r => Ok r
           | None => Raise ToolkitError
           end
  end.

(* pose.apply_transform_Rx_plus_v(M, t): every atom p becomes M p + t *)
Definition transform_point (M : mat3) (t : vec3) (p : vec3) : vec3 :=
  vadd (mvmul M p) t.

Definition transform_residue (M : mat3) (t : vec3) (r : residue) : residue :=
  mkResidue (transform_point M t (atom_N r)) (transform_point M t (atom_CA r))
            (transform_point M t (atom_C r)) (map (transform_point M t) (other_atoms r)).

Definition apply_transform_Rx_plus_v (M : mat3) (t : vec3) (p : pose) : pose :=
  map (transform_residue M t) p.

(** *** load_design *)

(** What a design directory holds: design.pdb.gz, lowest_energy_model.pdb
    and the bb_remodeled_residues field of design_info.json, each possibly
    absent. *)
Record design_dir : Type := mkDir {
  design_pdb_gz : option pose;
  lowest_energy_model_pdb : option pose;
  design_info_json : option (list nat) }.

Abbreviation filesystem := (gmap string design_dir).

(* os.path.exists(os.path.join(d, 'design.pdb.gz')) and its siblings *)
Definition exists_file {A : Type} (fs : filesystem) (file : design_dir -> option A)
    (d : string) : bool :=
  match fs !! d with
  | Some dir => bool_decide (is_Some (file dir))
  | None => false
  end.

(* rosetta.core.import_pose.pose_from_file *)
Definition pose_from_file (fs : filesystem) (file : design_dir -> option pose)
    (d : string) : result pose :=
  match fs !! d with
  | Some dir => match file dir with Some p => Ok p | None => Raise ToolkitError end
  | None => Raise ToolkitError
  end.

(* open(...) followed by json.load(f)['bb_remodeled_residues'] *)
Definition load_design_info (fs : filesystem) (d : string) : result (list nat) :=
  match fs !! d with
  | Some dir => match design_info_json dir with
                | Some l => Ok l
                | None => Raise FileNotFoundError
                end
  | None => Raise FileNotFoundError
  end.

(* i in bb_remodeled_residues *)
Definition py_in (i : nat) (l : list nat) : bool := bool_decide (i ∈ l).

(* [i for i in range(1, size + 1) if not (i in bb_remodeled_residues)] *)
Definition fixed_residues (size : nat) (bb_remodeled_residues : list nat) : list nat :=
  List.filter (fun i => negb (py_in i bb_remodeled_residues)) (seq 1 size).

Record design : Type := mkDesign {
  pose_design : pose;
  pose_lowest_energy : pose;
  bb_remodeled_residues : list nat;
  bb_fixed_residues : list nat }.

Definition load_design (fs : filesystem) (design_path : string) : result design :=
  pose_design ← pose_from_file fs design_pdb_gz design_path;
  pose_lowest_energy ←
    (if exists_file fs lowest_energy_model_pdb design_path
     then pose_from_file fs lowest_energy_model_pdb design_path
     else Ok pose_design (* pose_design.clone() *));
  bb_remodeled_residues ← load_design_info fs design_path;
  let bb_fixed_residues := fixed_residues (pose_size pose_design) bb_remodeled_residues in
  Ok (mkDesign pose_design pose_lowest_energy bb_remodeled_residues bb_fixed_residues).

(** *** get_superimpose_transformation *)

Section Superimpose.

Variable svd : svd_routine.

(* np.linalg.svd: a 0-d array is refused with LinAlgError ("0-dimensional
   array given. Array must be at least two-dimensional"), and so is a
   matrix on which the iteration does not converge *)
Definition linalg_svd (a : ndarray) : result (mat3 * vec3 * mat3) :=
  match a with
  | Array0d => Raise LinAlgError
  | Array3x3 m => match svd m with
                  | Some usv => Ok usv
                  | None => Raise LinAlgError
                  end
  end.

(* R = np.dot(np.transpose(np.array(P1) - com1), np.array(P2) - com2) *)
Definition cross_covariance (P1 P2 : list vec3) (com1 com2 : vec3) : ndarray :=
  match P1 with
  | [] => Array0d
  | _ :: _ => Array3x3 (dot_transpose (centered P1 com1) (centered P2 com2))
  end.

Definition get_superimpose_transformation (P1 P2 : list vec3) : result (mat3 * vec3) :=
  if negb (length P1 =? length P2) then Raise PointCountMismatch
  else
    let com1 := mean P1 in
    let com2 := mean P2 in
    let R := cross_covariance P1 P2 com1 com2 in
    '(V, _, W) ← linalg_svd R;  (* V, S, W = np.linalg.svd(R) *)
    let V := if Rlt_dec (det V * det W) 0 then negate_last_column V else V in
    let M := transpose (mmul V W) in
    Ok (M, vsub com2 (mvmul M com1)).

(** *** get_backbone_points *)

(* for atom in ['N', 'CA', 'C']: points.append(pose.residue(res).xyz(atom)) *)
Fixpoint get_backbone_points (p : pose) (residues : list nat) : result (list vec3) :=
  match residues with
  | [] => Ok []
  | res :: residues' =>
      r ← pose_residue p res;
      points ← get_backbone_points p residues';
      Ok (atom_N r :: atom_CA r :: atom_C r :: points)
  end.

(** *** superimpose_poses_by_residues *)

(** The value the source pose has after the call (the call changes the
    source pose in place and returns nothing). *)
Definition superimposed_pose (pose_source : pose) (residues_source : list nat)
    (pose_target : pose) (residues_target : list nat) : result pose :=
  _ ← py_assert (length residues_source =? length residues_target);
  points_source ← get_backbone_points pose_source residues_source;
  points_target ← get_backbone_points pose_target residues_target;
  '(M, t) ← get_superimpose_transformation points_source points_target;
  Ok (apply_transform_Rx_plus_v M t pose_source).

End Superimpose.

(** *** calc_backbone_RMSD *)

(* diff = [points1[i] - points2[i] for i in range(len(points1))] *)
Fixpoint point_differences (points1 points2 : list vec3) : result (list vec3) :=
  match points1, points2 with
  | [], _ => Ok []
  | _ :: _, [] => Raise IndexError
  | p :: points1', q :: points2' =>
      diff ← point_differences points1' points2';
      Ok (vsub p q :: diff)
  end.

(* sum(np.dot(d, d) for d in diff) *)
Definition sum_squares (diff : list vec3) : R :=
  foldr (fun d acc => (vdot d d + acc)%R) 0%R diff.

Definition RMSD (points1 points2 : list vec3) : result R :=
  diff ← point_differences points1 points2;
  match diff with
  | [] => Raise ZeroDivisionError
  | _ :: _ => Ok (sqrt (sum_squares diff / INR (length diff)))
  end.

Definition calc_backbone_RMSD (pose1 : pose) (residues1 : list nat)
    (pose2 : pose) (residues2 : list nat) : result R :=
  _ ← py_assert (length residues1 =? length residues2);
  points1 ← get_backbone_points pose1 residues1;
  points2 ← get_backbone_points pose2 residues2;
  RMSD points1 points2.

(** *** get_target_to_source_residue_map *)

(* xyzVector.distance *)
Definition distance (a b : vec3) : R := sqrt (vdot (vsub a b) (vsub a b)).

Abbreviation pair_distance := (nat * nat * R)%type.

(* for j in range(1, pose_target.size() + 1): s_t_distances.append((i, j, ...)) *)
Fixpoint distances_from (pose_source pose_target : pose) (i : nat) (js : list nat)
    : result (list pair_distance) :=
  match js with
  | [] => Ok []
  | j :: js' =>
      rs ← pose_residue pose_source i;
      rt ← pose_residue pose_target j;
      rest ← distances_from pose_source pose_target i js';
      Ok ((i, j, distance (atom_CA rs) (atom_CA rt)) :: rest)
  end.

(* for i in range(1, pose_source.size() + 1): ... *)
Fixpoint all_distances (pose_source pose_target : pose) (residues : list nat)
    : result (list pair_distance) :=
  match residues with
  | [] => Ok []
  | i :: residues' =>
      row ← distances_from pose_source pose_target i (seq 1 (pose_size pose_target));
      rest ← all_distances pose_source pose_target residues';
      Ok (row ++ rest)
  end.

(* sorted(..., key=lambda x : x[2]): a stable sort that compares keys by < *)
Fixpoint insert_by_distance (d : pair_distance) (l : list pair_distance) : list pair_distance :=
  match l with
  | [] => [d]
  | e :: l' => if Rlt_dec e.2 d.2 then e :: insert_by_distance d l' else d :: e :: l'
  end.

Definition sorted_by_distance (l : list pair_distance) : list pair_distance :=
  foldr insert_by_distance [] l.

(** The dict res_map, as its items in insertion order: (key, value) is
    (target residue, source residue). *)
Abbreviation residue_map := (list (nat * nat)).

Definition keys (m : residue_map) : list nat := m.*1.
Definition values (m : residue_map) : list nat := m.*2.

(* the loop over s_t_distances_sorted, with its break *)
Fixpoint match_greedily (size_source : nat) (ds : list pair_distance) (res_map : residue_map)
    : residue_map :=
  match ds with
  | [] => res_map
  | d :: ds' =>
      let res_map :=
        if negb (py_in d.1.2 (keys res_map)) && negb (py_in d.1.1 (values res_map))
        then res_map ++ [(d.1.2, d.1.1)]
        else res_map in
      if length (keys res_map) =? size_source then res_map
      else match_greedily size_source ds' res_map
  end.

Definition get_target_to_source_residue_map (pose_source pose_target : pose)
    : result residue_map :=
  s_t_distances ← all_distances pose_source pose_target (seq 1 (pose_size pose_source));
  let s_t_distances_sorted := sorted_by_distance s_t_distances in
  Ok (match_greedily (pose_size pose_source) s_t_distances_sorted []).

(** *** calculate_bb_remodeled_region_rmsds *)

(* l[i] for an index the loops produce *)
Definition py_index {A : Type} (l : list A) (i : nat) : result A :=
  match l !! i with
  | Some a => Ok a
  | None => Raise IndexError
  end.

(* for i in range(len(design_paths)): ... = load_design(design_paths[i]) *)
Fixpoint load_designs (fs : filesystem) (design_paths : list string) : result (list design) :=
  match design_paths with
  | [] => Ok []
  | d :: design_paths' =>
      loaded ← load_design fs d;
      rest ← load_designs fs design_paths';
      Ok (loaded :: rest)
  end.

(* for k in res_map.keys(): if k in remodeled_residues_target: ... *)
Definition remodeled_aligned_residues (res_map : residue_map)
    (remodeled_residues_target : list nat) : list nat * list nat :=
  let kept := List.filter (fun kv => py_in kv.1 remodeled_residues_target) res_map in
  (values kept, keys kept).

(* from res_map = ... to rmsd = calc_backbone_RMSD(...) in the loop body *)
Definition remodeled_region_rmsd (pose_source pose_target : pose)
    (remodeled_residues_target : list nat) : result R :=
  res_map ← get_target_to_source_residue_map pose_source pose_target;
  let '(remodeled_aligned_residues_source, remodeled_aligned_residues_target) :=
    remodeled_aligned_residues res_map remodeled_residues_target in
  calc_backbone_RMSD pose_source remodeled_aligned_residues_source
                     pose_target remodeled_aligned_residues_target.

Section Pipeline.

Variable svd : svd_routine.

(** The state of the pairwise loops: the designed poses, the lowest energy
    poses (superimposed in place, so threaded through the loops) and the
    residue lists of every design. *)
Variable pose_designs : list pose.
Variable all_bb_remodeled_residues : list (list nat).
Variable all_bb_fixed_residues : list (list nat).

(* the body of the loop over j: the lowest energy poses after it, and the rmsd *)
Definition pair_rmsd (i j : nat) (pose_lowest_energies : list pose)
    : result (list pose * R) :=
  low_j ← py_index pose_lowest_energies j;
  fixed_j ← py_index all_bb_fixed_residues j;
  design_i ← py_index pose_designs i;
  fixed_i ← py_index all_bb_fixed_residues i;
  low_j ← superimposed_pose svd low_j fixed_j design_i fixed_i;
  let pose_lowest_energies := <[j := low_j]> pose_lowest_energies in
  '(pose_source, pose_target, remodeled_residues_target) ←
    (if pose_size low_j <? pose_size design_i (* design i is the longer one *)
     then remodeled_i ← py_index all_bb_remodeled_residues i;
          Ok (low_j, design_i, remodeled_i)
     else remodeled_j ← py_index all_bb_remodeled_residues j;
          Ok (design_i, low_j, remodeled_j));
  rmsd ← remodeled_region_rmsd pose_source pose_target remodeled_residues_target;
  Ok (pose_lowest_energies, rmsd).

(* for j in range(len(design_paths)): ...; RMSDs[i].append(rmsd) *)
Fixpoint rmsd_row (i : nat) (js : list nat) (pose_lowest_energies : list pose)
    (row : list R) : result (list pose * list R) :=
  match js with
  | [] => Ok (pose_lowest_energies, row)
  | j :: js' =>
      '(pose_lowest_energies, rmsd) ← pair_rmsd i j pose_lowest_energies;
      rmsd_row i js' pose_lowest_energies (row ++ [rmsd])
  end.

(* for i in range(len(design_paths)): RMSDs.append([]); ... *)
Fixpoint rmsd_rows (n : nat) (residues : list nat) (pose_lowest_energies : list pose)
    (RMSDs : list (list R)) : result (list (list R)) :=
  match residues with
  | [] => Ok RMSDs
  | i :: residues' =>
      '(pose_lowest_energies, row) ← rmsd_row i (seq 0 n) pose_lowest_energies [];
      rmsd_rows n residues' pose_lowest_energies (RMSDs ++ [row])
  end.

End Pipeline.

Definition calculate_bb_remodeled_region_rmsds (svd : svd_routine) (fs : filesystem)
    (design_paths : list string) : result (list (list R)) :=
  let design_paths := List.filter (exists_file fs design_pdb_gz) design_paths in
  designs ← load_designs fs design_paths;
  let pose_designs := pose_design <$> designs in
  let pose_lowest_energies := pose_lowest_energy <$> designs in
  let all_bb_remodeled_residues := bb_remodeled_residues <$> designs in
  let all_bb_fixed_residues := bb_fixed_residues <$> designs in
  rmsd_rows svd pose_designs all_bb_remodeled_residues all_bb_fixed_residues
            (length design_paths) (seq 0 (length design_paths)) pose_lowest_energies [].

(** plot_bb_remodeled_region_rmsds, up to the matrix it hands to the heat map *)
Definition plot_bb_remodeled_region_rmsds (svd : svd_routine) (fs : filesystem)
    (design_paths : list string) : result (list (list R)) :=
  let design_paths := List.filter (exists_file fs design_info_json) design_paths in
  calculate_bb_remodeled_region_rmsds svd fs design_paths.

(** *** superimpose_poses_by_residues on shared objects *)

(** The Python objects the call receives live in a heap; arguments are
    references into it, so that two arguments may be one object. *)
Inductive pyobject : Type :=
| PyPose (p : pose)
| PyList (l : list nat).

Definition heap_pose (h : gmap nat pyobject) (ref : nat) : result pose :=
  match h !! ref with
  | Some (PyPose p) => Ok p
  | _ => Raise TypeError
  end.

Definition heap_list (h : gmap nat pyobject) (ref : nat) : result (list nat) :=
  match h !! ref with
  | Some (PyList l) => Ok l
  | _ => Raise TypeError
  end.

Definition superimpose_poses_by_residues (svd : svd_routine) (h : gmap nat pyobject)
    (pose_source residues_source pose_target residues_target : nat)
    : result (gmap nat pyobject) :=
  source ← heap_pose h pose_source;
  rs ← heap_list h residues_source;
  target ← heap_pose h pose_target;
  rt ← heap_list h residues_target;
  moved ← superimposed_pose svd source rs target rt;
  Ok (<[pose_source := PyPose moved]> h).

(** *** Notions and examples used in the statements below *)

Definition example_residue : residue := mkResidue vzero vzero vzero [].

Definition example_fs : filesystem :=
  {[ "a"%string := mkDir (Some [example_residue; example_residue; example_residue])
                         None (Some [2]) ]}.

Definition example_design : design :=
  mkDesign [example_residue; example_residue; example_residue]
           [example_residue; example_residue; example_residue] [2] [1; 3].

(* an SVD routine good enough to run examples: it decomposes M as I * S * M
   without looking at M *)
Definition example_svd : svd_routine := fun m => Some (mident, mkV 1 1 1, m).

Definition example_pose : pose :=
  [ mkResidue (mkV 0 0 0) (mkV 1 0 0) (mkV 1 1 0) [];
    mkResidue (mkV 2 1 0) (mkV 2 2 0) (mkV 3 2 1) [] ].

Definition example_pose_shifted : pose :=
  [ mkResidue (mkV 0 0 1) (mkV 1 0 1) (mkV 1 1 1) [];
    mkResidue (mkV 2 1 1) (mkV 2 2 1) (mkV 3 2 2) [] ].

Definition example_heap : gmap nat pyobject :=
  {[ 0 := PyPose example_pose; 1 := PyList [1; 2];
     2 := PyPose example_pose_shifted; 3 := PyList [2; 1] ]}.

(* one pass of the loop body's if *)
Definition accept (res_map : residue_map) (d : pair_distance) : residue_map :=
  if negb (py_in d.1.2 (keys res_map)) && negb (py_in d.1.1 (values res_map))
  then res_map ++ [(d.1.2, d.1.1)]
  else res_map.

Definition blocked (res_map : residue_map) (d : pair_distance) : Prop :=
  d.1.2 ∈ keys res_map ∨ d.1.1 ∈ values res_map.

Definition in_range (n m : nat) (d : pair_distance) : Prop :=
  (1 <= d.1.1 <= n) ∧ (1 <= d.1.2 <= m).

Record well_formed (n m : nat) (res_map : residue_map) : Prop := {
  wf_keys : NoDup (keys res_map);
  wf_values : NoDup (values res_map);
  wf_keys_range : forall k, k ∈ keys res_map -> 1 <= k <= m;
  wf_values_range : forall v, v ∈ values res_map -> 1 <= v <= n }.


(* one source residue, and two target residues of which the second sits on it *)
Definition short_pose : pose := [ mkResidue (mkV 0 0 1) (mkV 0 0 0) (mkV 0 1 0) [] ].

Definition long_pose : pose :=
  [ mkResidue (mkV 3 0 1) (mkV 3 0 0) (mkV 3 1 0) [];
    mkResidue (mkV 0 0 1) (mkV 0 0 0) (mkV 0 1 0) [] ].

(* two target residues at the same distance from the source residue *)
Definition tied_pose : pose :=
  [ mkResidue (mkV 3 0 1) (mkV 3 0 0) (mkV 3 1 0) [];
    mkResidue (mkV 3 0 2) (mkV 3 0 0) (mkV 3 2 0) [] ].

(* remodeled_residues_target of the loop body for design i and the lowest
   energy model of design j *)
Definition remodeled_residues_of_target (design_i design_j : design) : list nat :=
  if pose_size (pose_lowest_energy design_j) <? pose_size (pose_design design_i)
  then bb_remodeled_residues design_i
  else bb_remodeled_residues design_j.

(* a batch: "a" is complete, "b" lacks design.pdb.gz, "c" does not exist *)
Definition example_batch_fs : filesystem :=
  {[ "a"%string := mkDir (Some example_pose) None (Some [1]);
     "b"%string := mkDir None (Some example_pose) (Some [1]) ]}.

Definition example_batch : list string := ["a"; "b"; "c"]%string.

Definition example_missing : string := "b".

(* a design whose manifest names no remodeled residue *)
Definition example_unremodeled_fs : filesystem :=
  {[ "a"%string := mkDir (Some example_pose) None (Some []) ]}.

Definition example_unremodeled_design : design :=
  mkDesign example_pose example_pose [] [1; 2].

(** ** local_protein_sequence_design/filter.py *)

Module Filter.

(** The modelling toolkit as filter.py consumes it.  [Pose] is the
    toolkit's pose and [Mover] the state of a BackrubMover together with
    the random source it draws from.  The scoring helpers of filter.py
    whose bodies play no part in the properties below (energies, buried
    unsatisfied hbonds, SASA, holes, helix complementarity, fragment
    quality) are taken with their contract: a pose and residues in, a score
    or an exception out. *)
Class Toolkit (Pose Mover : Type) : Type := {
  size : Pose -> nat;
  (* get_buhs_for_each_res, imported from basic.py *)
  get_buhs_for_each_res : Pose -> list Z;
  (* BackrubMover: set_max_atoms, apply on a clone, num_segments, set_next_segment_id *)
  set_max_atoms : nat -> Mover -> Mover;
  apply : Mover -> Pose -> Mover * Pose;
  num_segments : Mover -> nat;
  set_next_segment_id : nat -> Mover -> Mover;
  (* OversaturatedHbondAcceptorFilter: acceptor selector, consider_mainchain_only, pose *)
  report_sm : list nat -> bool -> Pose -> R;
  residues_average_energy : Pose -> list nat -> result R;
  residues_max_energy : Pose -> list nat -> result R;
  get_num_buried_unsatisfied_hbonds : Pose -> list nat -> result Z;
  get_hydrophobic_sasa_sc : Pose -> list nat -> result R;
  get_sasa : Pose -> list nat -> result (R * R);
  get_holes_score_for_residues : Pose -> list nat -> result R;
  get_helix_complementarity_score : Pose -> list nat -> result R;
  get_fragment_quality_scores : Pose -> list nat -> result (R * R) }.

Section Filters.

Context {Pose Mover : Type} `{!Toolkit Pose Mover}.

(* ResidueIndexSelector(','.join(...)): the selector of exactly these residues *)
Definition get_residue_selector_for_residues (residues : list nat) : list nat := residues.

(** *** get_backrub_ensemble_consensus_buhs_for_each_res *)

(* for k in range(len(buhs_for_each_res)):
     buhs_for_each_res[k] = min(buhs_for_each_res[k], tmp_buh_for_each_res[k]) *)
Fixpoint keep_consensus (buhs_for_each_res tmp_buh_for_each_res : list Z) : result (list Z) :=
  match buhs_for_each_res, tmp_buh_for_each_res with
  | [], _ => Ok []
  | _ :: _, [] => Raise IndexError
  | b :: buhs', t :: tmp' =>
      rest ← keep_consensus buhs' tmp';
      Ok (Z.min b t :: rest)
  end.

(* for j in range(5): tmp_pose = pose.clone(); br_mover.apply(tmp_pose); ... *)
Fixpoint perturb_repeatedly (repeats : nat) (br_mover : Mover) (pose : Pose)
    (buhs_for_each_res : list Z) : result (Mover * list Z) :=
  match repeats with
  | O => Ok (br_mover, buhs_for_each_res)
  | S repeats' =>
      let '(br_mover, tmp_pose) := apply br_mover pose in
      let tmp_buh_for_each_res := get_buhs_for_each_res tmp_pose in
      buhs_for_each_res ← keep_consensus buhs_for_each_res tmp_buh_for_each_res;
      perturb_repeatedly repeats' br_mover pose buhs_for_each_res
  end.

(* for i in range(1, br_mover.num_segments() + 1): br_mover.set_next_segment_id(i); ... *)
Fixpoint perturb_segments (segments : list nat) (br_mover : Mover) (pose : Pose)
    (buhs_for_each_res : list Z) : result (list Z) :=
  match segments with
  | [] => Ok buhs_for_each_res
  | i :: segments' =>
      let br_mover := set_next_segment_id i br_mover in
      '(br_mover, buhs_for_each_res) ← perturb_repeatedly 5 br_mover pose buhs_for_each_res;
      perturb_segments segments' br_mover pose buhs_for_each_res
  end.

(** [br_mover] is the mover as BackrubMover() has just built it. *)
Definition get_backrub_ensemble_consensus_buhs_for_each_res (br_mover : Mover) (pose : Pose)
    : result (list Z) :=
  let br_mover := set_max_atoms 4 br_mover in
  let buhs_for_each_res := get_buhs_for_each_res pose in
  (* update the number of segments *)
  let '(br_mover, _) := apply br_mover pose in
  perturb_segments (seq 1 (num_segments br_mover)) br_mover pose buhs_for_each_res.

(** *** get_num_over_saturated_hbond_acceptors *)

Definition get_num_over_saturated_hbond_acceptors (pose : Pose) (acceptor_residues : list nat) : R :=
  report_sm (get_residue_selector_for_residues acceptor_residues) false pose.

(** *** generate_filter_scores *)

(* sum(l[i + 1] for i in residues) *)
Fixpoint sum_shifted (l : list Z) (residues : list nat) : result Z :=
  match residues with
  | [] => Ok 0%Z
  | i :: residues' =>
      x ← py_index l (i + 1);
      rest ← sum_shifted l residues';
      Ok (x + rest)%Z
  end.

(* a float divided by a number: ZeroDivisionError on zero *)
Definition py_div (a b : R) : result R :=
  if Req_dec_T b 0 then Raise ZeroDivisionError else Ok (a / b)%R.

(** The table json.dump writes to filter_info_file. *)
Definition generate_filter_scores (br_mover : Mover) (pose : Pose)
    (designable_residues repackable_residues bb_remodeled_residues : list nat)
    : result (gmap string R) :=
  let movable_residues := designable_residues ++ repackable_residues in
  let all_residues := seq 1 (size pose - 1) (* list(range(1, pose.size())) *) in
  let filter_scores : gmap string R := ∅ in
  (* the average energies *)
  v ← residues_average_energy pose designable_residues;
  let filter_scores := <["designable_residues_average_energy" := v]> filter_scores in
  v ← residues_average_energy pose movable_residues;
  let filter_scores := <["movable_residues_average_energy" := v]> filter_scores in
  v ← residues_average_energy pose all_residues;
  let filter_scores := <["all_average_energy" := v]> filter_scores in
  (* the max energy of residues *)
  v ← residues_max_energy pose designable_residues;
  let filter_scores := <["designable_residues_max_energy" := v]> filter_scores in
  v ← residues_max_energy pose movable_residues;
  let filter_scores := <["movable_residues_max_energy" := v]> filter_scores in
  v ← residues_max_energy pose all_residues;
  let filter_scores := <["all_residues_max_energy" := v]> filter_scores in
  (* the number of buried unsatisfied hbonds *)
  n ← get_num_buried_unsatisfied_hbonds pose designable_residues;
  let filter_scores := <["buried_unsat_for_designable_residues" := IZR n]> filter_scores in
  n ← get_num_buried_unsatisfied_hbonds pose movable_residues;
  let filter_scores := <["buried_unsat_for_movable_residues" := IZR n]> filter_scores in
  n ← get_num_buried_unsatisfied_hbonds pose all_residues;
  let filter_scores := <["buried_unsat_for_all_residues" := IZR n]> filter_scores in
  backrub_ensemble_consensus_buhs_for_each_res ←
    get_backrub_ensemble_consensus_buhs_for_each_res br_mover pose;
  let filter_scores :=
    <["backrub_ensemble_consensus_buhs_for_all_residues" :=
        IZR (foldr Z.add 0%Z backrub_ensemble_consensus_buhs_for_each_res)]> filter_scores in
  n ← sum_shifted backrub_ensemble_consensus_buhs_for_each_res designable_residues;
  let filter_scores :=
    <["backrub_ensemble_consensus_buhs_for_designable_residues" := IZR n]> filter_scores in
  n ← sum_shifted backrub_ensemble_consensus_buhs_for_each_res movable_residues;
  let filter_scores :=
    <["backrub_ensemble_consensus_buhs_for_movable_residues" := IZR n]> filter_scores in
  (* the number of over saturated hbond acceptors *)
  let filter_scores :=
    <["num_over_saturated_hbond_acceptors_for_designable_residues" :=
        get_num_over_saturated_hbond_acceptors pose designable_residues]> filter_scores in
  let filter_scores :=
    <["num_over_saturated_hbond_acceptors_for_movable_residues" :=
        get_num_over_saturated_hbond_acceptors pose designable_residues]> filter_scores in
  let filter_scores :=
    <["num_over_saturated_hbond_acceptors_for_all_residues" :=
        get_num_over_saturated_hbond_acceptors pose designable_residues]> filter_scores in
  (* the hydrophobic sasa for designable residues *)
  v ← get_hydrophobic_sasa_sc pose designable_residues;
  let filter_scores := <["hydrophobic_sasa_sc_for_designable_residues" := v]> filter_scores in
  (* the hydrophobic sasa for movable residues *)
  '(total_sasa, hydrophobic_sasa) ← get_sasa pose (designable_residues ++ repackable_residues);
  let filter_scores := <["hydrophobic_sasa_for_movable_residues" := hydrophobic_sasa]> filter_scores in
  v ← py_div hydrophobic_sasa (INR (length (designable_residues ++ repackable_residues)));
  let filter_scores := <["average_hydrophobic_sasa_for_movable_residues" := v]> filter_scores in
  v ← py_div hydrophobic_sasa total_sasa;
  let filter_scores := <["relative_hydrophobic_sasa_for_movable_residues" := v]> filter_scores in
  (* the local holes score *)
  v ← get_holes_score_for_residues pose designable_residues;
  let filter_scores := <["designable_local_holes_score" := v]> filter_scores in
  v ← get_holes_score_for_residues pose movable_residues;
  let filter_scores := <["movable_local_holes_score" := v]> filter_scores in
  v ← get_holes_score_for_residues pose all_residues;
  let filter_scores := <["all_local_holes_score" := v]> filter_scores in
  (* the backbone remodeled residues helix complementarity score *)
  v ← get_helix_complementarity_score pose bb_remodeled_residues;
  let filter_scores := <["bb_remodeled_residues_helix_complementarity" := v]> filter_scores in
  (* fragment quality analysis scores for the backbone remodeled region *)
  '(bb_remodeled_worst_fragment_crmsd, bb_remodeled_mean_fragment_crmsd) ←
    get_fragment_quality_scores pose bb_remodeled_residues;
  let filter_scores :=
    <["bb_remodeled_worst_fragment_crmsd" := bb_remodeled_worst_fragment_crmsd]> filter_scores in
  let filter_scores :=
    <["bb_remodeled_mean_fragment_crmsd" := bb_remodeled_mean_fragment_crmsd]> filter_scores in
  Ok filter_scores.

(** The perturbed copies of the pose, in the order the two loops make
    them: five per segment, each from a fresh clone. *)
Fixpoint copies_of_repeats (repeats : nat) (br_mover : Mover) (pose : Pose)
    : Mover * list Pose :=
  match repeats with
  | O => (br_mover, [])
  | S repeats' =>
      let '(br_mover, tmp_pose) := apply br_mover pose in
      let '(br_mover, rest) := copies_of_repeats repeats' br_mover pose in
      (br_mover, tmp_pose :: rest)
  end.

Fixpoint copies_of_segments (segments : list nat) (br_mover : Mover) (pose : Pose)
    : list Pose :=
  match segments with
  | [] => []
  | i :: segments' =>
      let '(br_mover, copies) := copies_of_repeats 5 (set_next_segment_id i br_mover) pose in
      copies ++ copies_of_segments segments' br_mover pose
  end.

(* the mover after set_max_atoms(4) and the first apply, which only serves
   to make num_segments known *)
Definition prepared_mover (br_mover : Mover) (pose : Pose) : Mover :=
  (apply (set_max_atoms 4 br_mover) pose).1.

Definition perturbed_copies (br_mover : Mover) (pose : Pose) : list Pose :=
  let br_mover := prepared_mover br_mover pose in
  copies_of_segments (seq 1 (num_segments br_mover)) br_mover pose.

(* the counts the copies show at position k *)
Definition counts_at (k : nat) (copies : list Pose) : list Z :=
  omap (fun c => get_buhs_for_each_res c !! k) copies.

(* the minimum of b and the numbers of l *)
Definition minimum (b : Z) (l : list Z) : Z := foldl Z.min b l.

(* position by position, the minimum of a count list and further count lists *)
Definition pointwise_minimum (buhs : list Z) (others : list (list Z)) : list Z :=
  foldl (zip_with Z.min) buhs others.

End Filters.

(** A small toolkit to run the filters on: poses and movers are numbers,
    a perturbation takes the mover's counter off the pose, the first
    buried-unsatisfied count of a pose is the pose itself, and the
    over-saturated acceptor filter counts the selected residues. *)
#[export] Instance toy_toolkit : Toolkit nat nat := {|
  size := fun p => p;
  get_buhs_for_each_res := fun p => [Z.of_nat p; 2; 0; 1; 5]%Z;
  set_max_atoms := fun _ m => m;
  apply := fun m p => (S m, p - m);
  num_segments := fun _ => 1;
  set_next_segment_id := fun _ m => m;
  report_sm := fun selector _ _ => INR (length selector);
  residues_average_energy := fun _ _ => Ok 0%R;
  residues_max_energy := fun _ _ => Ok 0%R;
  get_num_buried_unsatisfied_hbonds := fun _ _ => Ok 0%Z;
  get_hydrophobic_sasa_sc := fun _ _ => Ok 0%R;
  get_sasa := fun _ _ => Ok (1%R, 1%R);
  get_holes_score_for_residues := fun _ _ => Ok 0%R;
  get_helix_complementarity_score := fun _ _ => Ok 0%R;
  get_fragment_quality_scores := fun _ _ => Ok (0%R, 0%R) |}.

(* the copies of pose 4 are 3, 2, 1, 0, 0: the first count drops to 0 *)

End Filter.

(** * Further definitions *)

(* the CA-CA distance of source residue i and target residue j *)
Definition ca_distance (pose_source pose_target : pose) (i j : nat) : result R :=
  rs ← pose_residue pose_source i;
  rt ← pose_residue pose_target j;
  Ok (distance (atom_CA rs) (atom_CA rt)).

(* d comes no later than e in ascending order of distance *)
Definition not_farther (d e : pair_distance) : Prop := (d.2 <= e.2)%R.

(* an entry of res_map made from an element of s_t_distances *)
Definition entry_of (d : pair_distance) : nat * nat := (d.1.2, d.1.1).

(* a pose whose first residue has its backbone atoms around the y axis *)
Definition planar_pose : pose :=
  [ mkResidue (mkV 1 0 0) (mkV (-1) 0 0) (mkV 0 1 0) [mkV 0 0 2];
    mkResidue (mkV 0 (-1) 0) (mkV 0 0 0) (mkV 0 0 1) [] ].

(* SVD routines that know the decomposition of the cross-covariance of the
   first residue of planar_pose with itself, and with its quarter turn *)
Definition planar_svd : svd_routine :=
  fun _ => Some (mident, mkV 2 (2 / 3) 0, mident).

Definition planar_quarter_turn_svd : svd_routine :=
  fun _ => Some (mident, mkV 2 (2 / 3) 0, transpose quarter_turn).

(* a directory with planar_pose as the design, no lowest energy model, and
   the second residue remodeled *)
Definition planar_fs : filesystem :=
  {[ "planar"%string := mkDir (Some planar_pose) None (Some [2]) ]}.

(** ** filter.py: the helpers that compute with what the toolkit returns *)

Module FilterHelpers.

(** What these helpers ask of the toolkit: the total energy of a residue
    after the pose was scored, the list behind 'residue_bur_unsat_polars',
    and, for a pose and query positions, the per-position coordinate RMSDs
    of the picked fragments (writing design.fasta and the fragment file on
    the way); os.remove on the fragment file. *)
Class Rosetta (Pose : Type) : Type := {
  residue_total_energy : Pose -> nat -> result R;
  residue_bur_unsat_polars : Pose -> result (list Z);
  position_crmsd : Pose -> list nat -> result (list R);
  remove_fragment_file : result unit }.

(* l[z] on a Python list: a negative index counts from the end *)
Definition py_getitem {A : Type} (l : list A) (z : Z) : result A :=
  if (0 <=? z)%Z then py_index l (Z.to_nat z)
  else if (0 <=? Z.of_nat (length l) + z)%Z
       then py_index l (Z.to_nat (Z.of_nat (length l) + z))
       else Raise IndexError.

(* max(l) on a Python list of floats *)
Definition py_max (l : list R) : result R :=
  match l with
  | [] => Raise ValueError
  | x :: l' => Ok (foldl Rmax x l')
  end.

(* np.mean(l) on a non-empty list of floats *)
Definition np_mean (l : list R) : R :=
  (foldr Rplus 0 l / INR (length l))%R.

Section Helpers.

Context {Pose : Type} `{!Rosetta Pose}.

(* list(pose.energies().residue_total_energy(i) for i in residues) *)
Fixpoint residue_energies (pose : Pose) (residues : list nat) : result (list R) :=
  match residues with
  | [] => Ok []
  | i :: residues' =>
      e ← residue_total_energy pose i;
      rest ← residue_energies pose residues';
      Ok (e :: rest)
  end.

Definition residues_max_energy (pose : Pose) (residues : list nat) : result R :=
  energies ← residue_energies pose residues;
  py_max energies.

(* sum(buhs_for_each_res[i - 1] for i in residues) *)
Fixpoint sum_buhs (buhs_for_each_res : list Z) (residues : list nat) : result Z :=
  match residues with
  | [] => Ok 0%Z
  | i :: residues' =>
      x ← py_getitem buhs_for_each_res (Z.of_nat i - 1);
      rest ← sum_buhs buhs_for_each_res residues';
      Ok (x + rest)%Z
  end.

Definition get_num_buried_unsatisfied_hbonds (pose : Pose) (residues : list nat) : result Z :=
  buhs_for_each_res ← residue_bur_unsat_polars pose;
  sum_buhs buhs_for_each_res residues.

Definition get_fragment_quality_scores (pose : Pose) (bb_remodeled_residues : list nat)
    : result (R * R) :=
  crmsds ← position_crmsd pose bb_remodeled_residues;
  _ ← remove_fragment_file;
  worst ← py_max crmsds;
  Ok (worst, np_mean crmsds).

End Helpers.

(** A small instance: residue i has energy i, buried unsatisfied count
    10 i, and fragment coordinate RMSD i. *)
#[export] Instance toy_rosetta : Rosetta nat := {|
  residue_total_energy := fun _ i => Ok (INR i);
  residue_bur_unsat_polars := fun pose => Ok ((fun i => (10 * Z.of_nat i)%Z) <$> seq 1 pose);
  position_crmsd := fun _ positions => Ok (INR <$> positions);
  remove_fragment_file := Ok tt |}.

End FilterHelpers.

(** The keys of the table generate_filter_scores writes, in the order the
    function stores them. *)
Definition filter_score_keys : list string :=
  [ "designable_residues_average_energy"; "movable_residues_average_energy";
    "all_average_energy";
    "designable_residues_max_energy"; "movable_residues_max_energy";
    "all_residues_max_energy";
    "buried_unsat_for_designable_residues"; "buried_unsat_for_movable_residues";
    "buried_unsat_for_all_residues";
    "backrub_ensemble_consensus_buhs_for_all_residues";
    "backrub_ensemble_consensus_buhs_for_designable_residues";
    "backrub_ensemble_consensus_buhs_for_movable_residues";
    "num_over_saturated_hbond_acceptors_for_designable_residues";
    "num_over_saturated_hbond_acceptors_for_movable_residues";
    "num_over_saturated_hbond_acceptors_for_all_residues";
    "hydrophobic_sasa_sc_for_designable_residues";
    "hydrophobic_sasa_for_movable_residues";
    "average_hydrophobic_sasa_for_movable_residues";
    "relative_hydrophobic_sasa_for_movable_residues";
    "designable_local_holes_score"; "movable_local_holes_score"; "all_local_holes_score";
    "bb_remodeled_residues_helix_complementarity";
    "bb_remodeled_worst_fragment_crmsd"; "bb_remodeled_mean_fragment_crmsd" ]%string.

(** * Properties *)

(** ** The error monad *)

Lemma bind_ok {A B : Type} (r : result A) (k : A -> result B) (b : B) :
  r ≫= k = Ok b -> exists a, r = Ok a ∧ k a = Ok b.
Proof. destruct r as [a|e]; simpl; [eauto | discriminate]. Qed.

Lemma bind_Ok_l {A B : Type} (a : A) (k : A -> result B) : Ok a ≫= k = k a.
Proof. reflexivity. Qed.

Lemma Ok_inj {A : Type} (a b : A) : Ok a = Ok b -> a = b.
Proof. congruence. Qed.

Lemma py_in_true (i : nat) (l : list nat) : py_in i l = true <-> i ∈ l.
Proof. unfold py_in. apply bool_decide_eq_true. Qed.

Lemma py_in_false (i : nat) (l : list nat) : py_in i l = false <-> i ∉ l.
Proof. unfold py_in. apply bool_decide_eq_false. Qed.

(** ** load_design *)

Lemma elem_of_fixed_residues (size : nat) (remodeled : list nat) (i : nat) :
  i ∈ fixed_residues size remodeled <-> (1 <= i <= size) ∧ i ∉ remodeled.
Proof.
  unfold fixed_residues. rewrite list_elem_of_In, filter_In, in_seq.
  rewrite negb_true_iff, py_in_false. intuition lia.
Qed.

Lemma NoDup_fixed_residues (size : nat) (remodeled : list nat) :
  NoDup (fixed_residues size remodeled).
Proof.
  unfold fixed_residues. apply NoDup_ListNoDup, List.NoDup_filter, seq_NoDup.
Qed.

Lemma load_design_fields (fs : filesystem) (d : string) (loaded : design) :
  load_design fs d = Ok loaded ->
  pose_from_file fs design_pdb_gz d = Ok (pose_design loaded)
  ∧ load_design_info fs d = Ok (bb_remodeled_residues loaded)
  ∧ bb_fixed_residues loaded
    = fixed_residues (pose_size (pose_design loaded)) (bb_remodeled_residues loaded).
Proof.
  unfold load_design. intros H.
  apply bind_ok in H as (p & Hp & H).
  apply bind_ok in H as (low & Hlow & H).
  apply bind_ok in H as (rem & Hrem & H).
  injection H as <-. simpl. auto.
Qed.

(** C4: the fixed residues load_design computes are the complement, over
    the positions 1..L of the designed pose, of the remodeled residues of
    the manifest: no position is in both lists and, when the manifest only
    names positions of 1..L, every position of 1..L is in one of them. *)
Theorem load_design_partitions_positions (fs : filesystem) (d : string) (loaded : design) :
  load_design fs d = Ok loaded ->
  (forall i, i ∈ bb_remodeled_residues loaded -> 1 <= i <= pose_size (pose_design loaded)) ->
  NoDup (bb_fixed_residues loaded)
  ∧ (forall i, i ∈ bb_fixed_residues loaded <->
               (1 <= i <= pose_size (pose_design loaded)) ∧ i ∉ bb_remodeled_residues loaded)
  ∧ (forall i, ¬ (i ∈ bb_fixed_residues loaded ∧ i ∈ bb_remodeled_residues loaded))
  ∧ (forall i, (i ∈ bb_fixed_residues loaded ∨ i ∈ bb_remodeled_residues loaded) <->
               1 <= i <= pose_size (pose_design loaded)).
Proof.
  intros Hload Hrange.
  destruct (load_design_fields _ _ _ Hload) as (_ & _ & ->).
  split; [apply NoDup_fixed_residues |].
  split; [intros i; apply elem_of_fixed_residues |].
  split.
  - intros i [Hf Hr]. apply elem_of_fixed_residues in Hf. tauto.
  - intros i. rewrite elem_of_fixed_residues. split.
    + intros [[H _] | H]; auto.
    + intros H. destruct (decide (i ∈ bb_remodeled_residues loaded)); auto.
Qed.

Lemma load_design_partitions_positions_witness :
  load_design example_fs "a" = Ok example_design
  ∧ NoDup (bb_fixed_residues example_design)
  ∧ (forall i, (i ∈ bb_fixed_residues example_design ∨ i ∈ bb_remodeled_residues example_design)
               <-> 1 <= i <= 3).
Proof.
  assert (Hl : load_design example_fs "a" = Ok example_design) by reflexivity.
  split; [exact Hl |].
  destruct (load_design_partitions_positions example_fs "a" example_design Hl)
    as (Hnd & _ & _ & Hcover).
  - intros i Hi. apply list_elem_of_singleton in Hi. subst i. simpl. lia.
  - split; [exact Hnd | exact Hcover].
Defined.

(** ** get_superimpose_transformation: the precondition *)

Lemma superimpose_transformation_mismatch (svd : svd_routine) (P1 P2 : list vec3) :
  length P1 ≠ length P2 ->
  get_superimpose_transformation svd P1 P2 = Raise PointCountMismatch.
Proof.
  intros H. unfold get_superimpose_transformation.
  apply Nat.eqb_neq in H. now rewrite H.
Qed.

Lemma superimpose_transformation_same_length (svd : svd_routine) (P1 P2 : list vec3) :
  length P1 = length P2 ->
  get_superimpose_transformation svd P1 P2 ≠ Raise PointCountMismatch.
Proof.
  intros H. unfold get_superimpose_transformation.
  apply Nat.eqb_eq in H. rewrite H. simpl.
  destruct (linalg_svd svd (cross_covariance P1 P2 (mean P1) (mean P2)))
    as [[[V s] W]|e] eqn:E; simpl.
  - discriminate.
  - unfold linalg_svd in E. destruct (cross_covariance P1 P2 _ _); [congruence |].
    destruct (svd m); congruence.
Qed.

(** C3: get_superimpose_transformation raises its own exception on every
    pair of point lists of different lengths, fails (inside numpy's SVD,
    with LinAlgError) on two empty lists, and never raises its own
    exception on lists of equal length. *)
Theorem get_superimpose_transformation_precondition (svd : svd_routine) :
  (forall P1 P2, length P1 ≠ length P2 ->
     get_superimpose_transformation svd P1 P2 = Raise PointCountMismatch)
  ∧ get_superimpose_transformation svd [] [] = Raise LinAlgError
  ∧ (forall P1 P2, length P1 = length P2 -> P1 ≠ [] ->
       get_superimpose_transformation svd P1 P2 ≠ Raise PointCountMismatch).
Proof.
  split; [apply superimpose_transformation_mismatch |].
  split; [reflexivity |].
  intros P1 P2 H _. now apply superimpose_transformation_same_length.
Qed.

Lemma get_superimpose_transformation_precondition_witness :
  get_superimpose_transformation example_svd [vzero] [] = Raise PointCountMismatch
  ∧ get_superimpose_transformation example_svd [vzero] [vzero] ≠ Raise PointCountMismatch.
Proof.
  destruct (get_superimpose_transformation_precondition example_svd) as (Hne & _ & Heq).
  split.
  - apply Hne. simpl. lia.
  - apply Heq; [reflexivity | discriminate].
Defined.

(** ** calc_backbone_RMSD *)

Lemma backbone_points_length (p : pose) (residues : list nat) (points : list vec3) :
  get_backbone_points p residues = Ok points -> length points = 3 * length residues.
Proof.
  revert points. induction residues as [|res residues IH]; intros points H; simpl in *.
  - injection H as <-. reflexivity.
  - apply bind_ok in H as (r & _ & H). apply bind_ok in H as (pts & Hpts & H).
    injection H as <-. simpl. rewrite (IH _ Hpts). lia.
Qed.

Lemma backbone_points_valid (p : pose) (residues : list nat) :
  Forall (fun i => 1 <= i <= pose_size p) residues ->
  exists points, get_backbone_points p residues = Ok points.
Proof.
  induction 1 as [|i residues Hi _ [points IH]]; simpl.
  - eauto.
  - unfold pose_residue. destruct i as [|k]; [lia |].
    destruct (lookup_lt_is_Some_2 p k) as [r Hr]; [unfold pose_size in Hi; lia |].
    rewrite Hr, IH. simpl. eauto.
Qed.

Lemma backbone_points_error (p : pose) (residues : list nat) (e : error) :
  get_backbone_points p residues = Raise e -> e = ToolkitError.
Proof.
  induction residues as [|res residues IH]; simpl; [discriminate |].
  unfold pose_residue. destruct res as [|k]; simpl; [congruence |].
  destruct (p !! k); simpl; [| congruence].
  destruct (get_backbone_points p residues); simpl; [discriminate |].
  intros H. injection H as <-. now apply IH.
Qed.

Lemma point_differences_self (points : list vec3) :
  exists diff, point_differences points points = Ok diff
               ∧ length diff = length points ∧ sum_squares diff = 0%R.
Proof.
  induction points as [|p points (diff & Hd & Hlen & Hsum)]; simpl.
  - exists []. auto.
  - rewrite Hd. simpl. eexists. split; [reflexivity |]. split; [simpl; lia |].
    simpl. rewrite Hsum. unfold vdot, vsub. simpl. ring.
Qed.

Lemma point_differences_swap (points1 points2 diff : list vec3) :
  length points1 = length points2 ->
  point_differences points1 points2 = Ok diff ->
  exists diff', point_differences points2 points1 = Ok diff'
                ∧ length diff' = length diff ∧ sum_squares diff' = sum_squares diff.
Proof.
  revert points2 diff.
  induction points1 as [|p points1 IH]; intros [|q points2] diff Hlen H;
    simpl in *; try discriminate.
  - injection H as <-. exists []. auto.
  - apply bind_ok in H as (d & Hd & H). injection H as <-.
    destruct (IH points2 d) as (d' & -> & Hl & Hs); [lia | exact Hd |].
    simpl. eexists. split; [reflexivity |]. split; [simpl; lia |].
    simpl. rewrite Hs. unfold vdot, vsub. simpl. ring.
Qed.

Lemma point_differences_total (points1 points2 : list vec3) :
  length points1 = length points2 ->
  exists diff, point_differences points1 points2 = Ok diff.
Proof.
  revert points2. induction points1 as [|p points1 IH]; intros [|q points2] Hlen;
    simpl in *; try discriminate; eauto.
  destruct (IH points2) as [d ->]; [lia |]. simpl. eauto.
Qed.

Lemma RMSD_swap (points1 points2 : list vec3) :
  length points1 = length points2 -> RMSD points1 points2 = RMSD points2 points1.
Proof.
  intros Hlen. unfold RMSD.
  destruct (point_differences_total points1 points2 Hlen) as [d Hd].
  destruct (point_differences_swap _ _ _ Hlen Hd) as (d' & Hd' & Hl & Hs).
  rewrite Hd, Hd'. simpl.
  destruct d as [|x d], d' as [|x' d']; try discriminate; [reflexivity |].
  now rewrite Hs, Hl.
Qed.

Lemma calc_backbone_RMSD_self (p : pose) (residues : list nat) :
  residues ≠ [] ->
  Forall (fun i => 1 <= i <= pose_size p) residues ->
  calc_backbone_RMSD p residues p residues = Ok 0%R.
Proof.
  intros Hne Hvalid. unfold calc_backbone_RMSD.
  rewrite Nat.eqb_refl. simpl.
  destruct (backbone_points_valid p residues Hvalid) as [points Hp].
  rewrite Hp. simpl. unfold RMSD.
  destruct (point_differences_self points) as (diff & -> & Hlen & Hsum). simpl.
  destruct diff as [|d diff].
  - apply backbone_points_length in Hp. destruct residues; [congruence |].
    simpl in *. lia.
  - rewrite Hsum. unfold Rdiv. rewrite Rmult_0_l, sqrt_0. reflexivity.
Qed.

Lemma calc_backbone_RMSD_swap (p1 : pose) (r1 : list nat) (p2 : pose) (r2 : list nat) :
  length r1 = length r2 ->
  calc_backbone_RMSD p1 r1 p2 r2 = calc_backbone_RMSD p2 r2 p1 r1.
Proof.
  intros Hlen. unfold calc_backbone_RMSD.
  rewrite Hlen, Nat.eqb_refl. simpl.
  destruct (get_backbone_points p1 r1) as [pts1|e1] eqn:E1,
           (get_backbone_points p2 r2) as [pts2|e2] eqn:E2; simpl.
  - apply RMSD_swap.
    apply backbone_points_length in E1, E2. lia.
  - reflexivity.
  - reflexivity.
  - apply backbone_points_error in E1, E2. congruence.
Qed.

(** C5: calc_backbone_RMSD of a pose against itself, over a non-empty list
    of its residues, is 0; and swapping the two (pose, residues) arguments
    of equal-length non-empty residue lists does not change the outcome. *)
Theorem calc_backbone_RMSD_zero_and_symmetric :
  (forall (p : pose) (residues : list nat),
     residues ≠ [] -> Forall (fun i => 1 <= i <= pose_size p) residues ->
     calc_backbone_RMSD p residues p residues = Ok 0%R)
  ∧ (forall (p1 : pose) (r1 : list nat) (p2 : pose) (r2 : list nat),
       length r1 = length r2 -> r1 ≠ [] ->
       calc_backbone_RMSD p1 r1 p2 r2 = calc_backbone_RMSD p2 r2 p1 r1).
Proof.
  split.
  - apply calc_backbone_RMSD_self.
  - intros p1 r1 p2 r2 Hlen _. now apply calc_backbone_RMSD_swap.
Qed.

Lemma calc_backbone_RMSD_zero_and_symmetric_witness :
  calc_backbone_RMSD example_pose [1; 2] example_pose [1; 2] = Ok 0%R
  ∧ calc_backbone_RMSD example_pose [1; 2] example_pose_shifted [2; 1]
    = calc_backbone_RMSD example_pose_shifted [2; 1] example_pose [1; 2].
Proof.
  destruct calc_backbone_RMSD_zero_and_symmetric as [Hzero Hsym].
  split.
  - apply Hzero; [discriminate |].
    repeat constructor; simpl; lia.
  - apply Hsym; [reflexivity | discriminate].
Defined.

(* a pose against its copy moved by 1 along z *)
Example shifted_pose_rmsd :
  calc_backbone_RMSD example_pose [1; 2] example_pose_shifted [1; 2] = Ok 1%R.
Proof.
  unfold calc_backbone_RMSD, example_pose, example_pose_shifted, RMSD. simpl.
  f_equal. transitivity (sqrt 1); [| apply sqrt_1]. f_equal.
  cbv [sum_squares foldr vdot vsub vx vy vz]. field.
Qed.

(** ** superimpose_poses_by_residues: what the call changes *)

Lemma heap_pose_ok (h : gmap nat pyobject) (ref : nat) (p : pose) :
  heap_pose h ref = Ok p -> h !! ref = Some (PyPose p).
Proof.
  unfold heap_pose. destruct (h !! ref) as [[q|l]|]; congruence.
Qed.

Lemma heap_list_ok (h : gmap nat pyobject) (ref : nat) (l : list nat) :
  heap_list h ref = Ok l -> h !! ref = Some (PyList l).
Proof.
  unfold heap_list. destruct (h !! ref) as [[q|l']|]; congruence.
Qed.

Lemma superimposed_pose_ok (svd : svd_routine) (source : pose) (rs : list nat)
    (target : pose) (rt : list nat) (moved : pose) :
  superimposed_pose svd source rs target rt = Ok moved ->
  exists points_source points_target M t,
    get_backbone_points source rs = Ok points_source
    ∧ get_backbone_points target rt = Ok points_target
    ∧ get_superimpose_transformation svd points_source points_target = Ok (M, t)
    ∧ moved = apply_transform_Rx_plus_v M t source.
Proof.
  unfold superimposed_pose. intros H.
  apply bind_ok in H as (_ & _ & H).
  apply bind_ok in H as (ps & Hps & H).
  apply bind_ok in H as (pt & Hpt & H).
  apply bind_ok in H as ([M t] & HM & H).
  injection H as <-. exists ps, pt, M, t. auto.
Qed.

Lemma superimposed_pose_size (svd : svd_routine) (source : pose) (rs : list nat)
    (target : pose) (rt : list nat) (moved : pose) :
  superimposed_pose svd source rs target rt = Ok moved ->
  pose_size moved = pose_size source.
Proof.
  intros H. apply superimposed_pose_ok in H as (? & ? & M & t & _ & _ & _ & ->).
  unfold apply_transform_Rx_plus_v, pose_size. apply length_map.
Qed.

(** C10: a successful call of superimpose_poses_by_residues on a source
    pose and a distinct target pose replaces every atom p of the source
    pose by M p + t, for the transformation (M, t) computed from the two
    backbone point lists, and leaves the target pose, both residue lists
    and every other object as they were. *)
Theorem superimpose_poses_by_residues_frame (svd : svd_routine) (h h' : gmap nat pyobject)
    (pose_source residues_source pose_target residues_target : nat) :
  pose_source ≠ pose_target ->
  superimpose_poses_by_residues svd h pose_source residues_source pose_target residues_target
    = Ok h' ->
  exists source rs target rt points_source points_target M t,
    h !! pose_source = Some (PyPose source)
    ∧ h !! residues_source = Some (PyList rs)
    ∧ h !! pose_target = Some (PyPose target)
    ∧ h !! residues_target = Some (PyList rt)
    ∧ get_backbone_points source rs = Ok points_source
    ∧ get_backbone_points target rt = Ok points_target
    ∧ get_superimpose_transformation svd points_source points_target = Ok (M, t)
    ∧ h' !! pose_source = Some (PyPose (map (transform_residue M t) source))
    ∧ h' !! pose_target = Some (PyPose target)
    ∧ h' !! residues_source = Some (PyList rs)
    ∧ h' !! residues_target = Some (PyList rt)
    ∧ (forall ref, ref ≠ pose_source -> h' !! ref = h !! ref).
Proof.
  intros Hne H. unfold superimpose_poses_by_residues in H.
  apply bind_ok in H as (source & Hs & H). apply heap_pose_ok in Hs.
  apply bind_ok in H as (rs & Hrs & H). apply heap_list_ok in Hrs.
  apply bind_ok in H as (target & Ht & H). apply heap_pose_ok in Ht.
  apply bind_ok in H as (rt & Hrt & H). apply heap_list_ok in Hrt.
  apply bind_ok in H as (moved & Hm & H). injection H as <-.
  apply superimposed_pose_ok in Hm as (ps & pt & M & t & Hps & Hpt & HM & ->).
  exists source, rs, target, rt, ps, pt, M, t.
  repeat split; try assumption.
  - apply lookup_insert_eq.
  - rewrite lookup_insert_ne; [assumption | exact Hne].
  - rewrite lookup_insert_ne; [assumption | congruence].
  - rewrite lookup_insert_ne; [assumption | congruence].
  - intros ref Href. apply lookup_insert_ne. congruence.
Qed.

Lemma example_superimpose_ok :
  exists h', superimpose_poses_by_residues example_svd example_heap 0 1 2 3 = Ok h'.
Proof.
  unfold superimpose_poses_by_residues.
  change (heap_pose example_heap 0) with (Ok (A:=pose) example_pose).
  change (heap_list example_heap 1) with (Ok [1; 2]).
  change (heap_pose example_heap 2) with (Ok (A:=pose) example_pose_shifted).
  change (heap_list example_heap 3) with (Ok [2; 1]).
  unfold superimposed_pose, get_superimpose_transformation. simpl.
  match goal with |- context [Rlt_dec ?a ?b] => destruct (Rlt_dec a b) end; simpl; eauto.
Qed.

Lemma superimpose_poses_by_residues_frame_witness :
  exists h', superimpose_poses_by_residues example_svd example_heap 0 1 2 3 = Ok h'
             ∧ h' !! 2 = Some (PyPose example_pose_shifted)
             ∧ h' !! 1 = Some (PyList [1; 2])
             ∧ h' !! 3 = Some (PyList [2; 1]).
Proof.
  destruct example_superimpose_ok as [h' Hh']. exists h'.
  split; [exact Hh' |].
  destruct (superimpose_poses_by_residues_frame example_svd example_heap h' 0 1 2 3)
    as (source & rs & target & rt & ps & pt & M & t
        & Hs & Hrs & Ht & Hrt & _ & _ & _ & _ & Ht' & Hrs' & Hrt' & _);
    [lia | exact Hh' |].
  change (example_heap !! 2) with (Some (PyPose example_pose_shifted)) in Ht.
  change (example_heap !! 1) with (Some (PyList [1; 2])) in Hrs.
  change (example_heap !! 3) with (Some (PyList [2; 1])) in Hrt.
  injection Ht as <-. injection Hrs as <-. injection Hrt as <-.
  auto.
Defined.

(** ** calc_backbone_RMSD on empty residue lists *)

Lemma remodeled_aligned_residues_empty (res_map : residue_map) (remodeled : list nat) :
  (forall k, k ∈ keys res_map -> k ∉ remodeled) ->
  remodeled_aligned_residues res_map remodeled = ([], []).
Proof.
  intros H. unfold remodeled_aligned_residues.
  replace (List.filter (λ kv : nat * nat, py_in kv.1 remodeled) res_map) with (@nil (nat * nat));
    [reflexivity |].
  symmetry. induction res_map as [|[k v] m IH]; simpl; [reflexivity |].
  assert (Hk : py_in k remodeled = false).
  { apply py_in_false, H. unfold keys. simpl. left. }
  rewrite Hk. apply IH. intros k' Hk'. apply H. unfold keys in *. simpl. now right.
Qed.

Lemma remodeled_region_rmsd_empty (pose_source pose_target : pose)
    (remodeled : list nat) (res_map : residue_map) :
  get_target_to_source_residue_map pose_source pose_target = Ok res_map ->
  (forall k, k ∈ keys res_map -> k ∉ remodeled) ->
  remodeled_region_rmsd pose_source pose_target remodeled = Raise ZeroDivisionError.
Proof.
  intros Hmap Hnone. unfold remodeled_region_rmsd. rewrite Hmap, bind_Ok_l.
  now rewrite (remodeled_aligned_residues_empty _ _ Hnone).
Qed.

Lemma remodeled_region_rmsd_no_target (pose_source pose_target : pose) :
  is_ok (remodeled_region_rmsd pose_source pose_target []) = false.
Proof.
  unfold remodeled_region_rmsd.
  destruct (get_target_to_source_residue_map pose_source pose_target) as [m|e] eqn:E;
    [| reflexivity].
  rewrite bind_Ok_l, remodeled_aligned_residues_empty; [reflexivity |].
  intros k _. apply not_elem_of_nil.
Qed.

(** ** get_target_to_source_residue_map *)

Lemma pose_residue_valid (p : pose) (i : nat) :
  1 <= i <= pose_size p -> exists r, pose_residue p i = Ok r.
Proof.
  intros H. unfold pose_residue. destruct i as [|k]; [lia |].
  destruct (lookup_lt_is_Some_2 p k) as [r ->]; [unfold pose_size in H; lia | eauto].
Qed.

Lemma distances_from_total (ps pt : pose) (i : nat) (js : list nat) :
  1 <= i <= pose_size ps ->
  Forall (fun j => 1 <= j <= pose_size pt) js ->
  exists row, distances_from ps pt i js = Ok row ∧ row.*1 = map (pair i) js.
Proof.
  intros Hi. induction 1 as [|j js Hj _ (row & Hrow & Hfst)]; simpl.
  - exists []. auto.
  - destruct (pose_residue_valid ps i Hi) as [rs ->].
    destruct (pose_residue_valid pt j Hj) as [rt ->].
    rewrite Hrow. simpl. eexists. split; [reflexivity |]. now rewrite fmap_cons, Hfst.
Qed.

Lemma Forall_seq_range (n : nat) : Forall (fun j => 1 <= j <= n) (seq 1 n).
Proof. apply Forall_forall. intros j Hj. apply elem_of_seq in Hj. lia. Qed.

Lemma all_distances_total (ps pt : pose) (residues : list nat) :
  Forall (fun i => 1 <= i <= pose_size ps) residues ->
  exists ds, all_distances ps pt residues = Ok ds
             ∧ forall i j, (i, j) ∈ ds.*1 <-> i ∈ residues ∧ 1 <= j <= pose_size pt.
Proof.
  induction 1 as [|i residues Hi _ (ds & Hds & Hmem)]; simpl.
  - exists []. split; [reflexivity |]. intros i j. simpl.
    rewrite !elem_of_nil. tauto.
  - destruct (distances_from_total ps pt i (seq 1 (pose_size pt)) Hi (Forall_seq_range _))
      as (row & -> & Hrow).
    rewrite Hds. simpl. eexists. split; [reflexivity |].
    intros i' j. rewrite fmap_app, elem_of_app, Hrow, Hmem, elem_of_cons.
    rewrite list_elem_of_fmap. split.
    + intros [(j' & Heq & Hj') | [? ?]].
      * injection Heq as -> ->. apply elem_of_seq in Hj'. split; [now left | lia].
      * split; [now right | assumption].
    + intros [[-> | Hi'] Hj].
      * left. exists j. split; [reflexivity |]. apply elem_of_seq. lia.
      * right. auto.
Qed.

Lemma insert_by_distance_perm (d : pair_distance) (l : list pair_distance) :
  insert_by_distance d l ≡ₚ d :: l.
Proof.
  induction l as [|e l IH]; simpl; [reflexivity |].
  destruct (Rlt_dec e.2 d.2); [| reflexivity].
  rewrite IH. apply perm_swap.
Qed.

Lemma sorted_by_distance_perm (l : list pair_distance) : sorted_by_distance l ≡ₚ l.
Proof.
  induction l as [|d l IH]; simpl; [reflexivity |].
  rewrite insert_by_distance_perm. now rewrite IH.
Qed.

Lemma keys_accept (res_map : residue_map) (d : pair_distance) (k : nat) :
  k ∈ keys res_map -> k ∈ keys (accept res_map d).
Proof.
  unfold accept, keys. destruct (_ && _); [| auto].
  rewrite fmap_app, elem_of_app. auto.
Qed.

Lemma values_accept (res_map : residue_map) (d : pair_distance) (v : nat) :
  v ∈ values res_map -> v ∈ values (accept res_map d).
Proof.
  unfold accept, values. destruct (_ && _); [| auto].
  rewrite fmap_app, elem_of_app. auto.
Qed.

Lemma blocked_accept (res_map : residue_map) (d e : pair_distance) :
  blocked res_map e -> blocked (accept res_map d) e.
Proof. intros [H | H]; [left; now apply keys_accept | right; now apply values_accept]. Qed.

Lemma accept_blocks (res_map : residue_map) (d : pair_distance) :
  blocked (accept res_map d) d.
Proof.
  unfold accept, blocked.
  destruct (py_in d.1.2 (keys res_map)) eqn:Hk; simpl.
  - left. now apply py_in_true.
  - destruct (py_in d.1.1 (values res_map)) eqn:Hv; simpl.
    + right. now apply py_in_true.
    + left. unfold keys. rewrite fmap_app, elem_of_app. right. simpl. left.
Qed.

Lemma accept_well_formed (n m : nat) (res_map : residue_map) (d : pair_distance) :
  in_range n m d -> well_formed n m res_map -> well_formed n m (accept res_map d).
Proof.
  intros [Hi Hj] [Hk Hv Hkr Hvr]. unfold accept.
  destruct (py_in d.1.2 (keys res_map)) eqn:Ek; simpl; [now constructor |].
  destruct (py_in d.1.1 (values res_map)) eqn:Ev; simpl; [now constructor |].
  apply py_in_false in Ek, Ev.
  constructor; unfold keys, values in *; rewrite fmap_app; simpl.
  - apply NoDup_app. split; [assumption |]. split; [| apply NoDup_singleton].
    intros k Hin Hk'. apply list_elem_of_singleton in Hk'. congruence.
  - apply NoDup_app. split; [assumption |]. split; [| apply NoDup_singleton].
    intros v Hin Hv'. apply list_elem_of_singleton in Hv'. congruence.
  - intros k. rewrite elem_of_app, list_elem_of_singleton. intros [H | ->]; auto.
  - intros v. rewrite elem_of_app, list_elem_of_singleton. intros [H | ->]; auto.
Qed.

Lemma match_greedily_cons (n : nat) (d : pair_distance) (ds : list pair_distance)
    (res_map : residue_map) :
  match_greedily n (d :: ds) res_map
  = if length (keys (accept res_map d)) =? n then accept res_map d
    else match_greedily n ds (accept res_map d).
Proof. reflexivity. Qed.

Lemma match_greedily_blocked (n : nat) (ds : list pair_distance) (res_map : residue_map) :
  (forall e, blocked res_map e -> blocked (match_greedily n ds res_map) e)
  ∧ (length (match_greedily n ds res_map) = n
     ∨ forall d, d ∈ ds -> blocked (match_greedily n ds res_map) d).
Proof.
  revert res_map. induction ds as [|d ds IH]; intros res_map.
  - simpl. split; [auto |]. right. intros d Hd. now apply elem_of_nil in Hd.
  - rewrite match_greedily_cons.
    destruct (length (keys (accept res_map d)) =? n) eqn:E.
    + split; [intros e; apply blocked_accept |].
      left. apply Nat.eqb_eq in E. unfold keys in E. now rewrite length_fmap in E.
    + destruct (IH (accept res_map d)) as [Hmono Hall]. split.
      * intros e He. apply Hmono, blocked_accept, He.
      * destruct Hall as [Hlen | Hall]; [now left | right].
        intros e He. apply elem_of_cons in He as [-> | He]; [| now apply Hall].
        apply Hmono, accept_blocks.
Qed.

Lemma match_greedily_well_formed (n m : nat) (ds : list pair_distance)
    (res_map : residue_map) :
  Forall (in_range n m) ds -> well_formed n m res_map ->
  well_formed n m (match_greedily n ds res_map).
Proof.
  intros Hds. revert res_map. induction Hds as [|d ds Hd _ IH]; intros res_map Hwf.
  - exact Hwf.
  - rewrite match_greedily_cons. pose proof (accept_well_formed n m res_map d Hd Hwf).
    destruct (_ =? _); auto.
Qed.

(* a list of fewer than n numbers misses one of 1..n *)
Lemma missing_position (n : nat) (l : list nat) :
  length l < n -> exists i, 1 <= i <= n ∧ i ∉ l.
Proof.
  intros Hlen.
  destruct (decide (Forall (fun i => i ∈ l) (seq 1 n))) as [Hall | Hex].
  - exfalso. assert (seq 1 n ⊆+ l) as Hsub.
    { apply NoDup_submseteq; [apply NoDup_seq |]. now apply Forall_forall. }
    apply submseteq_length in Hsub. rewrite length_seq in Hsub. lia.
  - apply not_Forall_Exists in Hex; [| intros i; apply _].
    apply Exists_exists in Hex as (i & Hi & Hni). apply elem_of_seq in Hi.
    exists i. split; [lia | exact Hni].
Qed.

Lemma well_formed_length (n m : nat) (res_map : residue_map) :
  well_formed n m res_map -> length res_map <= n.
Proof.
  intros [_ Hv _ Hvr].
  assert (values res_map ⊆+ seq 1 n) as Hsub.
  { apply NoDup_submseteq; [assumption |]. intros v Hin. apply elem_of_seq.
    specialize (Hvr v Hin). lia. }
  apply submseteq_length in Hsub. unfold values in Hsub.
  now rewrite length_fmap, length_seq in Hsub.
Qed.

(** C2: for poses with 1 <= source size <= target size,
    get_target_to_source_residue_map returns a map whose keys (target
    residues) are pairwise distinct, whose values (source residues) are
    pairwise distinct, and which has exactly as many entries as the source
    pose has residues; keys are positions of the target, values positions
    of the source. *)
Theorem get_target_to_source_residue_map_injective (pose_source pose_target : pose) :
  1 <= pose_size pose_source <= pose_size pose_target ->
  exists res_map,
    get_target_to_source_residue_map pose_source pose_target = Ok res_map
    ∧ NoDup (keys res_map)
    ∧ NoDup (values res_map)
    ∧ length res_map = pose_size pose_source
    ∧ (forall k, k ∈ keys res_map -> 1 <= k <= pose_size pose_target)
    ∧ (forall v, v ∈ values res_map -> 1 <= v <= pose_size pose_source).
Proof.
  intros Hsize. unfold get_target_to_source_residue_map.
  set (n := pose_size pose_source) in *. set (m := pose_size pose_target) in *.
  destruct (all_distances_total pose_source pose_target (seq 1 n) (Forall_seq_range n))
    as (ds & -> & Hmem).
  rewrite bind_Ok_l. eexists. split; [reflexivity |].
  set (sorted := sorted_by_distance ds).
  assert (Hperm : sorted ≡ₚ ds) by apply sorted_by_distance_perm.
  assert (Hrange : Forall (in_range n m) sorted).
  { apply Forall_forall. intros [[i j] x] Hd. rewrite Hperm in Hd.
    assert ((i, j) ∈ ds.*1) as Hij by (apply list_elem_of_fmap; exists (i, j, x); auto).
    apply Hmem in Hij as [Hi Hj]. apply elem_of_seq in Hi.
    unfold in_range. simpl. fold m in Hj. lia. }
  assert (Hwf : well_formed n m (match_greedily n sorted [])).
  { apply (match_greedily_well_formed n m); [exact Hrange |].
    constructor; simpl; try apply NoDup_nil_2; intros k Hk; now apply elem_of_nil in Hk. }
  destruct Hwf as [Hk Hv Hkr Hvr] eqn:Ewf.
  repeat split; try assumption; try (intros; apply Hkr; assumption);
    try (intros; apply Hvr; assumption).
  pose proof (well_formed_length n m _ Hwf) as Hle.
  destruct (match_greedily_blocked n sorted []) as [_ [Hlen | Hall]]; [exact Hlen |].
  destruct (decide (length (match_greedily n sorted []) = n)) as [? | Hne]; [assumption |].
  exfalso.
  destruct (missing_position n (values (match_greedily n sorted []))) as (i & Hi & Hni).
  { unfold values. rewrite length_fmap. lia. }
  destruct (missing_position m (keys (match_greedily n sorted []))) as (j & Hj & Hnj).
  { unfold keys. rewrite length_fmap. lia. }
  assert ((i, j) ∈ ds.*1) as Hij.
  { apply Hmem. split; [apply elem_of_seq; lia | fold m; lia]. }
  apply list_elem_of_fmap in Hij as ([[i' j'] x] & Heq & Hin). simpl in Heq.
  injection Heq as <- <-. rewrite <- Hperm in Hin.
  destruct (Hall _ Hin) as [H | H]; simpl in H; contradiction.
Qed.

Lemma get_target_to_source_residue_map_injective_witness :
  exists res_map,
    get_target_to_source_residue_map example_pose example_pose_shifted = Ok res_map
    ∧ NoDup (keys res_map) ∧ NoDup (values res_map) ∧ length res_map = 2.
Proof.
  destruct (get_target_to_source_residue_map_injective example_pose example_pose_shifted)
    as (res_map & H & Hk & Hv & Hlen & _); [simpl; lia |].
  exists res_map. auto.
Defined.

Lemma distance_along_x (a b : R) :
  (a <= b)%R -> distance (mkV a 0 0) (mkV b 0 0) = (b - a)%R.
Proof.
  intros H. unfold distance. cbv [vdot vsub vx vy vz].
  replace ((a - b) * (a - b) + (0 - 0) * (0 - 0) + (0 - 0) * (0 - 0))%R
    with ((b - a) * (b - a))%R by ring.
  apply sqrt_square. lra.
Qed.

(* the nearer target residue is matched, whatever its position in the pose *)
Example nearest_target_is_matched :
  get_target_to_source_residue_map short_pose long_pose = Ok [(2, 1)].
Proof.
  unfold get_target_to_source_residue_map, short_pose, long_pose. simpl.
  rewrite !distance_along_x by lra.
  unfold sorted_by_distance. simpl.
  destruct (Rlt_dec (0 - 0) (3 - 0)) as [_ | H]; [| exfalso; lra].
  reflexivity.
Qed.

(* between two targets at the same distance the first enumerated wins *)
Example tie_keeps_enumeration_order :
  get_target_to_source_residue_map short_pose tied_pose = Ok [(1, 1)].
Proof.
  unfold get_target_to_source_residue_map, short_pose, tied_pose. simpl.
  rewrite !distance_along_x by lra.
  unfold sorted_by_distance. simpl.
  destruct (Rlt_dec (3 - 0) (3 - 0)) as [H | _]; [exfalso; lra |].
  reflexivity.
Qed.

(** ** calculate_bb_remodeled_region_rmsds *)

Section PipelineFacts.

Variable svd : svd_routine.
Variable pose_designs : list pose.
Variable all_bb_remodeled_residues : list (list nat).
Variable all_bb_fixed_residues : list (list nat).

Local Abbreviation pair :=
  (pair_rmsd svd pose_designs all_bb_remodeled_residues all_bb_fixed_residues).
Local Abbreviation row :=
  (rmsd_row svd pose_designs all_bb_remodeled_residues all_bb_fixed_residues).
Local Abbreviation rows :=
  (rmsd_rows svd pose_designs all_bb_remodeled_residues all_bb_fixed_residues).

Lemma py_index_ok {A : Type} (l : list A) (i : nat) (a : A) :
  py_index l i = Ok a -> l !! i = Some a.
Proof. unfold py_index. destruct (l !! i); congruence. Qed.

Lemma pair_rmsd_ok (i j : nat) (lows lows' : list pose) (rmsd : R) :
  pair i j lows = Ok (lows', rmsd) ->
  exists low_j design_i remodeled,
    lows !! j = Some low_j
    ∧ pose_designs !! i = Some design_i
    ∧ all_bb_remodeled_residues
        !! (if pose_size low_j <? pose_size design_i then i else j) = Some remodeled
    ∧ remodeled ≠ []
    ∧ pose_size <$> lows' = pose_size <$> lows.
Proof.
  unfold pair_rmsd. intros H.
  apply bind_ok in H as (low_j & Hlow & H). apply py_index_ok in Hlow.
  apply bind_ok in H as (fixed_j & _ & H).
  apply bind_ok in H as (design_i & Hdes & H). apply py_index_ok in Hdes.
  apply bind_ok in H as (fixed_i & _ & H).
  apply bind_ok in H as (moved & Hmoved & H).
  apply superimposed_pose_size in Hmoved.
  apply bind_ok in H as ([[pose_source pose_target] rem] & Hsel & H).
  apply bind_ok in H as (x & Hx & H). injection H as <- <-.
  exists low_j, design_i, rem. rewrite <- Hmoved.
  split; [assumption |]. split; [assumption |].
  assert (Hrem : rem ≠ []).
  { intros ->. pose proof (remodeled_region_rmsd_no_target pose_source pose_target) as Hno.
    now rewrite Hx in Hno. }
  split; [| split; [exact Hrem |]].
  - destruct (pose_size moved <? pose_size design_i).
    + apply bind_ok in Hsel as (r & Hr & Hsel). apply py_index_ok in Hr. congruence.
    + apply bind_ok in Hsel as (r & Hr & Hsel). apply py_index_ok in Hr. congruence.
  - rewrite list_fmap_insert, Hmoved. apply list_insert_id.
    rewrite list_lookup_fmap, Hlow. reflexivity.
Qed.

Lemma rmsd_row_ok (i : nat) (js : list nat) (lows lows' : list pose) (acc acc' : list R) :
  row i js lows acc = Ok (lows', acc') ->
  length acc' = length acc + length js
  ∧ pose_size <$> lows' = pose_size <$> lows
  ∧ forall j, j ∈ js ->
      exists lows_j out, pose_size <$> lows_j = pose_size <$> lows ∧ pair i j lows_j = Ok out.
Proof.
  revert lows acc. induction js as [|j js IH]; intros lows acc H; simpl in H.
  - injection H as <- <-. split; [simpl; lia |]. split; [reflexivity |].
    intros j Hj. now apply elem_of_nil in Hj.
  - apply bind_ok in H as ([lows1 rmsd] & Hpair & H).
    pose proof Hpair as Hp. apply pair_rmsd_ok in Hp as (_ & _ & _ & _ & _ & _ & _ & Hsz).
    apply IH in H as (Hlen & Hsz' & Hall).
    split; [rewrite Hlen, length_app; simpl; lia |].
    split; [congruence |].
    intros j' Hj'. apply elem_of_cons in Hj' as [-> | Hj'].
    + exists lows, (lows1, rmsd). auto.
    + destruct (Hall j' Hj') as (lows_j & out & Hs & Ho).
      exists lows_j, out. split; [congruence | exact Ho].
Qed.

Lemma rmsd_rows_ok (n : nat) (residues : list nat) (lows : list pose)
    (acc RMSDs : list (list R)) :
  rows n residues lows acc = Ok RMSDs ->
  length RMSDs = length acc + length residues
  ∧ (Forall (fun r => length r = n) acc -> Forall (fun r => length r = n) RMSDs)
  ∧ forall i j, i ∈ residues -> j < n ->
      exists lows_j out, pose_size <$> lows_j = pose_size <$> lows ∧ pair i j lows_j = Ok out.
Proof.
  revert lows acc. induction residues as [|i residues IH]; intros lows acc H;
    simpl in H.
  - injection H as <-. split; [simpl; lia |]. split; [auto |].
    intros i j Hi. now apply elem_of_nil in Hi.
  - apply bind_ok in H as ([lows1 r] & Hrow & H).
    apply rmsd_row_ok in Hrow as (Hlen & Hsz & Hall). simpl in Hlen. rewrite length_seq in Hlen.
    apply IH in H as (Hlen' & Hshape & Hall').
    split; [rewrite Hlen', length_app; simpl; lia |].
    split.
    + intros Hacc. apply Hshape, Forall_app. split; [exact Hacc |].
      constructor; [exact Hlen | constructor].
    + intros i' j Hi' Hj. apply elem_of_cons in Hi' as [-> | Hi'].
      * apply Hall, elem_of_seq. lia.
      * destruct (Hall' i' j Hi' Hj) as (lows_j & out & Hs & Ho).
        exists lows_j, out. split; [congruence | exact Ho].
Qed.

End PipelineFacts.

Lemma load_designs_length (fs : filesystem) (paths : list string) (designs : list design) :
  load_designs fs paths = Ok designs -> length designs = length paths.
Proof.
  revert designs. induction paths as [|d paths IH]; intros designs H; simpl in H.
  - now injection H as <-.
  - apply bind_ok in H as (x & _ & H). apply bind_ok in H as (rest & Hrest & H).
    injection H as <-. simpl. now rewrite (IH _ Hrest).
Qed.

Lemma filter_filter_same {A : Type} (f : A -> bool) (l : list A) :
  List.filter f (List.filter f l) = List.filter f l.
Proof.
  induction l as [|a l IH]; simpl; [reflexivity |].
  destruct (f a) eqn:E; simpl; [rewrite E; now f_equal | exact IH].
Qed.

Lemma calculate_on_retained (svd : svd_routine) (fs : filesystem) (paths : list string) :
  calculate_bb_remodeled_region_rmsds svd fs paths
  = calculate_bb_remodeled_region_rmsds svd fs (List.filter (exists_file fs design_pdb_gz) paths).
Proof.
  unfold calculate_bb_remodeled_region_rmsds. now rewrite filter_filter_same.
Qed.

Lemma calculate_shape (svd : svd_routine) (fs : filesystem) (paths : list string)
    (RMSDs : list (list R)) :
  calculate_bb_remodeled_region_rmsds svd fs paths = Ok RMSDs ->
  let n := length (List.filter (exists_file fs design_pdb_gz) paths) in
  length RMSDs = n ∧ Forall (fun r => length r = n) RMSDs.
Proof.
  unfold calculate_bb_remodeled_region_rmsds. intros H.
  apply bind_ok in H as (designs & _ & H).
  apply rmsd_rows_ok in H as (Hlen & Hshape & _).
  rewrite length_seq in Hlen. simpl in *. split; [exact Hlen | apply Hshape; constructor].
Qed.

(** C7: a directory without design.pdb.gz is dropped from the batch before
    anything is loaded: the outcome of the batch is the outcome on the
    retained directories alone, no dropped directory is among them, and a
    matrix that comes out (from calculate_bb_remodeled_region_rmsds or from
    plot_bb_remodeled_region_rmsds) is N x N for the number N of retained
    directories. *)
Theorem missing_design_is_excluded (svd : svd_routine) (fs : filesystem)
    (design_paths : list string) :
  let retained := List.filter (exists_file fs design_pdb_gz) design_paths in
  let plotted := List.filter (exists_file fs design_pdb_gz)
                   (List.filter (exists_file fs design_info_json) design_paths) in
  calculate_bb_remodeled_region_rmsds svd fs design_paths
    = calculate_bb_remodeled_region_rmsds svd fs retained
  ∧ (forall d, d ∈ design_paths -> exists_file fs design_pdb_gz d = false ->
       (d ∉ retained) ∧ (d ∉ plotted))
  ∧ (forall RMSDs, calculate_bb_remodeled_region_rmsds svd fs design_paths = Ok RMSDs ->
       length RMSDs = length retained
       ∧ Forall (fun r => length r = length retained) RMSDs)
  ∧ (forall RMSDs, plot_bb_remodeled_region_rmsds svd fs design_paths = Ok RMSDs ->
       length RMSDs = length plotted
       ∧ Forall (fun r => length r = length plotted) RMSDs).
Proof.
  intros retained plotted.
  split; [apply calculate_on_retained |].
  split.
  - intros d _ Hd. unfold retained, plotted.
    rewrite !list_elem_of_In, !filter_In. split; intros [_ H]; congruence.
  - split; intros RMSDs H; now apply calculate_shape in H.
Qed.

Lemma missing_design_is_excluded_witness :
  List.filter (exists_file example_batch_fs design_pdb_gz) example_batch = ["a"%string]
  ∧ example_missing ∈ example_batch
  ∧ (example_missing ∉ List.filter (exists_file example_batch_fs design_pdb_gz) example_batch)
  ∧ forall RMSDs,
      calculate_bb_remodeled_region_rmsds example_svd example_batch_fs example_batch
        = Ok RMSDs ->
      length RMSDs = 1.
Proof.
  assert (Hr : List.filter (exists_file example_batch_fs design_pdb_gz) example_batch
               = ["a"%string]) by reflexivity.
  assert (Hb : example_missing ∈ example_batch) by (right; left).
  destruct (missing_design_is_excluded example_svd example_batch_fs example_batch)
    as (_ & Hdrop & Hshape & _).
  split; [exact Hr |]. split; [exact Hb |].
  split.
  - apply (Hdrop example_missing); [exact Hb | reflexivity].
  - intros RMSDs H. apply Hshape in H as [H _]. rewrite Hr in H. exact H.
Defined.

(** ** The batch on empty remodeled regions *)

Lemma load_designs_lookup (fs : filesystem) (paths : list string) (designs : list design)
    (i : nat) (d : design) :
  load_designs fs paths = Ok designs -> designs !! i = Some d -> i < length paths.
Proof.
  intros H Hi. apply load_designs_length in H. apply lookup_lt_Some in Hi. lia.
Qed.

Lemma batch_needs_remodeled_targets (svd : svd_routine) (fs : filesystem)
    (design_paths : list string) (designs : list design) (i j : nat)
    (design_i design_j : design) :
  load_designs fs (List.filter (exists_file fs design_pdb_gz) design_paths) = Ok designs ->
  designs !! i = Some design_i ->
  designs !! j = Some design_j ->
  remodeled_residues_of_target design_i design_j = [] ->
  is_ok (calculate_bb_remodeled_region_rmsds svd fs design_paths) = false.
Proof.
  intros Hload Hi Hj Hempty.
  destruct (calculate_bb_remodeled_region_rmsds svd fs design_paths) as [RMSDs|e] eqn:E;
    [| reflexivity].
  exfalso. unfold calculate_bb_remodeled_region_rmsds in E. rewrite Hload, bind_Ok_l in E.
  apply rmsd_rows_ok in E as (_ & _ & Hall).
  destruct (Hall i j) as (lows_j & [lows' rmsd] & Hsz & Hpair).
  { apply elem_of_seq. pose proof (load_designs_lookup _ _ _ _ _ Hload Hi). lia. }
  { exact (load_designs_lookup _ _ _ _ _ Hload Hj). }
  apply pair_rmsd_ok in Hpair as (low_j & des_i & rem & Hlow & Hdes & Hrem & Hne & _).
  rewrite list_lookup_fmap, Hi in Hdes. injection Hdes as <-.
  assert (Hsize : pose_size low_j = pose_size (pose_lowest_energy design_j)).
  { assert ((pose_size <$> lows_j) !! j = Some (pose_size low_j)) as H1
      by now rewrite list_lookup_fmap, Hlow.
    rewrite Hsz, !list_lookup_fmap, Hj in H1. simpl in H1. congruence. }
  unfold remodeled_residues_of_target in Hempty. rewrite Hsize in Hrem.
  destruct (pose_size (pose_lowest_energy design_j) <? pose_size (pose_design design_i)).
  - rewrite list_lookup_fmap, Hi in Hrem. simpl in Hrem. congruence.
  - rewrite list_lookup_fmap, Hj in Hrem. simpl in Hrem. congruence.
Qed.

(** C9: calc_backbone_RMSD on two empty residue lists raises
    ZeroDivisionError; so the loop body raises ZeroDivisionError whenever no
    key of the residue map lies in the remodeled list of the target, and the
    batch returns no matrix when, for some pair of loaded designs, that
    remodeled list is empty. *)
Theorem empty_remodeled_region_fails :
  (forall p1 p2 : pose, calc_backbone_RMSD p1 [] p2 [] = Raise ZeroDivisionError)
  ∧ (forall (pose_source pose_target : pose) (remodeled : list nat) (res_map : residue_map),
       get_target_to_source_residue_map pose_source pose_target = Ok res_map ->
       (forall k, k ∈ keys res_map -> k ∉ remodeled) ->
       remodeled_region_rmsd pose_source pose_target remodeled = Raise ZeroDivisionError)
  ∧ (forall (svd : svd_routine) (fs : filesystem) (design_paths : list string)
            (designs : list design) (i j : nat) (design_i design_j : design),
       load_designs fs (List.filter (exists_file fs design_pdb_gz) design_paths) = Ok designs ->
       designs !! i = Some design_i ->
       designs !! j = Some design_j ->
       remodeled_residues_of_target design_i design_j = [] ->
       is_ok (calculate_bb_remodeled_region_rmsds svd fs design_paths) = false).
Proof.
  split; [reflexivity |].
  split; [apply remodeled_region_rmsd_empty | apply batch_needs_remodeled_targets].
Qed.

Lemma empty_remodeled_region_fails_witness :
  calc_backbone_RMSD example_pose [] example_pose_shifted [] = Raise ZeroDivisionError
  ∧ load_designs example_unremodeled_fs
      (List.filter (exists_file example_unremodeled_fs design_pdb_gz) ["a"%string])
    = Ok [example_unremodeled_design]
  ∧ is_ok (calculate_bb_remodeled_region_rmsds example_svd example_unremodeled_fs ["a"%string])
    = false.
Proof.
  destruct empty_remodeled_region_fails as (Hcalc & _ & Hbatch).
  split; [apply Hcalc |].
  assert (Hload : load_designs example_unremodeled_fs
            (List.filter (exists_file example_unremodeled_fs design_pdb_gz) ["a"%string])
          = Ok [example_unremodeled_design]) by reflexivity.
  split; [exact Hload |].
  apply (Hbatch example_svd example_unremodeled_fs ["a"%string] [example_unremodeled_design]
           0%nat 0%nat example_unremodeled_design example_unremodeled_design);
    [exact Hload | reflexivity | reflexivity | reflexivity].
Defined.

(** ** get_superimpose_transformation on a rigid motion *)

Section RigidMotion.

Local Open Scope R_scope.

Ltac destruct_arrays :=
  repeat match goal with
         | m : mat3 |- _ => destruct m
         | v : vec3 |- _ => destruct v
         end.

Ltac array_ring :=
  intros; destruct_arrays;
  cbv [mmul madd msub mscale transpose mvmul vadd vsub vscale vdot cross
       det diag outer mident mzero vzero trace quad negate_last_column
       transform_point m00 m01 m02 m10 m11 m12 m20 m21 m22 vx vy vz];
  first [ring | f_equal; ring].

Lemma mmul_assoc a b c : mmul (mmul a b) c = mmul a (mmul b c).
Proof. array_ring. Qed.

Lemma mmul_ident_l a : mmul mident a = a.
Proof. array_ring. Qed.

Lemma mmul_ident_r a : mmul a mident = a.
Proof. array_ring. Qed.

Lemma transpose_mmul a b : transpose (mmul a b) = mmul (transpose b) (transpose a).
Proof. array_ring. Qed.

Lemma transpose_involutive a : transpose (transpose a) = a.
Proof. array_ring. Qed.

Lemma det_mmul a b : det (mmul a b) = det a * det b.
Proof. array_ring. Qed.

Lemma det_transpose a : det (transpose a) = det a.
Proof. array_ring. Qed.

Lemma det_mident : det mident = 1.
Proof. array_ring. Qed.

Lemma det_diag s : det (diag s) = vx s * vy s * vz s.
Proof. array_ring. Qed.

Lemma mvmul_mmul a b x : mvmul (mmul a b) x = mvmul a (mvmul b x).
Proof. array_ring. Qed.

Lemma mvmul_mident x : mvmul mident x = x.
Proof. array_ring. Qed.

Lemma mmul_madd_l a b c : mmul (madd a b) c = madd (mmul a c) (mmul b c).
Proof. array_ring. Qed.

Lemma mmul_mzero_l a : mmul mzero a = mzero.
Proof. array_ring. Qed.

Lemma det_negate_last_column v : det (negate_last_column v) = - det v.
Proof. array_ring. Qed.

Lemma orthogonal_det a : orthogonal a -> det a * det a = 1.
Proof.
  intros [H _]. apply (f_equal det) in H.
  now rewrite det_mmul, det_transpose, det_mident in H.
Qed.

Lemma orthogonal_mmul a b : orthogonal a -> orthogonal b -> orthogonal (mmul a b).
Proof.
  intros [Ha1 Ha2] [Hb1 Hb2]. split; rewrite transpose_mmul.
  - rewrite mmul_assoc, <- (mmul_assoc (transpose a)), Ha1, mmul_ident_l. exact Hb1.
  - rewrite mmul_assoc, <- (mmul_assoc b), Hb2, mmul_ident_l. exact Ha2.
Qed.

Lemma orthogonal_transpose a : orthogonal a -> orthogonal (transpose a).
Proof. intros [H1 H2]. split; rewrite transpose_involutive; assumption. Qed.

Lemma orthogonal_negate_last_column v : orthogonal v -> orthogonal (negate_last_column v).
Proof.
  intros [H1 H2]. destruct v. unfold orthogonal, negate_last_column, mmul, transpose, mident in *.
  simpl in *. injection H1 as ? ? ? ? ? ? ? ? ?. injection H2 as ? ? ? ? ? ? ? ? ?.
  split; f_equal; lra.
Qed.

(** *** Positive semidefinite arrays *)

Lemma vdot_self_zero x : vdot x x = 0 -> x = vzero.
Proof.
  destruct x as [a b c]. unfold vdot, vzero. simpl. intros H.
  assert (a = 0) by nra. assert (b = 0) by nra. assert (c = 0) by nra. now subst.
Qed.

Lemma quad_combination a s b x y :
  symmetric a ->
  quad a (vsub (vscale s x) (vscale b y))
  = s * s * quad a x - 2 * s * b * vdot y (mvmul a x) + b * b * quad a y.
Proof.
  unfold symmetric. intros H. destruct a, x, y. unfold transpose in H. simpl in H.
  injection H as ? ? ?. subst. unfold quad, vdot, mvmul, vsub, vscale. simpl. ring.
Qed.

(* a positive semidefinite form that vanishes at x has x in its kernel *)
Lemma psd_kernel a x :
  symmetric a -> positive_semidefinite a -> quad a x = 0 -> mvmul a x = vzero.
Proof.
  intros Hs Hp Hx. apply vdot_self_zero.
  set (y := mvmul a x). set (b := vdot y y).
  pose proof (Hp y) as Hy.
  pose proof (Hp (vsub (vscale (quad a y + 1) x) (vscale b y))) as H.
  rewrite (quad_combination _ _ _ _ _ Hs), Hx in H. fold y in H. fold b in H.
  assert (0 <= b) by (unfold b, vdot; nra).
  nra.
Qed.

Lemma quad_madd p c x : quad (madd p c) x = quad p x + quad c x.
Proof. array_ring. Qed.

Lemma mvmul_msub p c x : mvmul (msub p c) x = vsub (mvmul p x) (mvmul c x).
Proof. array_ring. Qed.

Lemma squares_difference_trace p c :
  symmetric p -> symmetric c ->
  quad (madd p c) (col0 (msub p c)) + quad (madd p c) (col1 (msub p c))
  + quad (madd p c) (col2 (msub p c))
  = trace (mmul (msub p c) (msub (mmul p p) (mmul c c))).
Proof.
  unfold symmetric. intros Hp Hc. destruct p, c. unfold transpose in *. simpl in *.
  injection Hp as ? ? ?. injection Hc as ? ? ?. subst.
  unfold quad, col0, col1, col2, trace, vdot, mvmul, mmul, madd, msub. simpl. ring.
Qed.

Lemma symmetric_columns_zero d :
  symmetric d ->
  mvmul d (col0 d) = vzero -> mvmul d (col1 d) = vzero -> mvmul d (col2 d) = vzero ->
  d = mzero.
Proof.
  unfold symmetric. intros Hd H0 H1 H2. destruct d. unfold transpose in Hd. simpl in Hd.
  injection Hd as ? ? ?. subst.
  unfold mvmul, col0, col1, col2, vzero, mzero in *. simpl in *.
  injection H0 as E0 _ _. injection H1 as _ E1 _. injection H2 as _ _ E2.
  f_equal; nra.
Qed.

Lemma msub_zero_eq p c : msub p c = mzero -> p = c.
Proof.
  destruct p, c. unfold msub, mzero. simpl. intros H.
  injection H as ? ? ? ? ? ? ? ? ?. f_equal; lra.
Qed.

Lemma symmetric_msub p c : symmetric p -> symmetric c -> symmetric (msub p c).
Proof.
  unfold symmetric. intros Hp Hc. destruct p, c. unfold transpose, msub in *. simpl in *.
  injection Hp as ? ? ?. injection Hc as ? ? ?. subst. reflexivity.
Qed.

(** A positive semidefinite symmetric array is determined by its square. *)
Lemma psd_square_root_unique p c :
  symmetric p -> symmetric c ->
  positive_semidefinite p -> positive_semidefinite c ->
  mmul p p = mmul c c -> p = c.
Proof.
  intros Hsp Hsc Hp Hc Hsq. apply msub_zero_eq.
  pose proof (squares_difference_trace p c Hsp Hsc) as Htr.
  rewrite Hsq in Htr.
  replace (trace (mmul (msub p c) (msub (mmul c c) (mmul c c)))) with 0 in Htr
    by (symmetry; array_ring).
  rewrite !quad_madd in Htr.
  set (d := msub p c) in *.
  pose proof (Hp (col0 d)). pose proof (Hp (col1 d)). pose proof (Hp (col2 d)).
  pose proof (Hc (col0 d)). pose proof (Hc (col1 d)). pose proof (Hc (col2 d)).
  assert (Hk : forall v, quad p v = 0 -> quad c v = 0 -> mvmul d v = vzero).
  { intros v Hpv Hcv. unfold d. rewrite mvmul_msub.
    rewrite (psd_kernel p v Hsp Hp Hpv), (psd_kernel c v Hsc Hc Hcv). array_ring. }
  apply symmetric_columns_zero.
  - now apply symmetric_msub.
  - apply Hk; lra.
  - apply Hk; lra.
  - apply Hk; lra.
Qed.

(** *** Gram matrices *)

Lemma symmetric_gram a : symmetric (gram a).
Proof.
  unfold symmetric, gram. induction a as [|p a IH]; simpl; [reflexivity |].
  destruct p. revert IH. destruct (dot_transpose a a).
  cbv [transpose madd outer m00 m01 m02 m10 m11 m12 m20 m21 m22 vx vy vz].
  intros IH. injection IH as ? ? ? ? ? ?. f_equal; nra.
Qed.

Lemma quad_gram_cons p a x : quad (gram (p :: a)) x = vdot p x * vdot p x + quad (gram a) x.
Proof.
  unfold gram. simpl. destruct (dot_transpose a a). array_ring.
Qed.

Lemma psd_gram a : positive_semidefinite (gram a).
Proof.
  intros x. induction a as [|p a IH].
  - unfold gram. simpl. replace (quad mzero x) with 0 by (symmetry; array_ring). lra.
  - rewrite quad_gram_cons. nra.
Qed.

Lemma quad_gram_zero a x p : quad (gram a) x = 0 -> p ∈ a -> vdot p x = 0.
Proof.
  induction a as [|q a IH]; intros Hq Hp.
  - now apply elem_of_nil in Hp.
  - rewrite quad_gram_cons in Hq. pose proof (psd_gram a x).
    apply elem_of_cons in Hp as [-> | Hp]; [nra |]. apply IH; [nra | exact Hp].
Qed.

Lemma outer_rotated r p : outer p (mvmul r p) = mmul (outer p p) (transpose r).
Proof. array_ring. Qed.

Lemma dot_transpose_rotated r a :
  dot_transpose a (map (mvmul r) a) = mmul (gram a) (transpose r).
Proof.
  unfold gram. induction a as [|p a IH]; simpl.
  - now rewrite mmul_mzero_l.
  - now rewrite IH, outer_rotated, mmul_madd_l.
Qed.

(** *** Means under a rigid motion *)

Lemma vsum_transformed r t ps :
  vsum (map (transform_point r t) ps)
  = vadd (mvmul r (vsum ps)) (vscale (INR (length ps)) t).
Proof.
  induction ps as [|p ps IH].
  - simpl. array_ring.
  - change (vsum (map (transform_point r t) (p :: ps)))
      with (vadd (transform_point r t p) (vsum (map (transform_point r t) ps))).
    rewrite IH. change (vsum (p :: ps)) with (vadd p (vsum ps)).
    change (length (p :: ps)) with (S (length ps)). rewrite S_INR.
    generalize (INR (length ps)) (vsum ps). array_ring.
Qed.

Lemma mean_transformed r t ps :
  ps ≠ [] -> mean (map (transform_point r t) ps) = transform_point r t (mean ps).
Proof.
  intros Hne. unfold mean. rewrite vsum_transformed, length_map.
  assert (Hn : INR (length ps) ≠ 0).
  { apply not_0_INR. destruct ps; [congruence | simpl; lia]. }
  generalize dependent (INR (length ps)). generalize (vsum ps). intros s n Hn.
  destruct r, t, s. cbv [transform_point vadd mvmul vscale vx vy vz
                          m00 m01 m02 m10 m11 m12 m20 m21 m22].
  f_equal; field; exact Hn.
Qed.

Lemma centered_transformed r t ps c :
  centered (map (transform_point r t) ps) (transform_point r t c)
  = map (mvmul r) (centered ps c).
Proof.
  unfold centered. rewrite !map_map. apply map_ext. intros p. array_ring.
Qed.

(** *** Rotations that fix two independent vectors *)

Lemma cross_rotated g a b :
  mvmul (transpose g) (cross (mvmul g a) (mvmul g b)) = vscale (det g) (cross a b).
Proof. array_ring. Qed.

Lemma cramer d a b c x :
  vscale (vdot a (cross b c)) (mvmul d x)
  = vadd (vadd (vscale (vdot x (cross b c)) (mvmul d a))
               (vscale (vdot x (cross c a)) (mvmul d b)))
         (vscale (vdot x (cross a b)) (mvmul d c)).
Proof. array_ring. Qed.

Lemma triple_with_cross a b : vdot a (cross b (cross a b)) = vdot (cross a b) (cross a b).
Proof. array_ring. Qed.

Lemma fixes_all_is_identity g : (forall x, mvmul g x = x) -> g = mident.
Proof.
  intros H. pose proof (H (mkV 1 0 0)) as H0. pose proof (H (mkV 0 1 0)) as H1.
  pose proof (H (mkV 0 0 1)) as H2. destruct g.
  cbv [mvmul vx vy vz m00 m01 m02 m10 m11 m12 m20 m21 m22] in H0, H1, H2.
  injection H0 as ? ? ?. injection H1 as ? ? ?. injection H2 as ? ? ?.
  unfold mident. f_equal; lra.
Qed.

Lemma vscale_zero_inv c v : c ≠ 0 -> vscale c v = vzero -> v = vzero.
Proof.
  intros Hc H. destruct v as [x y z]. cbv [vscale vzero vx vy vz] in *.
  injection H as Hx Hy Hz.
  apply Rmult_integral in Hx as [? | ->]; [contradiction |].
  apply Rmult_integral in Hy as [? | ->]; [contradiction |].
  apply Rmult_integral in Hz as [? | ->]; [contradiction |]. reflexivity.
Qed.

Lemma vsub_zero_eq a b : vsub a b = vzero -> a = b.
Proof.
  destruct a, b. cbv [vsub vzero vx vy vz]. intros H. injection H as ? ? ?. f_equal; lra.
Qed.

Lemma vsub_self a : vsub a a = vzero.
Proof. array_ring. Qed.

Lemma kernel_of_basis d a b c x :
  mvmul d a = vzero -> mvmul d b = vzero -> mvmul d c = vzero ->
  vdot a (cross b c) ≠ 0 -> mvmul d x = vzero.
Proof.
  intros Ha Hb Hc Hvol. apply (vscale_zero_inv _ _ Hvol).
  rewrite cramer, Ha, Hb, Hc.
  generalize (vdot x (cross b c)) (vdot x (cross c a)) (vdot x (cross a b)).
  intros. cbv [vscale vadd vzero vx vy vz]. f_equal; ring.
Qed.

Lemma rotation_fixing_two g a b :
  orthogonal g -> det g = 1 ->
  mvmul g a = a -> mvmul g b = b -> cross a b ≠ vzero -> g = mident.
Proof.
  intros [Hg1 Hg2] Hdet Ha Hb Hc.
  assert (Hcross : mvmul g (cross a b) = cross a b).
  { pose proof (cross_rotated g a b) as H. rewrite Ha, Hb, Hdet in H.
    apply (f_equal (mvmul g)) in H. rewrite <- mvmul_mmul, Hg2, mvmul_mident in H.
    replace (vscale 1 (cross a b)) with (cross a b) in H by array_ring.
    now symmetry. }
  assert (Hvol : vdot a (cross b (cross a b)) ≠ 0).
  { rewrite triple_with_cross. intros H. now apply vdot_self_zero in H. }
  apply fixes_all_is_identity. intros x. apply vsub_zero_eq.
  rewrite <- (mvmul_mident x) at 2. rewrite <- mvmul_msub.
  apply (kernel_of_basis _ a b (cross a b)); [| | | exact Hvol];
    rewrite mvmul_msub, mvmul_mident.
  - rewrite Ha. apply vsub_self.
  - rewrite Hb. apply vsub_self.
  - rewrite Hcross. apply vsub_self.
Qed.

(** *** The orthogonal factor of C R^T *)

Lemma symmetric_conjugated V S : symmetric (mmul (mmul V (diag S)) (transpose V)).
Proof. unfold symmetric. array_ring. Qed.

Lemma quad_conjugated V S x :
  quad (mmul (mmul V (diag S)) (transpose V)) x
  = vx S * (vx (mvmul (transpose V) x) * vx (mvmul (transpose V) x))
    + vy S * (vy (mvmul (transpose V) x) * vy (mvmul (transpose V) x))
    + vz S * (vz (mvmul (transpose V) x) * vz (mvmul (transpose V) x)).
Proof. array_ring. Qed.

Lemma psd_conjugated V S :
  0 <= vx S -> 0 <= vy S -> 0 <= vz S ->
  positive_semidefinite (mmul (mmul V (diag S)) (transpose V)).
Proof.
  intros Hx Hy Hz x. rewrite quad_conjugated.
  repeat apply Rplus_le_le_0_compat; apply Rmult_le_pos; try assumption; nra.
Qed.

Lemma symmetric_square a : symmetric a -> mmul a (transpose a) = mmul a a.
Proof. unfold symmetric. now intros ->. Qed.

(* the symmetric factor: V diag(S) V^T is the Gram matrix C *)
Lemma symmetric_factor V S W C R :
  orthogonal V -> orthogonal W -> orthogonal R ->
  0 <= vx S -> 0 <= vy S -> 0 <= vz S ->
  symmetric C -> positive_semidefinite C ->
  mmul C (transpose R) = mmul (mmul V (diag S)) W ->
  mmul (mmul V (diag S)) (transpose V) = C.
Proof.
  intros [HV1 HV2] [HW1 HW2] [HR1 HR2] Hx Hy Hz HsC HpC Heq.
  set (P := mmul (mmul V (diag S)) (transpose V)).
  apply psd_square_root_unique;
    [apply symmetric_conjugated | exact HsC | now apply psd_conjugated | exact HpC |].
  assert (HP : mmul (mmul V (diag S)) W = mmul P (mmul V W)).
  { unfold P. rewrite (mmul_assoc _ (transpose V)), <- (mmul_assoc (transpose V)), HV1.
    now rewrite mmul_ident_l. }
  assert (H1 : mmul (mmul C (transpose R)) (transpose (mmul C (transpose R))) = mmul C C).
  { rewrite transpose_mmul, transpose_involutive, mmul_assoc, <- (mmul_assoc (transpose R)).
    rewrite HR1, mmul_ident_l. now apply symmetric_square. }
  assert (H2 : mmul (mmul P (mmul V W)) (transpose (mmul P (mmul V W))) = mmul P P).
  { rewrite transpose_mmul, mmul_assoc, <- (mmul_assoc (mmul V W)).
    destruct (orthogonal_mmul V W) as [_ HQ]; [now split | now split |].
    rewrite HQ, mmul_ident_l. apply symmetric_square, symmetric_conjugated. }
  rewrite <- H2, <- HP, <- Heq. exact H1.
Qed.

Lemma vdot_transpose g a x : vdot a (mvmul g x) = vdot (mvmul (transpose g) a) x.
Proof. array_ring. Qed.

Lemma vdot_vsub_l a b x : vdot (vsub a b) x = vdot a x - vdot b x.
Proof. array_ring. Qed.

Lemma vdot_vsub_r a x y : vdot a (vsub x y) = vdot a x - vdot a y.
Proof. array_ring. Qed.

(* C G = C for the Gram matrix C of the rows a: G^T fixes every row *)
Lemma gram_stabiliser a g p :
  mmul (gram a) g = gram a -> p ∈ a -> mvmul (transpose g) p = p.
Proof.
  intros Hg Hp. apply vsub_zero_eq, vdot_self_zero.
  set (x := vsub (mvmul (transpose g) p) p).
  assert (Hk : mvmul (gram a) (vsub (mvmul g x) x) = vzero).
  { rewrite <- (mvmul_mident x) at 2. rewrite <- mvmul_msub.
    rewrite <- mvmul_mmul.
    replace (mmul (gram a) (msub g mident)) with (msub (mmul (gram a) g) (gram a))
      by array_ring.
    rewrite Hg. array_ring. }
  assert (Hq : quad (gram a) (vsub (mvmul g x) x) = 0).
  { unfold quad. rewrite Hk. array_ring. }
  pose proof (quad_gram_zero a _ p Hq Hp) as H.
  rewrite vdot_vsub_r, vdot_transpose in H.
  unfold x at 1. rewrite vdot_vsub_l. lra.
Qed.

Lemma unit_square_positive d : d * d = 1 -> 0 < d -> d = 1.
Proof. intros. nra. Qed.

Lemma orthogonal_factor_unique V S W a R :
  orthogonal V -> orthogonal W ->
  0 <= vx S -> 0 <= vy S -> 0 <= vz S ->
  0 < det V * det W ->
  proper_rotation R ->
  (exists p q, p ∈ a ∧ q ∈ a ∧ cross p q ≠ vzero) ->
  mmul (gram a) (transpose R) = mmul (mmul V (diag S)) W ->
  mmul V W = transpose R.
Proof.
  intros HV HW Hx Hy Hz Hdet [HR HdetR] (p & q & Hp & Hq & Hpq) Heq.
  pose proof (symmetric_factor V S W (gram a) R HV HW HR Hx Hy Hz
                (symmetric_gram a) (psd_gram a) Heq) as HP.
  assert (HQ : mmul (gram a) (mmul V W) = mmul (gram a) (transpose R)).
  { rewrite Heq. rewrite <- HP at 1.
    rewrite (mmul_assoc _ (transpose V)), <- (mmul_assoc (transpose V)).
    destruct HV as [-> _]. now rewrite mmul_ident_l. }
  set (G := mmul (mmul V W) R).
  assert (HG : mmul (gram a) G = gram a).
  { unfold G. rewrite <- mmul_assoc, HQ, mmul_assoc.
    destruct HR as [-> _]. apply mmul_ident_r. }
  assert (HoG : orthogonal G) by (apply orthogonal_mmul; [apply orthogonal_mmul |]; assumption).
  assert (HdG : det G = 1).
  { unfold G. rewrite !det_mmul, HdetR, Rmult_1_r.
    apply unit_square_positive; [| exact Hdet].
    pose proof (orthogonal_det V HV). pose proof (orthogonal_det W HW). nra. }
  assert (Hfix : forall v, v ∈ a -> mvmul G v = v).
  { intros v Hv. pose proof (gram_stabiliser a G v HG Hv) as H.
    apply (f_equal (mvmul G)) in H. rewrite <- mvmul_mmul in H.
    destruct HoG as [_ HG2]. now rewrite HG2, mvmul_mident in H. }
  pose proof (rotation_fixing_two G p q HoG HdG (Hfix p Hp) (Hfix q Hq) Hpq) as HGI.
  unfold G in HGI. apply (f_equal (fun m => mmul m (transpose R))) in HGI.
  rewrite mmul_assoc, mmul_ident_l in HGI. destruct HR as [_ HR2].
  now rewrite HR2, mmul_ident_r in HGI.
Qed.

Lemma negate_last_column_diag V S :
  vz S = 0 -> mmul (negate_last_column V) (diag S) = mmul V (diag S).
Proof.
  destruct V, S. cbv [vz negate_last_column diag mmul m00 m01 m02 m10 m11 m12 m20 m21 m22
                         vx vy]. intros ->. f_equal; ring.
Qed.

Lemma smallest_singular_value_zero (s1 s2 s3 d : R) :
  0 <= s3 -> s3 <= s2 -> s2 <= s1 -> d < 0 -> s1 * s2 * s3 = d * (s1 * s2 * s3) -> s3 = 0.
Proof.
  intros H3 H2 H1 Hd Heq.
  assert (Hprod : s1 * s2 * s3 = 0).
  { assert (0 <= s1 * s2 * s3) by (repeat apply Rmult_le_pos; lra). nra. }
  destruct (Req_dec s3 0) as [? | Hne]; [assumption | exfalso].
  assert (0 < s3) by lra. assert (0 < s1 * s2) by (apply Rmult_lt_0_compat; lra).
  assert (0 < s1 * s2 * s3) by (apply Rmult_lt_0_compat; lra). lra.
Qed.

Lemma transform_point_translation R t c :
  vsub (transform_point R t c) (mvmul R c) = t.
Proof. array_ring. Qed.

Lemma covariance_of_rigid_motion R t P :
  P ≠ [] ->
  covariance_matrix P (map (transform_point R t) P)
  = mmul (gram (centered P (mean P))) (transpose R).
Proof.
  intros Hne. unfold covariance_matrix.
  now rewrite (mean_transformed R t P Hne), centered_transformed, dot_transpose_rotated.
Qed.

(** C1, amended: in exact arithmetic, when the SVD routine decomposes the
    cross-covariance matrix exactly, and for points that do not all lie on
    one line, get_superimpose_transformation applied to P and to the image
    of P under a proper rotation R and a translation t returns exactly
    (R, t). *)
Theorem superimposition_recovers_rigid_motion (svd : svd_routine) (P : list vec3)
    (R : mat3) (t : vec3) :
  not_collinear P -> proper_rotation R ->
  svd_exact_at svd (covariance_matrix P (map (transform_point R t) P)) ->
  get_superimpose_transformation svd P (map (transform_point R t) P) = Ok (R, t).
Proof.
  intros (p & q & Hp & Hq & Hpq) HR Hsvd.
  assert (Hne : P ≠ []) by (intros ->; now apply elem_of_nil in Hp).
  unfold get_superimpose_transformation. rewrite length_map, Nat.eqb_refl. simpl negb. cbv iota.
  replace (cross_covariance P (map (transform_point R t) P) (mean P)
             (mean (map (transform_point R t) P)))
    with (Array3x3 (covariance_matrix P (map (transform_point R t) P)))
    by (destruct P; [congruence | reflexivity]).
  rewrite (mean_transformed R t P Hne).
  rewrite (covariance_of_rigid_motion R t P Hne) in *.
  set (a := centered P (mean P)) in *.
  destruct Hsvd as (V & S & W & Hdec & HV & HW & H3 & H2 & H1 & Heq).
  unfold linalg_svd. rewrite Hdec, bind_Ok_l.
  assert (Hspan : exists u v, u ∈ a ∧ v ∈ a ∧ cross u v ≠ vzero).
  { exists (vsub p (mean P)), (vsub q (mean P)). unfold a, centered.
    split; [apply list_elem_of_fmap; eauto |]. split; [apply list_elem_of_fmap; eauto |].
    exact Hpq. }
  pose proof (orthogonal_det V HV) as HdV. pose proof (orthogonal_det W HW) as HdW.
  assert (Hgoal : forall V', mmul V' W = transpose R ->
            Ok (transpose (mmul V' W),
                vsub (transform_point R t (mean P)) (mvmul (transpose (mmul V' W)) (mean P)))
            = Ok (R, t)).
  { intros V' ->. now rewrite transpose_involutive, transform_point_translation. }
  destruct (Rlt_dec (det V * det W) 0) as [Hneg | Hpos].
  - apply Hgoal.
    assert (Hz : vz S = 0).
    { destruct HR as [HoR HdetR].
      pose proof (symmetric_factor V S W (gram a) R HV HW HoR ltac:(lra) ltac:(lra) H3
                    (symmetric_gram a) (psd_gram a) Heq) as HP.
      apply (f_equal det) in HP. apply (f_equal det) in Heq.
      rewrite !det_mmul, det_transpose, det_diag in HP.
      rewrite !det_mmul, det_transpose, det_diag, HdetR in Heq.
      apply (smallest_singular_value_zero (vx S) (vy S) (vz S) (det V * det W));
        try assumption. nra. }
    apply (orthogonal_factor_unique _ S _ a); try assumption; try lra.
    + now apply orthogonal_negate_last_column.
    + rewrite det_negate_last_column. nra.
    + now rewrite negate_last_column_diag.
  - apply Hgoal.
    apply (orthogonal_factor_unique _ S _ a); try assumption; try lra.
    assert (det V * det W ≠ 0) by nra. lra.
Qed.

(** *** A worked instance *)

Lemma proper_rotation_quarter_turn : proper_rotation quarter_turn.
Proof.
  unfold proper_rotation, orthogonal, quarter_turn.
  cbv [mmul transpose det mident m00 m01 m02 m10 m11 m12 m20 m21 m22].
  repeat split; try (f_equal; ring); ring.
Qed.

Lemma proper_rotation_half_turn : proper_rotation half_turn.
Proof.
  unfold proper_rotation, orthogonal, half_turn.
  cbv [mmul transpose det mident m00 m01 m02 m10 m11 m12 m20 m21 m22].
  repeat split; try (f_equal; ring); ring.
Qed.

Lemma proper_rotation_mident : proper_rotation mident.
Proof.
  unfold proper_rotation, orthogonal.
  cbv [mmul transpose det mident m00 m01 m02 m10 m11 m12 m20 m21 m22].
  repeat split; try (f_equal; ring); ring.
Qed.

Lemma mean_square_points : mean square_points = vzero.
Proof.
  unfold mean, square_points. simpl.
  cbv [vscale vadd vzero vx vy vz]. f_equal; field.
Qed.

Lemma not_collinear_square_points : not_collinear square_points.
Proof.
  exists (mkV 1 0 0), (mkV 0 1 0). rewrite mean_square_points.
  split; [left |]. split; [right; right; left |].
  cbv [cross vsub vzero vx vy vz]. intros H. injection H as _ _ H. lra.
Qed.

Lemma svd_exact_quarter_turn (t : vec3) :
  svd_exact_at quarter_turn_svd
    (covariance_matrix square_points (map (transform_point quarter_turn t) square_points)).
Proof.
  exists mident, (mkV 2 2 0), (transpose quarter_turn).
  split; [reflexivity |].
  split; [apply proper_rotation_mident |].
  split; [apply orthogonal_transpose, proper_rotation_quarter_turn |].
  cbn [vx vy vz]. split; [lra |]. split; [lra |]. split; [lra |].
  rewrite covariance_of_rigid_motion by discriminate. rewrite mean_square_points.
  unfold quarter_turn, square_points, gram. simpl.
  cbv [mmul madd outer diag transpose mident mzero vsub vzero
       m00 m01 m02 m10 m11 m12 m20 m21 m22 vx vy vz].
  f_equal; ring.
Qed.

Lemma superimposition_recovers_rigid_motion_witness :
  get_superimpose_transformation quarter_turn_svd square_points
    (map (transform_point quarter_turn (mkV 1 2 3)) square_points)
  = Ok (quarter_turn, mkV 1 2 3).
Proof.
  apply superimposition_recovers_rigid_motion.
  - exact not_collinear_square_points.
  - exact proper_rotation_quarter_turn.
  - apply svd_exact_quarter_turn.
Defined.

(** C1 as stated fails on a single point: the point set [origin] is its own
    image under the identity and under the half turn about the z axis, so
    whatever the SVD routine does, the one answer cannot be within 1 of
    both rotations in the first entry. *)
Lemma rotation_about_single_point_not_recovered :
  proper_rotation mident ∧ proper_rotation half_turn
  ∧ ¬ exists (svd : svd_routine) (M M' : mat3) (t t' : vec3),
        get_superimpose_transformation svd [vzero] (map (transform_point mident vzero) [vzero])
          = Ok (M, t)
        ∧ get_superimpose_transformation svd [vzero]
            (map (transform_point half_turn vzero) [vzero]) = Ok (M', t')
        ∧ Rabs (m00 M - m00 mident) < 1
        ∧ Rabs (m00 M' - m00 half_turn) < 1.
Proof.
  split; [apply proper_rotation_mident |]. split; [apply proper_rotation_half_turn |].
  intros (svd & M & M' & t & t' & H1 & H2 & Hc1 & Hc2).
  assert (E1 : map (transform_point mident vzero) [vzero] = [vzero]).
  { simpl. f_equal. array_ring. }
  assert (E2 : map (transform_point half_turn vzero) [vzero] = [vzero]).
  { simpl. f_equal. unfold half_turn. array_ring. }
  rewrite E1 in H1. rewrite E2, H1 in H2. injection H2 as <- <-.
  simpl in Hc1, Hc2.
  apply Rabs_def2 in Hc1, Hc2. lra.
Qed.

End RigidMotion.

(** ** filter.py *)

Module FilterFacts.
Import Filter.

Section ConsensusFacts.

Context {Pose Mover : Type} `{!Toolkit Pose Mover}.

Lemma keep_consensus_zip (buhs tmp : list Z) :
  length buhs = length tmp -> keep_consensus buhs tmp = Ok (zip_with Z.min buhs tmp).
Proof.
  revert tmp. induction buhs as [|b buhs IH]; intros [|t tmp] Hlen; simpl in *;
    try discriminate; [reflexivity |].
  rewrite IH by lia. reflexivity.
Qed.

Lemma length_zip_min (buhs tmp : list Z) :
  length buhs = length tmp -> length (zip_with Z.min buhs tmp) = length buhs.
Proof. intros H. rewrite length_zip_with. lia. Qed.

Lemma length_pointwise_minimum (buhs : list Z) (others : list (list Z)) :
  Forall (fun o => length o = length buhs) others ->
  length (pointwise_minimum buhs others) = length buhs.
Proof.
  unfold pointwise_minimum. revert buhs.
  induction others as [|o others IH]; intros buhs Hall; simpl; [reflexivity |].
  apply Forall_cons in Hall as [Ho Hall].
  rewrite IH.
  - now apply length_zip_min.
  - eapply Forall_impl; [exact Hall |]. intros x Hx. simpl in Hx.
    rewrite length_zip_min; congruence.
Qed.

Lemma pointwise_minimum_app (buhs : list Z) (xs ys : list (list Z)) :
  pointwise_minimum buhs (xs ++ ys) = pointwise_minimum (pointwise_minimum buhs xs) ys.
Proof. unfold pointwise_minimum. apply foldl_app. Qed.

Lemma perturb_repeatedly_spec (repeats : nat) (br_mover : Mover) (pose : Pose)
    (buhs : list Z) :
  Forall (fun c => length (get_buhs_for_each_res c) = length buhs)
         (copies_of_repeats repeats br_mover pose).2 ->
  perturb_repeatedly repeats br_mover pose buhs
  = Ok ((copies_of_repeats repeats br_mover pose).1,
        pointwise_minimum buhs
          (get_buhs_for_each_res <$> (copies_of_repeats repeats br_mover pose).2)).
Proof.
  revert br_mover buhs. induction repeats as [|repeats IH]; intros br_mover buhs Hall; simpl.
  - reflexivity.
  - simpl in Hall. destruct (apply br_mover pose) as [m1 tmp_pose].
    destruct (copies_of_repeats repeats m1 pose) as [m2 rest] eqn:E. simpl in *.
    apply Forall_cons in Hall as [Htmp Hall].
    rewrite keep_consensus_zip by congruence. rewrite bind_Ok_l.
    rewrite IH; rewrite E; simpl; [reflexivity |].
    eapply Forall_impl; [exact Hall |]. intros c Hc. simpl in Hc.
    rewrite length_zip_min; congruence.
Qed.

Lemma perturb_segments_spec (segments : list nat) (br_mover : Mover) (pose : Pose)
    (buhs : list Z) :
  Forall (fun c => length (get_buhs_for_each_res c) = length buhs)
         (copies_of_segments segments br_mover pose) ->
  perturb_segments segments br_mover pose buhs
  = Ok (pointwise_minimum buhs
          (get_buhs_for_each_res <$> copies_of_segments segments br_mover pose)).
Proof.
  revert br_mover buhs. induction segments as [|i segments IH]; intros br_mover buhs Hall;
    cbn [copies_of_segments perturb_segments] in *.
  - reflexivity.
  - destruct (copies_of_repeats 5 (set_next_segment_id i br_mover) pose) as [m2 copies] eqn:E.
    apply Forall_app in Hall as [Hcopies Hrest].
    rewrite perturb_repeatedly_spec by (rewrite E; exact Hcopies).
    rewrite E, bind_Ok_l. cbn [fst snd].
    assert (Hlen : length (pointwise_minimum buhs (get_buhs_for_each_res <$> copies))
                   = length buhs).
    { apply length_pointwise_minimum, Forall_fmap. exact Hcopies. }
    rewrite IH.
    + now rewrite fmap_app, pointwise_minimum_app.
    + eapply Forall_impl; [exact Hrest |]. intros c Hc. simpl in Hc. congruence.
Qed.

Lemma length_copies_of_repeats (repeats : nat) (br_mover : Mover) (pose : Pose) :
  length (copies_of_repeats repeats br_mover pose).2 = repeats.
Proof.
  revert br_mover. induction repeats as [|repeats IH]; intros br_mover; simpl; [reflexivity |].
  destruct (apply br_mover pose) as [m1 tmp_pose].
  specialize (IH m1). destruct (copies_of_repeats repeats m1 pose). simpl in *. lia.
Qed.

Lemma length_copies_of_segments (segments : list nat) (br_mover : Mover) (pose : Pose) :
  length (copies_of_segments segments br_mover pose) = 5 * length segments.
Proof.
  revert br_mover. induction segments as [|i segments IH]; intros br_mover;
    cbn [copies_of_segments]; [reflexivity |].
  pose proof (length_copies_of_repeats 5 (set_next_segment_id i br_mover) pose) as H5.
  destruct (copies_of_repeats 5 (set_next_segment_id i br_mover) pose) as [m2 copies].
  cbn [snd] in H5. rewrite length_app, IH, H5. simpl. lia.
Qed.

Lemma minimum_le (b : Z) (l : list Z) : (minimum b l <= b)%Z.
Proof.
  unfold minimum. revert b. induction l as [|x l IH]; intros b; simpl; [lia |].
  specialize (IH (Z.min b x)). lia.
Qed.

Lemma minimum_le_each (b : Z) (l : list Z) (x : Z) : x ∈ l -> (minimum b l <= x)%Z.
Proof.
  unfold minimum. revert b. induction l as [|y l IH]; intros b Hx; simpl.
  - now apply elem_of_nil in Hx.
  - apply elem_of_cons in Hx as [-> | Hx]; [| now apply IH].
    pose proof (minimum_le (Z.min b y) l) as H. unfold minimum in H. lia.
Qed.

Lemma minimum_attained (b : Z) (l : list Z) : minimum b l = b ∨ minimum b l ∈ l.
Proof.
  unfold minimum. revert b. induction l as [|y l IH]; intros b; simpl; [now left |].
  destruct (IH (Z.min b y)) as [H | H].
  - rewrite H. destruct (Z.min_spec b y) as [[_ ->] | [_ ->]]; [now left | right; left].
  - right. now right.
Qed.

Lemma lookup_pointwise_minimum (copies : list Pose) (buhs : list Z) (k : nat) (b : Z) :
  Forall (fun c => length (get_buhs_for_each_res c) = length buhs) copies ->
  buhs !! k = Some b ->
  pointwise_minimum buhs (get_buhs_for_each_res <$> copies) !! k
    = Some (minimum b (counts_at k copies))
  ∧ length (counts_at k copies) = length copies.
Proof.
  unfold pointwise_minimum, minimum, counts_at. revert buhs b.
  induction copies as [|c copies IH]; intros buhs b Hall Hk; simpl.
  - auto.
  - apply Forall_cons in Hall as [Hc Hall].
    destruct (lookup_lt_is_Some_2 (get_buhs_for_each_res c) k) as [x Hx].
    { apply lookup_lt_Some in Hk. lia. }
    rewrite Hx. simpl.
    destruct (IH (zip_with Z.min buhs (get_buhs_for_each_res c)) (Z.min b x)) as [H1 H2].
    + eapply Forall_impl; [exact Hall |]. intros c' Hc'. simpl in Hc'.
      rewrite length_zip_min; congruence.
    + rewrite lookup_zip_with, Hk, Hx. reflexivity.
    + split; [exact H1 |]. f_equal. exact H2.
Qed.

(** C8: when every perturbed copy has as many counts as the original pose,
    get_backrub_ensemble_consensus_buhs_for_each_res returns a list as long
    as the original counts whose entry at each position k is the minimum of
    the original count at k and the counts at k of all perturbed copies,
    five per segment; that entry is at most the original count, at most the
    count of every copy, and is one of these counts. *)
Theorem consensus_is_minimum_over_copies (br_mover : Mover) (pose : Pose) :
  (forall c, c ∈ perturbed_copies br_mover pose ->
     length (get_buhs_for_each_res c) = length (get_buhs_for_each_res pose)) ->
  exists consensus,
    get_backrub_ensemble_consensus_buhs_for_each_res br_mover pose = Ok consensus
    ∧ length consensus = length (get_buhs_for_each_res pose)
    ∧ length (perturbed_copies br_mover pose)
      = 5 * num_segments (prepared_mover br_mover pose)
    ∧ forall k b, get_buhs_for_each_res pose !! k = Some b ->
        let counts := counts_at k (perturbed_copies br_mover pose) in
        consensus !! k = Some (minimum b counts)
        ∧ length counts = length (perturbed_copies br_mover pose)
        ∧ (minimum b counts <= b)%Z
        ∧ (forall x, x ∈ counts -> (minimum b counts <= x)%Z)
        ∧ (minimum b counts = b ∨ minimum b counts ∈ counts).
Proof.
  intros Hlen. apply Forall_forall in Hlen.
  unfold get_backrub_ensemble_consensus_buhs_for_each_res.
  unfold perturbed_copies, prepared_mover in *.
  destruct (apply (set_max_atoms 4 br_mover) pose) as [m1 warm_up]. simpl in *.
  rewrite perturb_segments_spec by exact Hlen.
  eexists. split; [reflexivity |].
  split; [apply length_pointwise_minimum, Forall_fmap; exact Hlen |].
  split; [now rewrite length_copies_of_segments, length_seq |].
  intros k b Hk.
  destruct (lookup_pointwise_minimum _ _ k b Hlen Hk) as [Hlook Hcount].
  split; [exact Hlook |]. split; [exact Hcount |].
  split; [apply minimum_le |]. split; [intros x; apply minimum_le_each |].
  apply minimum_attained.
Qed.

(** generate_filter_scores: the three over-saturated acceptor entries *)

Lemma oshaf_scores_of_table (br_mover : Mover) (pose : Pose)
    (designable_residues repackable_residues bb_remodeled_residues : list nat)
    (filter_scores : gmap string R) :
  generate_filter_scores br_mover pose designable_residues repackable_residues
                         bb_remodeled_residues = Ok filter_scores ->
  filter_scores !! "num_over_saturated_hbond_acceptors_for_designable_residues"%string
    = Some (get_num_over_saturated_hbond_acceptors pose designable_residues)
  ∧ filter_scores !! "num_over_saturated_hbond_acceptors_for_movable_residues"%string
    = Some (get_num_over_saturated_hbond_acceptors pose designable_residues)
  ∧ filter_scores !! "num_over_saturated_hbond_acceptors_for_all_residues"%string
    = Some (get_num_over_saturated_hbond_acceptors pose designable_residues).
Proof.
  unfold generate_filter_scores. intros H.
  repeat (apply bind_ok in H as (? & _ & H)).
  repeat match type of H with
         | (let '(_, _) := ?p in _) = _ => destruct p
         | _ ≫= _ = _ => apply bind_ok in H as (? & _ & H)
         end.
  apply Ok_inj in H. subst filter_scores.
  repeat split; repeat (rewrite lookup_insert_ne by discriminate); apply lookup_insert_eq.
Qed.

End ConsensusFacts.

Example toy_consensus :
  get_backrub_ensemble_consensus_buhs_for_each_res 0 4 = Ok [0; 2; 0; 1; 5]%Z.
Proof. reflexivity. Qed.

Lemma consensus_is_minimum_over_copies_witness :
  exists consensus,
    get_backrub_ensemble_consensus_buhs_for_each_res 0 4 = Ok consensus
    ∧ length consensus = 5
    ∧ length (perturbed_copies 0 4) = 5
    ∧ consensus !! 0 = Some (minimum 4 (counts_at 0 (perturbed_copies 0 4))).
Proof.
  destruct (consensus_is_minimum_over_copies 0 4) as (consensus & H & Hlen & Hcopies & Hmin).
  - intros c _. reflexivity.
  - exists consensus. destruct (Hmin 0 4%Z) as [Hk _]; [reflexivity |]. auto.
Defined.

Lemma toy_scores_exist :
  exists filter_scores, generate_filter_scores 0 4 [1] [2] [] = Ok filter_scores.
Proof.
  unfold generate_filter_scores.
  cbn [mbind result_bind residues_average_energy residues_max_energy get_num_buried_unsatisfied_hbonds toy_toolkit get_hydrophobic_sasa_sc get_sasa get_holes_score_for_residues get_helix_complementarity_score get_fragment_quality_scores].
  change (get_backrub_ensemble_consensus_buhs_for_each_res 0 4) with (Ok [0; 2; 0; 1; 5]%Z).
  cbn [mbind result_bind sum_shifted py_index lookup list_lookup Nat.add app length INR]. unfold py_div.
  destruct (Req_dec_T (1 + 1) 0) as [H | _]; [exfalso; lra |].
  destruct (Req_dec_T 1 0) as [H | _]; [exfalso; lra |].
  rewrite !bind_Ok_l. eexists. reflexivity.
Qed.

(** C6, on the code: with designable residues [1] and repackable residues
    [2], and a filter that counts the selected residues, the entry stored
    for the movable residues is the score of the designable residues (1),
    not the score of the movable residues (2); the same holds for the entry
    stored for all residues. *)
Theorem oshaf_scores_all_use_designable_residues :
  exists filter_scores,
    generate_filter_scores 0 4 [1] [2] [] = Ok filter_scores
    ∧ filter_scores !! "num_over_saturated_hbond_acceptors_for_movable_residues"%string
      = Some (get_num_over_saturated_hbond_acceptors 4 [1])
    ∧ filter_scores !! "num_over_saturated_hbond_acceptors_for_all_residues"%string
      = Some (get_num_over_saturated_hbond_acceptors 4 [1])
    ∧ get_num_over_saturated_hbond_acceptors 4 [1] = 1%R
    ∧ get_num_over_saturated_hbond_acceptors 4 ([1] ++ [2]) = 2%R
    ∧ get_num_over_saturated_hbond_acceptors 4 (seq 1 4) = 4%R.
Proof.
  destruct toy_scores_exist as [filter_scores H]. exists filter_scores.
  destruct (oshaf_scores_of_table _ _ _ _ _ _ H) as (_ & Hmov & Hall).
  repeat split; try assumption; unfold get_num_over_saturated_hbond_acceptors; simpl; lra.
Qed.

End FilterFacts.

(** * Further properties of the RMSD script *)

Section Superposition.

Local Open Scope R_scope.

Ltac by_components :=
  intros;
  repeat match goal with
         | m : mat3 |- _ => destruct m
         | v : vec3 |- _ => destruct v
         end;
  cbv [mmul madd msub transpose mvmul vadd vsub vscale vdot cross
       det diag outer mident mzero vzero negate_last_column
       transform_point m00 m01 m02 m10 m11 m12 m20 m21 m22 vx vy vz];
  first [ring | f_equal; ring].

(** ** get_superimpose_transformation: what every answer satisfies *)

Lemma superimpose_transformation_ok (svd : svd_routine) (P1 P2 : list vec3)
    (M : mat3) (t : vec3) :
  get_superimpose_transformation svd P1 P2 = Ok (M, t) ->
  length P1 = length P2 ∧ P1 ≠ []
  ∧ exists V S W,
      svd (covariance_matrix P1 P2) = Some (V, S, W)
      ∧ M = transpose (mmul (if Rlt_dec (det V * det W) 0
                             then negate_last_column V else V) W)
      ∧ t = vsub (mean P2) (mvmul M (mean P1)).
Proof.
  unfold get_superimpose_transformation. intros H.
  destruct (length P1 =? length P2)%nat eqn:E; [| discriminate].
  apply Nat.eqb_eq in E. simpl in H.
  apply bind_ok in H as ([[V S] W] & Hsvd & H).
  destruct P1 as [|p P1]; [discriminate |].
  split; [exact E |]. split; [discriminate |].
  unfold linalg_svd, cross_covariance in Hsvd.
  fold (covariance_matrix (p :: P1) P2) in Hsvd.
  destruct (svd (covariance_matrix (p :: P1) P2)) as [usv|] eqn:Es; [| discriminate].
  injection Hsvd as ->. exists V, S, W. split; [reflexivity |].
  apply Ok_inj in H. injection H as <- <-. auto.
Qed.

(** X1: whenever numpy's SVD hands back orthogonal factors, the matrix
    get_superimpose_transformation returns is a proper rotation: it is
    orthogonal and, thanks to the sign correction of the last column, its
    determinant is +1. *)
Theorem superimpose_transformation_is_proper_rotation (svd : svd_routine)
    (P1 P2 : list vec3) (M : mat3) (t : vec3) :
  (forall h V S W, svd h = Some (V, S, W) -> orthogonal V ∧ orthogonal W) ->
  get_superimpose_transformation svd P1 P2 = Ok (M, t) ->
  proper_rotation M.
Proof.
  intros Hsvd H.
  apply superimpose_transformation_ok in H as (_ & _ & V & S & W & Hs & -> & _).
  destruct (Hsvd _ _ _ _ Hs) as [HV HW].
  pose proof (orthogonal_det V HV) as HdV. pose proof (orthogonal_det W HW) as HdW.
  destruct (Rlt_dec (det V * det W) 0) as [Hneg | Hpos]; split.
  - apply orthogonal_transpose, orthogonal_mmul;
      [now apply orthogonal_negate_last_column | exact HW].
  - rewrite det_transpose, det_mmul, det_negate_last_column. nra.
  - apply orthogonal_transpose, orthogonal_mmul; assumption.
  - rewrite det_transpose, det_mmul. nra.
Qed.

Lemma single_point_transformation_exists :
  exists M t, get_superimpose_transformation quarter_turn_svd [vzero] [vzero] = Ok (M, t).
Proof.
  unfold get_superimpose_transformation. simpl.
  match goal with |- context [Rlt_dec ?a ?b] => destruct (Rlt_dec a b) end; eauto.
Qed.

Lemma quarter_turn_svd_orthogonal (h V : mat3) (S : vec3) (W : mat3) :
  quarter_turn_svd h = Some (V, S, W) -> orthogonal V ∧ orthogonal W.
Proof.
  unfold quarter_turn_svd. intros H. injection H as <- _ <-.
  split; [apply proper_rotation_mident |].
  apply orthogonal_transpose, proper_rotation_quarter_turn.
Qed.

Lemma superimpose_transformation_is_proper_rotation_witness :
  exists M t,
    get_superimpose_transformation quarter_turn_svd [vzero] [vzero] = Ok (M, t)
    ∧ proper_rotation M.
Proof.
  destruct single_point_transformation_exists as (M & t & H).
  exists M, t. split; [exact H |].
  apply (superimpose_transformation_is_proper_rotation quarter_turn_svd [vzero] [vzero] M t);
    [apply quarter_turn_svd_orthogonal | exact H].
Defined.

(** X2: the transformation get_superimpose_transformation returns carries
    the centroid of the first point list onto the centroid of the second. *)
Theorem superimpose_transformation_maps_centroid (svd : svd_routine)
    (P1 P2 : list vec3) (M : mat3) (t : vec3) :
  get_superimpose_transformation svd P1 P2 = Ok (M, t) ->
  transform_point M t (mean P1) = mean P2.
Proof.
  intros H. apply superimpose_transformation_ok in H as (_ & _ & V & S & W & _ & _ & ->).
  generalize (mean P1) (mean P2). by_components.
Qed.

Lemma superimpose_transformation_maps_centroid_witness :
  exists M t,
    get_superimpose_transformation quarter_turn_svd [vzero] [vzero] = Ok (M, t)
    ∧ transform_point M t (mean [vzero]) = mean [vzero].
Proof.
  destruct single_point_transformation_exists as (M & t & H).
  exists M, t. split; [exact H |].
  exact (superimpose_transformation_maps_centroid quarter_turn_svd [vzero] [vzero] M t H).
Defined.

End Superposition.

(** ** get_backbone_points *)

Lemma backbone_points_invalid (p : pose) (residues : list nat) :
  ¬ Forall (fun i => 1 <= i <= pose_size p) residues ->
  get_backbone_points p residues = Raise ToolkitError.
Proof.
  induction residues as [|res residues IH]; intros H.
  - exfalso. apply H. constructor.
  - simpl. destruct (pose_residue p res) as [r|e] eqn:Er.
    + assert (Hres : 1 <= res <= pose_size p).
      { unfold pose_residue in Er. destruct res as [|k]; [discriminate |].
        destruct (p !! k) eqn:Ek; [| discriminate].
        apply lookup_lt_Some in Ek. unfold pose_size. lia. }
      rewrite bind_Ok_l, IH; [reflexivity |].
      intros Hall. apply H. now constructor.
    + unfold pose_residue in Er. destruct res as [|k]; [now inversion Er |].
      destruct (p !! k); [discriminate | now inversion Er].
Qed.

Lemma backbone_points_lookup (p : pose) (residues : list nat) (points : list vec3)
    (k res : nat) :
  get_backbone_points p residues = Ok points ->
  residues !! k = Some res ->
  exists r, pose_residue p res = Ok r
            ∧ points !! (3 * k) = Some (atom_N r)
            ∧ points !! (3 * k + 1) = Some (atom_CA r)
            ∧ points !! (3 * k + 2) = Some (atom_C r).
Proof.
  revert points k. induction residues as [|res0 residues IH]; intros points k H Hk.
  - discriminate.
  - simpl in H. apply bind_ok in H as (r0 & Hr0 & H).
    apply bind_ok in H as (pts & Hpts & H). apply Ok_inj in H. subst points.
    destruct k as [|k].
    + injection Hk as <-. exists r0. auto.
    + simpl in Hk. destruct (IH pts k Hpts Hk) as (r & Hr & HN & HCA & HC).
      exists r. split; [exact Hr |].
      replace (3 * S k) with (S (S (S (3 * k)))) by lia.
      replace (S (S (S (3 * k))) + 1) with (S (S (S (3 * k + 1)))) by lia.
      replace (S (S (S (3 * k))) + 2) with (S (S (S (3 * k + 2)))) by lia.
      auto.
Qed.

(** X3: get_backbone_points returns exactly when every residue is a position
    of the pose (it raises the toolkit's error otherwise); what it returns
    holds, for the k-th residue of the list, its N, CA and C atoms at the
    places 3k, 3k+1 and 3k+2, and nothing else. *)
Theorem get_backbone_points_layout (p : pose) (residues : list nat) :
  (Forall (fun i => 1 <= i <= pose_size p) residues ->
     exists points,
       get_backbone_points p residues = Ok points
       ∧ length points = 3 * length residues
       ∧ forall k res, residues !! k = Some res ->
           exists r, pose_residue p res = Ok r
                     ∧ points !! (3 * k) = Some (atom_N r)
                     ∧ points !! (3 * k + 1) = Some (atom_CA r)
                     ∧ points !! (3 * k + 2) = Some (atom_C r))
  ∧ (¬ Forall (fun i => 1 <= i <= pose_size p) residues ->
       get_backbone_points p residues = Raise ToolkitError).
Proof.
  split; [| apply backbone_points_invalid].
  intros Hvalid. destruct (backbone_points_valid p residues Hvalid) as [points Hp].
  exists points. split; [exact Hp |].
  split; [exact (backbone_points_length _ _ _ Hp) |].
  intros k res. now apply backbone_points_lookup.
Qed.

Lemma get_backbone_points_layout_witness :
  (exists points, get_backbone_points example_pose [2; 1] = Ok points
                  ∧ length points = 6)
  ∧ get_backbone_points example_pose [1; 3] = Raise ToolkitError.
Proof.
  destruct (get_backbone_points_layout example_pose [2; 1]) as [Hok _].
  destruct (get_backbone_points_layout example_pose [1; 3]) as [_ Hbad].
  split.
  - destruct Hok as (points & H & Hlen & _).
    + repeat constructor; simpl; lia.
    + exists points. auto.
  - apply Hbad. intros H. inversion H as [|? ? _ H3]. inversion H3 as [|? ? Hr _].
    simpl in Hr. lia.
Defined.

(** ** Rigid motions of a pose *)

Lemma pose_residue_transformed (M : mat3) (t : vec3) (p : pose) (i : nat) :
  pose_residue (apply_transform_Rx_plus_v M t p) i
  = match pose_residue p i with
    | Ok r => Ok (transform_residue M t r)
    | Raise e => Raise e
    end.
Proof.
  unfold pose_residue, apply_transform_Rx_plus_v. destruct i as [|k]; [reflexivity |].
  rewrite list_lookup_fmap. destruct (p !! k); reflexivity.
Qed.

Lemma backbone_points_transformed (M : mat3) (t : vec3) (p : pose) (residues : list nat) :
  get_backbone_points (apply_transform_Rx_plus_v M t p) residues
  = match get_backbone_points p residues with
    | Ok points => Ok (map (transform_point M t) points)
    | Raise e => Raise e
    end.
Proof.
  induction residues as [|res residues IH]; [reflexivity |].
  simpl. rewrite pose_residue_transformed, IH.
  destruct (pose_residue p res) as [r|e]; [| reflexivity].
  rewrite !bind_Ok_l. destruct (get_backbone_points p residues); reflexivity.
Qed.

(** X4: reading the backbone points of a pose after
    apply_transform_Rx_plus_v(M, t) gives the transformed backbone points of
    the pose before it, and fails exactly when reading them before fails. *)
Theorem get_backbone_points_of_transformed_pose (M : mat3) (t : vec3) (p : pose)
    (residues : list nat) :
  get_backbone_points (apply_transform_Rx_plus_v M t p) residues
  = match get_backbone_points p residues with
    | Ok points => Ok (map (transform_point M t) points)
    | Raise e => Raise e
    end.
Proof. apply backbone_points_transformed. Qed.

(** ** calc_backbone_RMSD *)

Section Rmsd.

Local Open Scope R_scope.

Lemma sum_squares_nonneg (diff : list vec3) : 0 <= sum_squares diff.
Proof.
  induction diff as [|d diff IH]; simpl; [lra |].
  destruct d as [x y z]. unfold vdot. simpl. nra.
Qed.

Lemma sum_squares_zero (diff : list vec3) :
  sum_squares diff = 0 <-> Forall (fun d => d = vzero) diff.
Proof.
  induction diff as [|d diff IH]; simpl.
  - split; [constructor | reflexivity].
  - pose proof (sum_squares_nonneg diff) as Hd.
    assert (Hself : 0 <= vdot d d) by (destruct d; unfold vdot; simpl; nra).
    split.
    + intros H. constructor; [apply vdot_self_zero; lra | apply IH; lra].
    + intros H. apply Forall_cons in H as [-> H]. apply IH in H. rewrite H.
      unfold vdot, vzero. simpl. ring.
Qed.

Lemma point_differences_zero (points1 points2 diff : list vec3) :
  length points1 = length points2 ->
  point_differences points1 points2 = Ok diff ->
  (Forall (fun d => d = vzero) diff <-> points1 = points2).
Proof.
  revert points2 diff.
  induction points1 as [|p points1 IH]; intros [|q points2] diff Hlen H;
    simpl in *; try discriminate.
  - apply Ok_inj in H. subst. split; [reflexivity | constructor].
  - apply bind_ok in H as (d & Hd & H). apply Ok_inj in H. subst diff.
    specialize (IH points2 d ltac:(lia) Hd). split.
    + intros Hall. apply Forall_cons in Hall as [Hpq Hall].
      apply vsub_zero_eq in Hpq. apply IH in Hall. congruence.
    + intros Heq. injection Heq as -> ->. constructor; [apply vsub_self | now apply IH].
Qed.

Lemma RMSD_ok (points1 points2 : list vec3) (x : R) :
  RMSD points1 points2 = Ok x ->
  exists diff, point_differences points1 points2 = Ok diff ∧ diff ≠ []
               ∧ x = sqrt (sum_squares diff / INR (length diff)).
Proof.
  unfold RMSD. intros H. apply bind_ok in H as (diff & Hd & H).
  exists diff. split; [exact Hd |]. destruct diff; [discriminate |].
  split; [discriminate |]. now apply Ok_inj in H.
Qed.

Lemma calc_backbone_RMSD_ok (p1 : pose) (r1 : list nat) (p2 : pose) (r2 : list nat) (x : R) :
  calc_backbone_RMSD p1 r1 p2 r2 = Ok x ->
  length r1 = length r2
  ∧ exists points1 points2,
      get_backbone_points p1 r1 = Ok points1
      ∧ get_backbone_points p2 r2 = Ok points2
      ∧ RMSD points1 points2 = Ok x.
Proof.
  unfold calc_backbone_RMSD. intros H.
  destruct (length r1 =? length r2)%nat eqn:E; [| discriminate].
  apply Nat.eqb_eq in E. split; [exact E |].
  simpl in H. apply bind_ok in H as (pts1 & H1 & H).
  apply bind_ok in H as (pts2 & H2 & H). eauto.
Qed.

(** X6: a backbone RMSD that calc_backbone_RMSD returns is never negative,
    and it is 0 exactly when the two lists of backbone points are equal. *)
Theorem calc_backbone_RMSD_definite (p1 : pose) (r1 : list nat) (p2 : pose)
    (r2 : list nat) (x : R) :
  calc_backbone_RMSD p1 r1 p2 r2 = Ok x ->
  0 <= x ∧ (x = 0 <-> get_backbone_points p1 r1 = get_backbone_points p2 r2).
Proof.
  intros H. apply calc_backbone_RMSD_ok in H as (Hlen & pts1 & pts2 & H1 & H2 & H).
  apply RMSD_ok in H as (diff & Hd & Hne & ->).
  split; [apply sqrt_pos |].
  assert (Hn : 0 < INR (length diff)).
  { apply lt_0_INR. destruct diff; [congruence | simpl; lia]. }
  pose proof (sum_squares_nonneg diff) as Hs.
  assert (Hpts : length pts1 = length pts2).
  { apply backbone_points_length in H1, H2. lia. }
  rewrite H1, H2. split.
  - intros Hx. f_equal. apply (point_differences_zero pts1 pts2 diff Hpts Hd).
    apply sum_squares_zero. apply sqrt_eq_0 in Hx.
    + apply (Rmult_eq_compat_r (INR (length diff))) in Hx.
      unfold Rdiv in Hx. rewrite Rmult_assoc, Rinv_l, Rmult_1_r, Rmult_0_l in Hx; lra.
    + apply Rmult_le_pos; [exact Hs |]. apply Rlt_le, Rinv_0_lt_compat, Hn.
  - intros Heq. apply Ok_inj in Heq.
    apply (point_differences_zero pts1 pts2 diff Hpts Hd) in Heq.
    apply sum_squares_zero in Heq. rewrite Heq.
    unfold Rdiv. rewrite Rmult_0_l. apply sqrt_0.
Qed.

Lemma calc_backbone_RMSD_definite_witness :
  calc_backbone_RMSD example_pose [1; 2]%nat example_pose_shifted [1; 2]%nat = Ok 1
  ∧ 0 <= 1
  ∧ (1 = 0 <-> get_backbone_points example_pose [1; 2]%nat
               = get_backbone_points example_pose_shifted [1; 2]%nat).
Proof.
  split; [exact shifted_pose_rmsd |].
  exact (calc_backbone_RMSD_definite example_pose [1; 2]%nat example_pose_shifted
           [1; 2]%nat 1 shifted_pose_rmsd).
Defined.

Lemma vdot_rotated (M : mat3) (a : vec3) :
  mmul (transpose M) M = mident -> vdot (mvmul M a) (mvmul M a) = vdot a a.
Proof.
  intros H. rewrite vdot_transpose, <- mvmul_mmul, H, mvmul_mident. reflexivity.
Qed.

Lemma transform_point_difference (M : mat3) (t a b : vec3) :
  vsub (transform_point M t a) (transform_point M t b) = mvmul M (vsub a b).
Proof.
  destruct M, t, a, b.
  cbv [vsub transform_point vadd mvmul vx vy vz m00 m01 m02 m10 m11 m12 m20 m21 m22].
  f_equal; ring.
Qed.

Lemma point_differences_transformed (M : mat3) (t : vec3) (points1 points2 : list vec3) :
  point_differences (map (transform_point M t) points1) (map (transform_point M t) points2)
  = match point_differences points1 points2 with
    | Ok diff => Ok (map (mvmul M) diff)
    | Raise e => Raise e
    end.
Proof.
  revert points2. induction points1 as [|p points1 IH]; intros [|q points2]; simpl;
    try reflexivity.
  rewrite IH. destruct (point_differences points1 points2); [| reflexivity].
  rewrite !bind_Ok_l. simpl. now rewrite transform_point_difference.
Qed.

Lemma sum_squares_rotated (M : mat3) (diff : list vec3) :
  mmul (transpose M) M = mident -> sum_squares (map (mvmul M) diff) = sum_squares diff.
Proof.
  intros H. induction diff as [|d diff IH]; simpl; [reflexivity |].
  now rewrite IH, vdot_rotated.
Qed.

Lemma RMSD_transformed (M : mat3) (t : vec3) (points1 points2 : list vec3) :
  mmul (transpose M) M = mident ->
  RMSD (map (transform_point M t) points1) (map (transform_point M t) points2)
  = RMSD points1 points2.
Proof.
  intros H. unfold RMSD. rewrite point_differences_transformed.
  destruct (point_differences points1 points2) as [diff|e]; [| reflexivity].
  rewrite !bind_Ok_l. destruct diff as [|d diff]; [reflexivity |].
  change (map (mvmul M) (d :: diff)) with (mvmul M d :: map (mvmul M) diff).
  rewrite <- (sum_squares_rotated M (d :: diff) H).
  simpl. now rewrite length_map.
Qed.

(** X5: the backbone RMSD does not change when both poses undergo the same
    rigid motion apply_transform_Rx_plus_v(M, t) with M orthogonal; the
    error outcomes do not change either. *)
Theorem calc_backbone_RMSD_rigid_invariant (M : mat3) (t : vec3)
    (p1 : pose) (r1 : list nat) (p2 : pose) (r2 : list nat) :
  orthogonal M ->
  calc_backbone_RMSD (apply_transform_Rx_plus_v M t p1) r1
                     (apply_transform_Rx_plus_v M t p2) r2
  = calc_backbone_RMSD p1 r1 p2 r2.
Proof.
  intros [HM _]. unfold calc_backbone_RMSD. rewrite !backbone_points_transformed.
  destruct (py_assert (length r1 =? length r2)%nat) as [[]|e]; [| reflexivity].
  rewrite !bind_Ok_l.
  destruct (get_backbone_points p1 r1) as [pts1|e1]; [| reflexivity].
  rewrite !bind_Ok_l.
  destruct (get_backbone_points p2 r2) as [pts2|e2]; [| reflexivity].
  rewrite !bind_Ok_l. now apply RMSD_transformed.
Qed.

Lemma calc_backbone_RMSD_rigid_invariant_witness :
  calc_backbone_RMSD (apply_transform_Rx_plus_v quarter_turn (mkV 1 2 3) example_pose)
                     [1; 2]%nat
                     (apply_transform_Rx_plus_v quarter_turn (mkV 1 2 3) example_pose_shifted)
                     [1; 2]%nat
  = Ok 1.
Proof.
  rewrite (calc_backbone_RMSD_rigid_invariant quarter_turn (mkV 1 2 3)
             example_pose [1; 2]%nat example_pose_shifted [1; 2]%nat).
  - exact shifted_pose_rmsd.
  - apply proper_rotation_quarter_turn.
Defined.

End Rmsd.

(** ** The assertions on the residue lists *)

Lemma point_differences_error (points1 points2 : list vec3) (e : error) :
  point_differences points1 points2 = Raise e -> e = IndexError.
Proof.
  revert points2. induction points1 as [|p points1 IH]; intros [|q points2]; simpl;
    try discriminate; try congruence.
  destruct (point_differences points1 points2) eqn:E; simpl; [discriminate |].
  intros H. injection H as <-. now apply (IH points2).
Qed.

Lemma calc_backbone_RMSD_assertion (p1 : pose) (r1 : list nat) (p2 : pose) (r2 : list nat) :
  calc_backbone_RMSD p1 r1 p2 r2 = Raise AssertionError <-> length r1 ≠ length r2.
Proof.
  unfold calc_backbone_RMSD. destruct (length r1 =? length r2) eqn:E.
  - apply Nat.eqb_eq in E. split; [| contradiction]. simpl. intros H. exfalso.
    destruct (get_backbone_points p1 r1) as [pts1|e1] eqn:E1; simpl in H.
    + destruct (get_backbone_points p2 r2) as [pts2|e2] eqn:E2; simpl in H.
      * unfold RMSD in H.
        destruct (point_differences pts1 pts2) as [diff|e] eqn:Ed; simpl in H.
        -- destruct diff; discriminate.
        -- apply point_differences_error in Ed. congruence.
      * apply backbone_points_error in E2. congruence.
    + apply backbone_points_error in E1. congruence.
  - apply Nat.eqb_neq in E. split; [auto | reflexivity].
Qed.

Lemma superimposed_pose_assertion (svd : svd_routine) (source : pose) (rs : list nat)
    (target : pose) (rt : list nat) :
  (superimposed_pose svd source rs target rt = Raise AssertionError
   <-> length rs ≠ length rt)
  ∧ superimposed_pose svd source rs target rt ≠ Raise PointCountMismatch.
Proof.
  unfold superimposed_pose. destruct (length rs =? length rt) eqn:E.
  - apply Nat.eqb_eq in E. simpl.
    assert (Hboth : forall e, e = AssertionError ∨ e = PointCountMismatch ->
              get_backbone_points source rs
              ≫= (λ points_source,
                    get_backbone_points target rt
                    ≫= λ points_target,
                         get_superimpose_transformation svd points_source points_target
                         ≫= λ '(M, t), Ok (apply_transform_Rx_plus_v M t source))
              ≠ Raise e).
    { intros e He H.
      destruct (get_backbone_points source rs) as [pts1|e1] eqn:E1; simpl in H.
      - destruct (get_backbone_points target rt) as [pts2|e2] eqn:E2; simpl in H.
        + destruct (get_superimpose_transformation svd pts1 pts2) as [[M t]|e3] eqn:E3;
            simpl in H; [discriminate |].
          injection H as ->.
          assert (Hlen : length pts1 = length pts2).
          { apply backbone_points_length in E1, E2. lia. }
          destruct He as [-> | ->].
          * unfold get_superimpose_transformation in E3.
            apply Nat.eqb_eq in Hlen. rewrite Hlen in E3. simpl in E3.
            destruct (linalg_svd svd _) as [[[V S] W]|e4] eqn:E4; simpl in E3;
              [discriminate |].
            unfold linalg_svd in E4. destruct (cross_covariance _ _ _ _); [congruence |].
            destruct (svd m); congruence.
          * now apply (superimpose_transformation_same_length svd pts1 pts2 Hlen).
        + apply backbone_points_error in E2. destruct He; congruence.
      - apply backbone_points_error in E1. destruct He; congruence. }
    split; [split; [| contradiction] | apply Hboth; now right].
    intros H. exfalso. apply (Hboth AssertionError); [now left | exact H].
  - apply Nat.eqb_neq in E. simpl. split; [split; auto | discriminate].
Qed.

(** X7: calc_backbone_RMSD and superimpose_poses_by_residues raise
    AssertionError exactly when their two residue lists differ in length,
    whatever the poses; and the length check of
    get_superimpose_transformation can never fire inside
    superimpose_poses_by_residues. *)
Theorem residue_list_assertions (svd : svd_routine) (p1 : pose) (r1 : list nat)
    (p2 : pose) (r2 : list nat) :
  (calc_backbone_RMSD p1 r1 p2 r2 = Raise AssertionError <-> length r1 ≠ length r2)
  ∧ (superimposed_pose svd p1 r1 p2 r2 = Raise AssertionError <-> length r1 ≠ length r2)
  ∧ superimposed_pose svd p1 r1 p2 r2 ≠ Raise PointCountMismatch.
Proof.
  split; [apply calc_backbone_RMSD_assertion | apply superimposed_pose_assertion].
Qed.

(** ** get_target_to_source_residue_map: the order of the greedy choice *)


Lemma distances_from_elem (ps pt : pose) (i : nat) (js : list nat)
    (row : list pair_distance) (d : pair_distance) :
  distances_from ps pt i js = Ok row -> d ∈ row ->
  d.1.1 = i ∧ d.1.2 ∈ js ∧ ca_distance ps pt d.1.1 d.1.2 = Ok d.2.
Proof.
  revert row. induction js as [|j js IH]; intros row H Hd; simpl in H.
  - apply Ok_inj in H. subst. now apply elem_of_nil in Hd.
  - apply bind_ok in H as (rs & Hrs & H). apply bind_ok in H as (rt & Hrt & H).
    apply bind_ok in H as (rest & Hrest & H). apply Ok_inj in H. subst row.
    apply elem_of_cons in Hd as [-> | Hd].
    + simpl. split; [reflexivity |]. split; [left |].
      unfold ca_distance. now rewrite Hrs, Hrt.
    + destruct (IH rest Hrest Hd) as (H1 & H2 & H3). split; [exact H1 |].
      split; [now right | exact H3].
Qed.

Lemma all_distances_elem (ps pt : pose) (residues : list nat)
    (ds : list pair_distance) (d : pair_distance) :
  all_distances ps pt residues = Ok ds -> d ∈ ds ->
  d.1.1 ∈ residues ∧ ca_distance ps pt d.1.1 d.1.2 = Ok d.2.
Proof.
  revert ds. induction residues as [|i residues IH]; intros ds H Hd; simpl in H.
  - apply Ok_inj in H. subst. now apply elem_of_nil in Hd.
  - apply bind_ok in H as (row & Hrow & H). apply bind_ok in H as (rest & Hrest & H).
    apply Ok_inj in H. subst ds. apply elem_of_app in Hd as [Hd | Hd].
    + destruct (distances_from_elem _ _ _ _ _ _ Hrow Hd) as (-> & _ & H3).
      split; [left | exact H3].
    + destruct (IH rest Hrest Hd) as [H1 H2]. split; [now right | exact H2].
Qed.

Lemma all_distances_NoDup (ps pt : pose) (residues : list nat) (ds : list pair_distance) :
  NoDup residues -> all_distances ps pt residues = Ok ds ->
  Forall (fun i => 1 <= i <= pose_size ps) residues -> NoDup ds.*1.
Proof.
  intros Hnd. revert ds. induction Hnd as [|i residues Hi Hnd IH]; intros ds H Hvalid;
    simpl in H.
  - apply Ok_inj in H. subst. constructor.
  - apply Forall_cons in Hvalid as [Hvi Hvalid].
    apply bind_ok in H as (row & Hrow & H). apply bind_ok in H as (rest & Hrest & H).
    apply Ok_inj in H. subst ds.
    destruct (distances_from_total ps pt i (seq 1 (pose_size pt)) Hvi (Forall_seq_range _))
      as (row' & Hrow' & Hfst).
    rewrite Hrow in Hrow'. apply Ok_inj in Hrow'. subst row'.
    rewrite fmap_app. apply NoDup_app. split; [| split].
    + rewrite Hfst. apply (NoDup_fmap_2 (pair i)), NoDup_seq.
    + intros [i' j] Hin Hin'. rewrite Hfst in Hin.
      apply list_elem_of_fmap in Hin as (j' & Heq & _). injection Heq as -> ->.
      apply list_elem_of_fmap in Hin' as (d & Heq & Hd).
      destruct (all_distances_elem _ _ _ _ _ Hrest Hd) as [Hd1 _].
      rewrite <- Heq in Hd1. simpl in Hd1. contradiction.
    + now apply IH.
Qed.

Lemma insert_by_distance_sorted (d : pair_distance) (l : list pair_distance) :
  StronglySorted not_farther l -> StronglySorted not_farther (insert_by_distance d l).
Proof.
  induction 1 as [|e l Hl IH He]; simpl.
  - constructor; constructor.
  - destruct (Rlt_dec e.2 d.2) as [Hlt | Hge].
    + constructor; [exact IH |].
      apply Forall_forall. intros x Hx.
      rewrite insert_by_distance_perm in Hx.
      apply elem_of_cons in Hx as [-> | Hx].
      * unfold not_farther. lra.
      * rewrite Forall_forall in He. now apply He.
    + constructor; [now constructor |].
      constructor; [unfold not_farther; lra |].
      eapply Forall_impl; [exact He |]. unfold not_farther. intros x Hx. simpl in Hx. lra.
Qed.

Lemma sorted_by_distance_sorted (l : list pair_distance) :
  StronglySorted not_farther (sorted_by_distance l).
Proof.
  induction l as [|d l IH]; simpl; [constructor |].
  now apply insert_by_distance_sorted.
Qed.

Lemma accept_prefix (res_map : residue_map) (d : pair_distance) :
  accept res_map d = res_map ∨ accept res_map d = res_map ++ [entry_of d].
Proof. unfold accept. destruct (_ && _); auto. Qed.

Lemma match_greedily_prefix (n : nat) (ds : list pair_distance) (res_map : residue_map) :
  res_map `prefix_of` match_greedily n ds res_map.
Proof.
  revert res_map. induction ds as [|d ds IH]; intros res_map; [reflexivity |].
  rewrite match_greedily_cons.
  assert (Hacc : res_map `prefix_of` accept res_map d).
  { destruct (accept_prefix res_map d) as [-> | ->]; [reflexivity | now apply prefix_app_r]. }
  destruct (_ =? _); [exact Hacc |]. etransitivity; [exact Hacc | apply IH].
Qed.

(* the entries added to the map come from the list, each from an element
   that was free when its turn came *)
Lemma match_greedily_entries (n : nat) (ds : list pair_distance) (res_map : residue_map)
    (x : nat * nat) :
  x ∈ match_greedily n ds res_map -> x ∈ res_map ∨ exists d, d ∈ ds ∧ x = entry_of d.
Proof.
  revert res_map. induction ds as [|d ds IH]; intros res_map Hx; [now left |].
  rewrite match_greedily_cons in Hx.
  assert (Hacc : x ∈ accept res_map d -> x ∈ res_map ∨ exists d', d' ∈ d :: ds ∧ x = entry_of d').
  { destruct (accept_prefix res_map d) as [-> | ->]; [now left |].
    intros H. apply elem_of_app in H as [H | H]; [now left | right].
    apply list_elem_of_singleton in H. exists d. split; [left | exact H]. }
  destruct (_ =? _); [now apply Hacc |].
  apply IH in Hx as [Hx | (d' & Hd' & ->)]; [now apply Hacc |].
  right. exists d'. split; [now right | reflexivity].
Qed.

Lemma well_formed_length_keys (n m : nat) (res_map : residue_map) :
  well_formed n m res_map -> length res_map <= m.
Proof.
  intros [Hk _ Hkr _].
  assert (keys res_map ⊆+ seq 1 m) as Hsub.
  { apply NoDup_submseteq; [assumption |]. intros k Hin. apply elem_of_seq.
    specialize (Hkr k Hin). lia. }
  apply submseteq_length in Hsub. unfold keys in Hsub.
  now rewrite length_fmap, length_seq in Hsub.
Qed.

Lemma residue_map_exists (pose_source pose_target : pose) :
  exists ds,
    all_distances pose_source pose_target (seq 1 (pose_size pose_source)) = Ok ds
    ∧ get_target_to_source_residue_map pose_source pose_target
      = Ok (match_greedily (pose_size pose_source) (sorted_by_distance ds) [])
    ∧ well_formed (pose_size pose_source) (pose_size pose_target)
        (match_greedily (pose_size pose_source) (sorted_by_distance ds) [])
    ∧ (forall i j, 1 <= i <= pose_size pose_source -> 1 <= j <= pose_size pose_target ->
         exists x, (i, j, x) ∈ sorted_by_distance ds).
Proof.
  set (n := pose_size pose_source). set (m := pose_size pose_target).
  destruct (all_distances_total pose_source pose_target (seq 1 n) (Forall_seq_range n))
    as (ds & Hds & Hmem).
  exists ds. split; [exact Hds |].
  unfold get_target_to_source_residue_map. fold n. rewrite Hds, bind_Ok_l.
  split; [reflexivity |].
  assert (Hperm : sorted_by_distance ds ≡ₚ ds) by apply sorted_by_distance_perm.
  split.
  - apply (match_greedily_well_formed n m).
    + apply Forall_forall. intros [[i j] x] Hd. rewrite Hperm in Hd.
      assert ((i, j) ∈ ds.*1) as Hij by (apply list_elem_of_fmap; exists (i, j, x); auto).
      apply Hmem in Hij as [Hi Hj]. apply elem_of_seq in Hi.
      unfold in_range. simpl. fold m in Hj. lia.
    + constructor; simpl; try apply NoDup_nil_2; intros k Hk; now apply elem_of_nil in Hk.
  - intros i j Hi Hj.
    assert ((i, j) ∈ ds.*1) as Hij.
    { apply Hmem. split; [apply elem_of_seq; lia | fold m; lia]. }
    apply list_elem_of_fmap in Hij as ([[i' j'] x] & Heq & Hin). simpl in Heq.
    injection Heq as <- <-. exists x. now rewrite Hperm.
Qed.

(** X8: whatever the sizes of the two poses, get_target_to_source_residue_map
    returns a map with min(source size, target size) entries: when the
    source is the longer pose (against the docstring), only as many source
    residues are matched as the target has. *)
Theorem residue_map_size (pose_source pose_target : pose) :
  exists res_map,
    get_target_to_source_residue_map pose_source pose_target = Ok res_map
    ∧ length res_map = pose_size pose_source `min` pose_size pose_target
    ∧ NoDup (keys res_map) ∧ NoDup (values res_map).
Proof.
  destruct (residue_map_exists pose_source pose_target) as (ds & _ & Hmap & Hwf & Hall).
  set (n := pose_size pose_source) in *. set (m := pose_size pose_target) in *.
  set (r := match_greedily n (sorted_by_distance ds) []) in *.
  exists r. split; [exact Hmap |].
  split; [| split; [apply (wf_keys _ _ _ Hwf) | apply (wf_values _ _ _ Hwf)]].
  pose proof (well_formed_length n m r Hwf) as Hn.
  pose proof (well_formed_length_keys n m r Hwf) as Hm.
  destruct (match_greedily_blocked n (sorted_by_distance ds) []) as [_ [Hlen | Hblocked]].
  { fold r in Hlen. lia. }
  fold r in Hblocked.
  destruct (decide (length r = n `min` m)) as [? | Hne]; [assumption | exfalso].
  destruct (missing_position n (values r)) as (i & Hi & Hni).
  { unfold values. rewrite length_fmap. lia. }
  destruct (missing_position m (keys r)) as (j & Hj & Hnj).
  { unfold keys. rewrite length_fmap. lia. }
  destruct (Hall i j Hi Hj) as [x Hx].
  destruct (Hblocked _ Hx) as [H | H]; simpl in H; contradiction.
Qed.

Lemma pose_residue_ok (p : pose) (i : nat) (r : residue) :
  pose_residue p i = Ok r -> 1 <= i <= pose_size p ∧ p !! (i - 1) = Some r.
Proof.
  unfold pose_residue. destruct i as [|k]; [discriminate |].
  destruct (p !! k) as [r'|] eqn:E; [| discriminate].
  intros H. apply Ok_inj in H. subst r'. apply lookup_lt_Some in E as Hlt.
  unfold pose_size. replace (S k - 1) with k by lia. split; [lia | exact E].
Qed.

Lemma ca_distance_ok (ps pt : pose) (i j : nat) (x : R) :
  ca_distance ps pt i j = Ok x ->
  (1 <= i <= pose_size ps) ∧ (1 <= j <= pose_size pt).
Proof.
  unfold ca_distance. intros H.
  apply bind_ok in H as (rs & Hrs & H). apply bind_ok in H as (rt & Hrt & _).
  apply pose_residue_ok in Hrs as [? _]. apply pose_residue_ok in Hrt as [? _]. auto.
Qed.

Lemma sorted_distances_elem (ps pt : pose) (ds : list pair_distance) (d : pair_distance) :
  all_distances ps pt (seq 1 (pose_size ps)) = Ok ds ->
  d ∈ sorted_by_distance ds -> ca_distance ps pt d.1.1 d.1.2 = Ok d.2.
Proof.
  intros Hds Hd. rewrite sorted_by_distance_perm in Hd.
  now destruct (all_distances_elem _ _ _ _ _ Hds Hd).
Qed.

(** X10: when both poses have a residue, the first entry of the map
    get_target_to_source_residue_map returns is a closest pair: no source
    residue and target residue have CA atoms nearer to each other. *)
Theorem first_match_is_closest_pair (pose_source pose_target : pose) :
  1 <= pose_size pose_source -> 1 <= pose_size pose_target ->
  exists res_map k v x,
    get_target_to_source_residue_map pose_source pose_target = Ok res_map
    ∧ res_map !! 0 = Some (k, v)
    ∧ ca_distance pose_source pose_target v k = Ok x
    ∧ forall i j y, ca_distance pose_source pose_target i j = Ok y -> (x <= y)%R.
Proof.
  intros Hn Hm.
  destruct (residue_map_exists pose_source pose_target) as (ds & Hds & Hmap & _ & Hall).
  pose proof (sorted_by_distance_sorted ds) as Hsorted.
  destruct (sorted_by_distance ds) as [|d rest] eqn:Es.
  { destruct (Hall 1 1) as [x Hx]; [lia | lia |]. now apply elem_of_nil in Hx. }
  exists (match_greedily (pose_size pose_source) (d :: rest) []), d.1.2, d.1.1, d.2.
  split; [exact Hmap |].
  assert (Hd : ca_distance pose_source pose_target d.1.1 d.1.2 = Ok d.2).
  { apply (sorted_distances_elem _ _ ds); [exact Hds |]. rewrite Es. left. }
  split; [| split; [exact Hd |]].
  - rewrite match_greedily_cons.
    assert (Hacc : accept [] d = [entry_of d]) by reflexivity.
    rewrite Hacc.
    destruct (_ =? _); [reflexivity |].
    destruct (match_greedily_prefix (pose_size pose_source) rest [entry_of d]) as [k ->].
    reflexivity.
  - intros i j y Hy. destruct (ca_distance_ok _ _ _ _ _ Hy) as [Hi Hj].
    destruct (Hall i j Hi Hj) as [y' Hin].
    assert (Hy' : ca_distance pose_source pose_target i j = Ok y').
    { apply (sorted_distances_elem _ _ ds (i, j, y') Hds). now rewrite Es. }
    rewrite Hy in Hy'. apply Ok_inj in Hy'. subst y'.
    apply elem_of_cons in Hin as [Heq | Hin]; [rewrite <- Heq; simpl; lra |].
    apply StronglySorted_inv in Hsorted as [_ Hhead].
    rewrite Forall_forall in Hhead. exact (Hhead _ Hin).
Qed.

Lemma first_match_is_closest_pair_witness :
  exists res_map k v x,
    get_target_to_source_residue_map short_pose long_pose = Ok res_map
    ∧ res_map !! 0 = Some (k, v)
    ∧ ca_distance short_pose long_pose v k = Ok x
    ∧ forall i j y, ca_distance short_pose long_pose i j = Ok y -> (x <= y)%R.
Proof.
  apply (first_match_is_closest_pair short_pose long_pose); simpl; lia.
Defined.

(** ** Matching a pose against a copy of itself *)

Section IdentityMatch.

Local Open Scope R_scope.

Lemma distance_nonneg (a b : vec3) : 0 <= distance a b.
Proof. unfold distance. apply sqrt_pos. Qed.

Lemma distance_zero (a b : vec3) : distance a b = 0 <-> a = b.
Proof.
  unfold distance. split.
  - intros H. apply sqrt_eq_0 in H.
    + apply vsub_zero_eq. now apply vdot_self_zero.
    + destruct (vsub a b) as [x y z]. unfold vdot. simpl. nra.
  - intros ->. rewrite vsub_self. unfold vdot, vzero. simpl.
    replace (0 * 0 + 0 * 0 + 0 * 0) with 0 by ring. apply sqrt_0.
Qed.

Lemma sorted_zero_prefix (l : list pair_distance) :
  StronglySorted not_farther l -> Forall (fun d => 0 <= d.2) l ->
  exists zs rest, l = zs ++ rest
                  ∧ Forall (fun d => d.2 = 0) zs ∧ Forall (fun d => 0 < d.2) rest.
Proof.
  induction 1 as [|d l Hl IH Hd]; intros Hpos.
  - exists [], []. repeat split; constructor.
  - apply Forall_cons in Hpos as [Hd0 Hpos].
    destruct (Req_dec d.2 0) as [Hz | Hnz].
    + destruct (IH Hpos) as (zs & rest & -> & Hzs & Hrest).
      exists (d :: zs), rest. repeat split; [now constructor | exact Hrest].
    + exists [], (d :: l). repeat split; [constructor |].
      constructor; [lra |]. eapply Forall_impl; [exact Hd |].
      unfold not_farther. intros x Hx. simpl in Hx. lra.
Qed.

End IdentityMatch.

Lemma accept_free (res_map : residue_map) (d : pair_distance) :
  d.1.2 ∉ keys res_map -> d.1.1 ∉ values res_map ->
  accept res_map d = res_map ++ [entry_of d].
Proof.
  intros Hk Hv. unfold accept.
  apply py_in_false in Hk, Hv. now rewrite Hk, Hv.
Qed.

(* a run of pairs (i, i) over distinct free residues is taken whole, and the
   loop stops right after it when it fills the map *)
Lemma match_greedily_diagonal (n : nat) (zs rest : list pair_distance)
    (res_map : residue_map) :
  (forall d, d ∈ zs -> d.1.1 = d.1.2) ->
  NoDup (zs.*1.*1) ->
  (forall d, d ∈ zs -> (d.1.1 ∉ keys res_map) ∧ (d.1.1 ∉ values res_map)) ->
  length res_map + length zs = n -> zs ≠ [] ->
  match_greedily n (zs ++ rest) res_map = res_map ++ (entry_of <$> zs).
Proof.
  revert res_map. induction zs as [|d zs IH]; intros res_map Hdiag Hnd Hfree Hlen Hne;
    [congruence |].
  simpl app. rewrite match_greedily_cons.
  destruct (Hfree d) as [Hk Hv]; [left |].
  rewrite accept_free; [| now rewrite <- (Hdiag d) by left | exact Hv].
  unfold keys at 1. rewrite length_fmap, length_app. simpl in *.
  destruct (length res_map + 1 =? n) eqn:E.
  - apply Nat.eqb_eq in E. destruct zs; [reflexivity | simpl in Hlen; lia].
  - apply Nat.eqb_neq in E. apply NoDup_cons in Hnd as [Hd Hnd].
    rewrite IH; [now rewrite <- app_assoc | | exact Hnd | | | ].
    + intros d' Hd'. apply Hdiag. now right.
    + intros d' Hd'. destruct (Hfree d') as [Hk' Hv']; [now right |].
      assert (Hneq : d'.1.1 ≠ d.1.1).
      { intros Heq. apply Hd. rewrite <- Heq.
        apply list_elem_of_fmap. exists d'.1. split; [reflexivity |].
        apply list_elem_of_fmap. eauto. }
      unfold keys, values in *. rewrite !fmap_app, !elem_of_app. simpl.
      rewrite !list_elem_of_singleton.
      rewrite <- (Hdiag d) by left. tauto.
    + rewrite length_app. simpl. lia.
    + destruct zs; [simpl in Hlen; lia | discriminate].
Qed.

Lemma residue_map_of_copy (pose_source pose_target : pose) :
  (forall k r, pose_source !! k = Some r ->
     exists r', pose_target !! k = Some r' ∧ atom_CA r' = atom_CA r) ->
  NoDup (atom_CA <$> pose_target) ->
  exists res_map,
    get_target_to_source_residue_map pose_source pose_target = Ok res_map
    ∧ forall k v, (k, v) ∈ res_map <-> k = v ∧ 1 <= k <= pose_size pose_source.
Proof.
  intros Hcopy Hdistinct.
  destruct (residue_map_exists pose_source pose_target) as (ds & Hds & Hmap & _ & Hall).
  set (n := pose_size pose_source) in *.
  assert (Hzero : forall i j x, ca_distance pose_source pose_target i j = Ok x ->
            (0 <= x)%R ∧ (x = 0%R <-> i = j)).
  { intros i j x H. unfold ca_distance in H.
    apply bind_ok in H as (rs & Hrs & H). apply bind_ok in H as (rt & Hrt & H).
    apply Ok_inj in H. subst x. split; [apply distance_nonneg |].
    rewrite distance_zero.
    apply pose_residue_ok in Hrs as [Hi Hrs]. apply pose_residue_ok in Hrt as [Hj Hrt].
    destruct (Hcopy _ _ Hrs) as (r' & Hr' & Hca). rewrite <- Hca.
    split.
    - intros Heq.
      assert (i - 1 = j - 1)%nat; [| lia].
      apply (NoDup_lookup _ _ _ (atom_CA r') Hdistinct);
        rewrite list_lookup_fmap; [now rewrite Hr' | rewrite Hrt; simpl; congruence].
    - intros <-. rewrite Hr' in Hrt. congruence. }
  destruct (decide (n = 0)%nat) as [Hn0 | Hn0].
  { exists []. unfold get_target_to_source_residue_map. fold n. rewrite Hn0. simpl.
    split; [reflexivity |]. intros k v. rewrite elem_of_nil. lia. }
  pose proof (sorted_by_distance_sorted ds) as Hsorted.
  assert (Helem : forall d, d ∈ sorted_by_distance ds ->
            ca_distance pose_source pose_target d.1.1 d.1.2 = Ok d.2).
  { intros d. now apply sorted_distances_elem. }
  destruct (sorted_zero_prefix _ Hsorted) as (zs & rest & Hsplit & Hzs & Hrest).
  { apply Forall_forall. intros d Hd. now destruct (Hzero _ _ _ (Helem d Hd)). }
  rewrite Forall_forall in Hzs, Hrest.
  assert (Hin_zs : forall d, d ∈ zs -> d ∈ sorted_by_distance ds).
  { intros d Hd. rewrite Hsplit, elem_of_app. now left. }
  assert (Hdiag : forall d, d ∈ zs -> d.1.1 = d.1.2).
  { intros d Hd. apply (Hzero _ _ _ (Helem d (Hin_zs d Hd))). now apply Hzs. }
  assert (Hnd1 : NoDup (zs.*1)).
  { assert (NoDup ((sorted_by_distance ds).*1)) as H.
    { rewrite sorted_by_distance_perm.
      apply (all_distances_NoDup pose_source pose_target (seq 1 n));
        [apply NoDup_seq | exact Hds | apply Forall_seq_range]. }
    rewrite Hsplit, fmap_app in H. now apply NoDup_app in H as [H _]. }
  assert (Hnd : NoDup (zs.*1.*1)).
  { apply NoDup_fmap_2_strong; [| exact Hnd1].
    intros [i j] [i' j'] Hx Hy Heq. simpl in Heq. subst i'.
    apply list_elem_of_fmap in Hx as (d & Hd1 & Hd).
    apply list_elem_of_fmap in Hy as (d' & Hd1' & Hd').
    pose proof (Hdiag d Hd) as E. pose proof (Hdiag d' Hd') as E'.
    rewrite <- Hd1 in E. rewrite <- Hd1' in E'. simpl in E, E'. congruence. }
  assert (Hmem : forall i, i ∈ zs.*1.*1 <-> 1 <= i <= n).
  { intros i. split.
    - intros Hi. apply list_elem_of_fmap in Hi as (x & -> & Hx).
      apply list_elem_of_fmap in Hx as (d & -> & Hd).
      now destruct (ca_distance_ok _ _ _ _ _ (Helem d (Hin_zs d Hd))).
    - intros Hi.
      assert (Hi' : 1 <= i <= pose_size pose_target).
      { destruct (lookup_lt_is_Some_2 pose_source (i - 1)) as [r Hr];
          [unfold n, pose_size in Hi; lia |].
        destruct (Hcopy _ _ Hr) as (r' & Hr' & _). apply lookup_lt_Some in Hr'.
        unfold pose_size. lia. }
      destruct (Hall i i Hi Hi') as [x Hx].
      pose proof (Helem _ Hx) as Hdist. simpl in Hdist.
      destruct (Hzero _ _ _ Hdist) as [_ Hx0].
      rewrite Hsplit in Hx. apply elem_of_app in Hx as [Hx | Hx].
      + apply list_elem_of_fmap. exists (i, i). split; [reflexivity |].
        apply list_elem_of_fmap. exists (i, i, x). auto.
      + apply Hrest in Hx. simpl in Hx. assert (x = 0%R) by now apply Hx0. lra. }
  assert (Hlen : length zs = n).
  { assert (zs.*1.*1 ≡ₚ seq 1 n) as Hperm.
    { apply NoDup_Permutation; [exact Hnd | apply NoDup_seq |].
      intros i. rewrite Hmem, elem_of_seq. lia. }
    apply Permutation_length in Hperm. now rewrite !length_fmap, length_seq in Hperm. }
  exists (entry_of <$> zs). split.
  - rewrite Hmap, Hsplit. f_equal.
    rewrite (match_greedily_diagonal n zs rest []); [reflexivity | exact Hdiag | exact Hnd | | | ].
    + intros d _. split; apply not_elem_of_nil.
    + simpl. exact Hlen.
    + intros ->. simpl in Hlen. lia.
  - intros k v. rewrite list_elem_of_fmap. split.
    + intros (d & Heq & Hd). unfold entry_of in Heq. injection Heq as -> ->.
      split; [symmetry; now apply Hdiag |].
      rewrite <- (Hdiag d Hd). apply Hmem.
      apply list_elem_of_fmap. exists d.1. split; [reflexivity |].
      apply list_elem_of_fmap. eauto.
    + intros [<- Hk]. apply Hmem in Hk.
      apply list_elem_of_fmap in Hk as (x & -> & Hx).
      apply list_elem_of_fmap in Hx as (d & -> & Hd).
      exists d. split; [| exact Hd]. unfold entry_of. now rewrite <- (Hdiag d Hd).
Qed.

(** X9: when the target pose begins with residues whose CA atoms sit where
    the source's CA atoms are, and the CA atoms of the target are at
    pairwise different places, get_target_to_source_residue_map maps every
    position of the source pose to itself and nothing else. *)
Theorem copy_is_matched_to_itself (pose_source pose_target : pose) :
  (forall k r, pose_source !! k = Some r ->
     exists r', pose_target !! k = Some r' ∧ atom_CA r' = atom_CA r) ->
  NoDup (atom_CA <$> pose_target) ->
  exists res_map,
    get_target_to_source_residue_map pose_source pose_target = Ok res_map
    ∧ forall k v, (k, v) ∈ res_map <-> k = v ∧ 1 <= k <= pose_size pose_source.
Proof. apply residue_map_of_copy. Qed.

Lemma example_pose_distinct_CA : NoDup (atom_CA <$> example_pose).
Proof.
  simpl. apply NoDup_cons. split; [| apply NoDup_singleton].
  intros H. apply list_elem_of_singleton in H. injection H. intros. lra.
Qed.

Lemma copy_is_matched_to_itself_witness :
  exists res_map,
    get_target_to_source_residue_map example_pose example_pose = Ok res_map
    ∧ forall k v, (k, v) ∈ res_map <-> k = v ∧ 1 <= k <= 2.
Proof.
  apply (copy_is_matched_to_itself example_pose example_pose).
  - intros k r Hr. exists r. auto.
  - exact example_pose_distinct_CA.
Defined.

(** ** Superimposing a pose onto a moved copy of itself *)


Section MovedCopy.

Local Open Scope R_scope.

(* the rotation the function builds from an exact SVD of C R^T *)
Lemma rotation_factor_recovered (V : mat3) (S : vec3) (W : mat3) (a : list vec3) (R : mat3) :
  orthogonal V -> orthogonal W ->
  0 <= vz S -> vz S <= vy S -> vy S <= vx S ->
  proper_rotation R ->
  (exists u v, u ∈ a ∧ v ∈ a ∧ cross u v ≠ vzero) ->
  mmul (gram a) (transpose R) = mmul (mmul V (diag S)) W ->
  mmul (if Rlt_dec (det V * det W) 0 then negate_last_column V else V) W = transpose R.
Proof.
  intros HV HW H3 H2 H1 HR Hspan Heq.
  pose proof (orthogonal_det V HV) as HdV. pose proof (orthogonal_det W HW) as HdW.
  destruct (Rlt_dec (det V * det W) 0) as [Hneg | Hpos].
  - assert (Hz : vz S = 0).
    { destruct HR as [HoR HdetR].
      pose proof (symmetric_factor V S W (gram a) R HV HW HoR ltac:(lra) ltac:(lra) H3
                    (symmetric_gram a) (psd_gram a) Heq) as HP.
      apply (f_equal det) in HP. apply (f_equal det) in Heq.
      rewrite !det_mmul, det_transpose, det_diag in HP.
      rewrite !det_mmul, det_transpose, det_diag, HdetR in Heq.
      apply (smallest_singular_value_zero (vx S) (vy S) (vz S) (det V * det W));
        try assumption. nra. }
    apply (orthogonal_factor_unique _ S _ a); try assumption; try lra.
    + now apply orthogonal_negate_last_column.
    + rewrite det_negate_last_column. nra.
    + now rewrite negate_last_column_diag.
  - apply (orthogonal_factor_unique _ S _ a); try assumption; try lra.
    assert (det V * det W ≠ 0) by nra. lra.
Qed.

Lemma transformation_of_moved_points (svd : svd_routine) (P : list vec3) (R : mat3) (t : vec3) :
  not_collinear P -> proper_rotation R ->
  svd_exact_at svd (covariance_matrix P (map (transform_point R t) P)) ->
  get_superimpose_transformation svd P (map (transform_point R t) P) = Ok (R, t).
Proof.
  intros (p & q & Hp & Hq & Hpq) HR (V & S & W & Hdec & HV & HW & H3 & H2 & H1 & Heq).
  assert (Hne : P ≠ []) by (intros ->; now apply elem_of_nil in Hp).
  rewrite (covariance_of_rigid_motion R t P Hne) in Heq.
  assert (HM : mmul (if Rlt_dec (det V * det W) 0 then negate_last_column V else V) W
               = transpose R).
  { apply (rotation_factor_recovered V S W (centered P (mean P)) R); try assumption.
    exists (vsub p (mean P)), (vsub q (mean P)). unfold centered.
    split; [apply list_elem_of_fmap; eauto |]. split; [apply list_elem_of_fmap; eauto |].
    exact Hpq. }
  unfold get_superimpose_transformation. rewrite length_map, Nat.eqb_refl. simpl negb. cbv iota.
  replace (cross_covariance P (map (transform_point R t) P) (mean P)
             (mean (map (transform_point R t) P)))
    with (Array3x3 (covariance_matrix P (map (transform_point R t) P)))
    by (destruct P; [congruence | reflexivity]).
  unfold linalg_svd. rewrite Hdec, bind_Ok_l, HM, transpose_involutive.
  now rewrite (mean_transformed R t P Hne), transform_point_translation.
Qed.

Lemma transform_point_identity (p : vec3) : transform_point mident vzero p = p.
Proof.
  destruct p.
  cbv [transform_point vadd mvmul mident vzero vx vy vz m00 m01 m02 m10 m11 m12 m20 m21 m22].
  f_equal; ring.
Qed.

Lemma apply_identity_transform (p : pose) : apply_transform_Rx_plus_v mident vzero p = p.
Proof.
  unfold apply_transform_Rx_plus_v. rewrite <- (map_id p) at 2. apply map_ext.
  intros [n ca c others]. unfold transform_residue. simpl.
  rewrite !transform_point_identity. f_equal.
  rewrite <- (map_id others) at 2. apply map_ext, transform_point_identity.
Qed.

Lemma superimposed_onto_moved_copy (svd : svd_routine) (source : pose)
    (residues : list nat) (points : list vec3) (R : mat3) (t : vec3) :
  get_backbone_points source residues = Ok points ->
  not_collinear points -> proper_rotation R ->
  svd_exact_at svd (covariance_matrix points (map (transform_point R t) points)) ->
  superimposed_pose svd source residues (apply_transform_Rx_plus_v R t source) residues
  = Ok (apply_transform_Rx_plus_v R t source).
Proof.
  intros Hpts Hnc HR Hsvd. unfold superimposed_pose.
  rewrite Nat.eqb_refl. simpl py_assert. rewrite bind_Ok_l.
  rewrite backbone_points_transformed, Hpts, !bind_Ok_l.
  now rewrite (transformation_of_moved_points svd points R t Hnc HR Hsvd).
Qed.

(** X11: superimposing a pose onto a copy of itself that was moved by a
    proper rotation R and a translation t puts every atom of the pose where
    the copy has it, provided the backbone points used are not on one line
    and the SVD of their cross-covariance is exact. *)
Theorem superimpose_onto_moved_copy_coincides (svd : svd_routine) (source : pose)
    (residues : list nat) (points : list vec3) (R : mat3) (t : vec3) :
  get_backbone_points source residues = Ok points ->
  not_collinear points -> proper_rotation R ->
  svd_exact_at svd (covariance_matrix points (map (transform_point R t) points)) ->
  superimposed_pose svd source residues (apply_transform_Rx_plus_v R t source) residues
  = Ok (apply_transform_Rx_plus_v R t source).
Proof. apply superimposed_onto_moved_copy. Qed.

Lemma planar_points :
  get_backbone_points planar_pose [1%nat] = Ok [mkV 1 0 0; mkV (-1) 0 0; mkV 0 1 0].
Proof. reflexivity. Qed.

Lemma planar_mean : mean [mkV 1 0 0; mkV (-1) 0 0; mkV 0 1 0] = mkV 0 (1 / 3) 0.
Proof.
  unfold mean. simpl. cbv [vscale vadd vzero vx vy vz]. f_equal; field.
Qed.

Lemma planar_not_collinear : not_collinear [mkV 1 0 0; mkV (-1) 0 0; mkV 0 1 0].
Proof.
  exists (mkV 1 0 0), (mkV 0 1 0). rewrite planar_mean.
  split; [left |]. split; [right; right; left |].
  cbv [cross vsub vzero vx vy vz]. intros H. injection H as _ _ H. lra.
Qed.

Lemma planar_svd_exact (R : mat3) (t : vec3) (svd : svd_routine) :
  proper_rotation R ->
  svd = (fun _ => Some (mident, mkV 2 (2 / 3) 0, transpose R)) ->
  svd_exact_at svd
    (covariance_matrix [mkV 1 0 0; mkV (-1) 0 0; mkV 0 1 0]
       (map (transform_point R t) [mkV 1 0 0; mkV (-1) 0 0; mkV 0 1 0])).
Proof.
  intros [HR _] ->. exists mident, (mkV 2 (2 / 3) 0), (transpose R).
  split; [reflexivity |].
  split; [apply proper_rotation_mident |].
  split; [now apply orthogonal_transpose |].
  cbn [vx vy vz]. split; [lra |]. split; [lra |]. split; [lra |].
  rewrite covariance_of_rigid_motion by discriminate. rewrite planar_mean.
  f_equal. unfold gram. simpl.
  cbv [mmul madd outer diag mident mzero vsub
       m00 m01 m02 m10 m11 m12 m20 m21 m22 vx vy vz].
  f_equal; field.
Qed.

Lemma superimpose_onto_moved_copy_coincides_witness :
  superimposed_pose planar_quarter_turn_svd planar_pose [1%nat]
    (apply_transform_Rx_plus_v quarter_turn (mkV 1 2 3) planar_pose) [1%nat]
  = Ok (apply_transform_Rx_plus_v quarter_turn (mkV 1 2 3) planar_pose).
Proof.
  apply (superimpose_onto_moved_copy_coincides planar_quarter_turn_svd planar_pose [1%nat]
           [mkV 1 0 0; mkV (-1) 0 0; mkV 0 1 0] quarter_turn (mkV 1 2 3)).
  - exact planar_points.
  - exact planar_not_collinear.
  - exact proper_rotation_quarter_turn.
  - apply planar_svd_exact; [exact proper_rotation_quarter_turn | reflexivity].
Defined.

End MovedCopy.

(** ** load_design and the files of a design directory *)

Lemma exists_file_true {A : Type} (fs : filesystem) (file : design_dir -> option A)
    (d : string) :
  exists_file fs file d = true <-> exists dir a, fs !! d = Some dir ∧ file dir = Some a.
Proof.
  unfold exists_file. destruct (fs !! d) as [dir|].
  - rewrite bool_decide_eq_true. split.
    + intros [a Ha]. eauto.
    + intros (dir' & a & Hd & Ha). injection Hd as <-. eauto.
  - split; [discriminate | intros (? & ? & ? & _); discriminate].
Qed.





(** ** Loading a batch *)






(** ** The pairwise loops *)

Section Loops.

Variable svd : svd_routine.
Variable pose_designs : list pose.
Variable all_bb_remodeled_residues : list (list nat).
Variable all_bb_fixed_residues : list (list nat).

Local Abbreviation pair :=
  (pair_rmsd svd pose_designs all_bb_remodeled_residues all_bb_fixed_residues).
Local Abbreviation row :=
  (rmsd_row svd pose_designs all_bb_remodeled_residues all_bb_fixed_residues).
Local Abbreviation rows :=
  (rmsd_rows svd pose_designs all_bb_remodeled_residues all_bb_fixed_residues).

Lemma pair_rmsd_steps (i j : nat) (lows lows' : list pose) (rmsd : R) :
  pair i j lows = Ok (lows', rmsd) ->
  exists low_j fixed_j design_i fixed_i moved pose_source pose_target remodeled,
    lows !! j = Some low_j
    ∧ all_bb_fixed_residues !! j = Some fixed_j
    ∧ pose_designs !! i = Some design_i
    ∧ all_bb_fixed_residues !! i = Some fixed_i
    ∧ superimposed_pose svd low_j fixed_j design_i fixed_i = Ok moved
    ∧ lows' = <[j := moved]> lows
    ∧ remodeled_region_rmsd pose_source pose_target remodeled = Ok rmsd.
Proof.
  unfold pair_rmsd. intros H.
  apply bind_ok in H as (low_j & Hlow & H). apply py_index_ok in Hlow.
  apply bind_ok in H as (fixed_j & Hfj & H). apply py_index_ok in Hfj.
  apply bind_ok in H as (design_i & Hdes & H). apply py_index_ok in Hdes.
  apply bind_ok in H as (fixed_i & Hfi & H). apply py_index_ok in Hfi.
  apply bind_ok in H as (moved & Hmoved & H).
  apply bind_ok in H as ([[pose_source pose_target] rem] & _ & H).
  apply bind_ok in H as (x & Hx & H). apply Ok_inj in H. injection H as <- <-.
  exists low_j, fixed_j, design_i, fixed_i, moved, pose_source, pose_target, rem.
  repeat split; assumption.
Qed.

Lemma rmsd_row_entries (Q : R -> Prop) (i : nat) (js : list nat) (lows lows' : list pose)
    (acc acc' : list R) :
  (forall j l out x, pair i j l = Ok (out, x) -> Q x) ->
  Forall Q acc -> row i js lows acc = Ok (lows', acc') -> Forall Q acc'.
Proof.
  intros HQ. revert lows acc. induction js as [|j js IH]; intros lows acc Hacc H; simpl in H.
  - apply Ok_inj in H. now injection H as <- <-.
  - apply bind_ok in H as ([lows1 x] & Hpair & H).
    apply (IH lows1 (acc ++ [x])); [| exact H].
    apply Forall_app. split; [exact Hacc |]. constructor; [| constructor].
    exact (HQ _ _ _ _ Hpair).
Qed.

Lemma rmsd_rows_entries (Q : R -> Prop) (n : nat) (residues : list nat) (lows : list pose)
    (acc RMSDs : list (list R)) :
  (forall i j l out x, pair i j l = Ok (out, x) -> Q x) ->
  Forall (Forall Q) acc -> rows n residues lows acc = Ok RMSDs -> Forall (Forall Q) RMSDs.
Proof.
  intros HQ. revert lows acc. induction residues as [|i residues IH]; intros lows acc Hacc H;
    simpl in H.
  - apply Ok_inj in H. now subst.
  - apply bind_ok in H as ([lows1 r] & Hrow & H).
    apply (IH lows1 (acc ++ [r])); [| exact H].
    apply Forall_app. split; [exact Hacc |]. constructor; [| constructor].
    apply (rmsd_row_entries Q i (seq 0 n) lows lows1 [] r); [apply HQ | constructor | exact Hrow].
Qed.

End Loops.

Lemma remodeled_region_rmsd_nonneg (pose_source pose_target : pose) (remodeled : list nat)
    (x : R) :
  remodeled_region_rmsd pose_source pose_target remodeled = Ok x -> (0 <= x)%R.
Proof.
  unfold remodeled_region_rmsd. intros H. apply bind_ok in H as (res_map & _ & H).
  destruct (remodeled_aligned_residues res_map remodeled) as [src tgt].
  apply calc_backbone_RMSD_ok in H as (_ & pts1 & pts2 & _ & _ & H).
  apply RMSD_ok in H as (diff & _ & _ & ->). apply sqrt_pos.
Qed.

(** X14: every entry of a matrix calculate_bb_remodeled_region_rmsds returns
    is a non-negative number. *)
Theorem rmsd_matrix_entries_nonnegative (svd : svd_routine) (fs : filesystem)
    (design_paths : list string) (RMSDs : list (list R)) :
  calculate_bb_remodeled_region_rmsds svd fs design_paths = Ok RMSDs ->
  Forall (Forall (fun x => (0 <= x)%R)) RMSDs.
Proof.
  unfold calculate_bb_remodeled_region_rmsds. intros H.
  apply bind_ok in H as (designs & _ & H).
  eapply rmsd_rows_entries; [| constructor | exact H].
  intros i j l out x Hpair.
  apply pair_rmsd_steps in Hpair as (? & ? & ? & ? & ? & ps & pt & rem & _ & _ & _ & _ & _ & _ & Hx).
  exact (remodeled_region_rmsd_nonneg ps pt rem x Hx).
Qed.

Lemma superimposed_pose_needs_residues (svd : svd_routine) (source : pose) (rs : list nat)
    (target : pose) (rt : list nat) (moved : pose) :
  superimposed_pose svd source rs target rt = Ok moved ->
  length rs = length rt ∧ rs ≠ [].
Proof.
  unfold superimposed_pose. intros H.
  destruct (length rs =? length rt) eqn:E; [| discriminate].
  apply Nat.eqb_eq in E. split; [exact E |]. simpl in H.
  apply bind_ok in H as (ps & Hps & H). apply bind_ok in H as (pt & Hpt & H).
  apply bind_ok in H as ([M t] & HM & _).
  apply superimpose_transformation_ok in HM as (_ & Hne & _).
  intros ->. simpl in Hps. apply Ok_inj in Hps. congruence.
Qed.

(** X15: calculate_bb_remodeled_region_rmsds returns a matrix only if all
    loaded designs have equally many fixed residues, and at least one:
    otherwise the superposition of some pair fails its assertion or, with
    no fixed residue at all, numpy's SVD. *)
Theorem batch_needs_matching_fixed_residues (svd : svd_routine) (fs : filesystem)
    (design_paths : list string) (designs : list design) (RMSDs : list (list R))
    (i j : nat) (design_i design_j : design) :
  calculate_bb_remodeled_region_rmsds svd fs design_paths = Ok RMSDs ->
  load_designs fs (List.filter (exists_file fs design_pdb_gz) design_paths) = Ok designs ->
  designs !! i = Some design_i ->
  designs !! j = Some design_j ->
  length (bb_fixed_residues design_i) = length (bb_fixed_residues design_j)
  ∧ bb_fixed_residues design_i ≠ [].
Proof.
  intros H Hload Hi Hj. unfold calculate_bb_remodeled_region_rmsds in H.
  rewrite Hload, bind_Ok_l in H. apply rmsd_rows_ok in H as (_ & _ & Hall).
  assert (Hfixed : forall a b da db, designs !! a = Some da -> designs !! b = Some db ->
            length (bb_fixed_residues db) = length (bb_fixed_residues da)
            ∧ bb_fixed_residues db ≠ []).
  { intros a b da db Ha Hb.
    destruct (Hall a b) as (lows & [lows' x] & _ & Hpair).
    { apply elem_of_seq. pose proof (load_designs_lookup _ _ _ _ _ Hload Ha). lia. }
    { exact (load_designs_lookup _ _ _ _ _ Hload Hb). }
    apply pair_rmsd_steps in Hpair
      as (low & fb & des & fa & moved & ? & ? & ? & _ & Hfb & _ & Hfa & Hsup & _).
    rewrite list_lookup_fmap, Hb in Hfb. rewrite list_lookup_fmap, Ha in Hfa.
    simpl in Hfb, Hfa. injection Hfb as <-. injection Hfa as <-.
    exact (superimposed_pose_needs_residues _ _ _ _ _ _ Hsup). }
  destruct (Hfixed j i design_j design_i Hj Hi) as [Hlen Hne]. auto.
Qed.

(** ** A design compared with itself *)

Lemma map_transform_identity (points : list vec3) :
  map (transform_point mident vzero) points = points.
Proof.
  rewrite <- (map_id points) at 2. apply map_ext, transform_point_identity.
Qed.

Lemma superimposed_onto_itself (svd : svd_routine) (p : pose) (residues : list nat)
    (points : list vec3) :
  get_backbone_points p residues = Ok points ->
  not_collinear points ->
  svd_exact_at svd (covariance_matrix points points) ->
  superimposed_pose svd p residues p residues = Ok p.
Proof.
  intros Hpts Hnc Hsvd.
  pose proof (superimposed_onto_moved_copy svd p residues points mident vzero Hpts Hnc
                proper_rotation_mident) as H.
  rewrite map_transform_identity, apply_identity_transform in H. now apply H.
Qed.

Lemma diagonal_entries (kept : residue_map) :
  Forall (fun kv => kv.1 = kv.2) kept -> values kept = keys kept.
Proof.
  unfold values, keys. induction 1 as [|[k v] kept Hkv _ IH]; [reflexivity |].
  rewrite !fmap_cons. simpl in Hkv. subst v. f_equal. exact IH.
Qed.

Lemma remodeled_region_rmsd_of_copy (p : pose) (remodeled : list nat) :
  NoDup (atom_CA <$> p) ->
  (exists k, k ∈ remodeled ∧ 1 <= k <= pose_size p) ->
  remodeled_region_rmsd p p remodeled = Ok 0%R.
Proof.
  intros Hdistinct (k0 & Hk0 & Hrange).
  destruct (residue_map_of_copy p p) as (res_map & Hmap & Hdiag).
  { intros k r Hr. exists r. auto. }
  { exact Hdistinct. }
  unfold remodeled_region_rmsd. rewrite Hmap, bind_Ok_l.
  unfold remodeled_aligned_residues.
  set (kept := List.filter (fun kv : nat * nat => py_in kv.1 remodeled) res_map).
  assert (Hkept : forall kv, kv ∈ kept <-> kv ∈ res_map ∧ kv.1 ∈ remodeled).
  { intros kv. unfold kept. rewrite list_elem_of_In, filter_In, <- list_elem_of_In.
    now rewrite py_in_true. }
  rewrite (diagonal_entries kept).
  - apply calc_backbone_RMSD_self.
    + intros Hnil. assert ((k0, k0) ∈ kept) as Hin.
      { apply Hkept. split; [now apply Hdiag | exact Hk0]. }
      unfold keys in Hnil. apply fmap_nil_inv in Hnil. rewrite Hnil in Hin.
      now apply elem_of_nil in Hin.
    + apply Forall_forall. intros k Hk. unfold keys in Hk.
      apply list_elem_of_fmap in Hk as ([k' v] & -> & Hin).
      apply Hkept in Hin as [Hin _]. now apply Hdiag in Hin.
  - apply Forall_forall. intros [k v] Hin. apply Hkept in Hin as [Hin _].
    now apply Hdiag in Hin.
Qed.

Lemma self_comparison (svd : svd_routine) (fs : filesystem) (d : string) (p : pose)
    (remodeled : list nat) (points : list vec3) :
  fs !! d = Some (mkDir (Some p) None (Some remodeled)) ->
  get_backbone_points p (fixed_residues (pose_size p) remodeled) = Ok points ->
  not_collinear points ->
  svd_exact_at svd (covariance_matrix points points) ->
  NoDup (atom_CA <$> p) ->
  (exists k, k ∈ remodeled ∧ 1 <= k <= pose_size p) ->
  calculate_bb_remodeled_region_rmsds svd fs [d] = Ok [[0%R]].
Proof.
  intros Hdir Hpts Hnc Hsvd Hdistinct Hrem.
  assert (Hexists : exists_file fs design_pdb_gz d = true).
  { unfold exists_file. rewrite Hdir. reflexivity. }
  assert (Hload : load_design fs d
                  = Ok (mkDesign p p remodeled (fixed_residues (pose_size p) remodeled))).
  { unfold load_design, pose_from_file, load_design_info, exists_file. rewrite Hdir.
    reflexivity. }
  unfold calculate_bb_remodeled_region_rmsds. simpl List.filter. rewrite Hexists.
  simpl load_designs. rewrite Hload, !bind_Ok_l.
  cbn [fmap list_fmap pose_design pose_lowest_energy bb_remodeled_residues
       bb_fixed_residues length seq rmsd_rows rmsd_row].
  unfold pair_rmsd, py_index. cbn [lookup list_lookup]. rewrite !bind_Ok_l.
  rewrite (superimposed_onto_itself svd p _ points Hpts Hnc Hsvd), bind_Ok_l.
  rewrite Nat.ltb_irrefl, !bind_Ok_l.
  rewrite (remodeled_region_rmsd_of_copy p remodeled Hdistinct Hrem).
  reflexivity.
Qed.

(** X16: a single design directory without lowest_energy_model.pdb gives
    the 1 x 1 matrix [[0]]: the designed pose is compared with its own
    clone, provided its fixed backbone is not on one line (with an exact
    SVD), its CA atoms are at pairwise different places, and some
    remodeled residue is a position of the pose. *)
Theorem self_comparison_is_zero (svd : svd_routine) (fs : filesystem) (d : string)
    (p : pose) (remodeled : list nat) (points : list vec3) :
  fs !! d = Some (mkDir (Some p) None (Some remodeled)) ->
  get_backbone_points p (fixed_residues (pose_size p) remodeled) = Ok points ->
  not_collinear points ->
  svd_exact_at svd (covariance_matrix points points) ->
  NoDup (atom_CA <$> p) ->
  (exists k, k ∈ remodeled ∧ 1 <= k <= pose_size p) ->
  calculate_bb_remodeled_region_rmsds svd fs [d] = Ok [[0%R]].
Proof. apply self_comparison. Qed.

Lemma planar_pose_distinct_CA : NoDup (atom_CA <$> planar_pose).
Proof.
  simpl. apply NoDup_cons. split; [| apply NoDup_singleton].
  intros H. apply list_elem_of_singleton in H. injection H. intros. lra.
Qed.

Lemma planar_self_svd_exact :
  svd_exact_at planar_svd
    (covariance_matrix [mkV 1 0 0; mkV (-1) 0 0; mkV 0 1 0]
                       [mkV 1 0 0; mkV (-1) 0 0; mkV 0 1 0]).
Proof.
  pose proof (planar_svd_exact mident vzero planar_svd proper_rotation_mident) as H.
  rewrite map_transform_identity in H. apply H. reflexivity.
Qed.

Lemma planar_self_comparison :
  calculate_bb_remodeled_region_rmsds planar_svd planar_fs ["planar"%string] = Ok [[0%R]].
Proof.
  apply (self_comparison planar_svd planar_fs "planar" planar_pose [2]
           [mkV 1 0 0; mkV (-1) 0 0; mkV 0 1 0]).
  - reflexivity.
  - reflexivity.
  - exact planar_not_collinear.
  - exact planar_self_svd_exact.
  - exact planar_pose_distinct_CA.
  - exists 2. split; [left | simpl; lia].
Qed.

Lemma self_comparison_is_zero_witness :
  calculate_bb_remodeled_region_rmsds planar_svd planar_fs ["planar"%string] = Ok [[0%R]].
Proof.
  apply (self_comparison_is_zero planar_svd planar_fs "planar" planar_pose [2]
           [mkV 1 0 0; mkV (-1) 0 0; mkV 0 1 0]).
  - reflexivity.
  - reflexivity.
  - exact planar_not_collinear.
  - exact planar_self_svd_exact.
  - exact planar_pose_distinct_CA.
  - exists 2. split; [left | simpl; lia].
Defined.

Lemma rmsd_matrix_entries_nonnegative_witness :
  Forall (Forall (fun x => (0 <= x)%R)) [[0%R]].
Proof.
  exact (rmsd_matrix_entries_nonnegative planar_svd planar_fs ["planar"%string] [[0%R]]
           planar_self_comparison).
Defined.

Lemma batch_needs_matching_fixed_residues_witness :
  length (bb_fixed_residues (mkDesign planar_pose planar_pose [2] [1]))
  = length (bb_fixed_residues (mkDesign planar_pose planar_pose [2] [1]))
  ∧ bb_fixed_residues (mkDesign planar_pose planar_pose [2] [1]) ≠ [].
Proof.
  apply (batch_needs_matching_fixed_residues planar_svd planar_fs ["planar"%string]
           [mkDesign planar_pose planar_pose [2] [1]] [[0%R]] 0 0).
  - exact planar_self_comparison.
  - reflexivity.
  - reflexivity.
  - reflexivity.
Defined.

Module FilterHelperFacts.
Import FilterHelpers.

Section Facts.

Context {Pose : Type} `{!Rosetta Pose}.

Local Open Scope R_scope.

Lemma foldl_Rmax_ge (x : R) (l : list R) : x <= foldl Rmax x l.
Proof.
  revert x. induction l as [|y l IH]; intros x; simpl; [lra |].
  etransitivity; [apply (Rmax_l x y) | apply IH].
Qed.

Lemma foldl_Rmax_upper (x : R) (l : list R) (y : R) : y ∈ l -> y <= foldl Rmax x l.
Proof.
  revert x. induction l as [|z l IH]; intros x Hy; [now apply elem_of_nil in Hy |].
  simpl. apply elem_of_cons in Hy as [-> | Hy]; [| now apply IH].
  etransitivity; [apply (Rmax_r x z) | apply foldl_Rmax_ge].
Qed.

Lemma foldl_Rmax_attained (x : R) (l : list R) : foldl Rmax x l ∈ x :: l.
Proof.
  revert x. induction l as [|z l IH]; intros x; simpl; [left |].
  specialize (IH (Rmax x z)). apply elem_of_cons in IH as [IH | IH].
  - rewrite IH. unfold Rmax. destruct (Rle_dec x z); [right; left | left].
  - right. now right.
Qed.

Lemma py_max_spec (l : list R) (m : R) :
  py_max l = Ok m -> m ∈ l ∧ forall y, y ∈ l -> y <= m.
Proof.
  destruct l as [|x l]; [discriminate |]. simpl. intros H. apply Ok_inj in H. subst m.
  split; [apply foldl_Rmax_attained |].
  intros y Hy. apply elem_of_cons in Hy as [-> | Hy];
    [apply foldl_Rmax_ge | now apply foldl_Rmax_upper].
Qed.

Lemma residue_energies_lookup (pose : Pose) (residues : list nat) (energies : list R)
    (e : R) :
  residue_energies pose residues = Ok energies ->
  e ∈ energies <-> exists i, i ∈ residues ∧ residue_total_energy pose i = Ok e.
Proof.
  revert energies. induction residues as [|i residues IH]; intros energies H; simpl in H.
  - apply Ok_inj in H. subst. split; [intros He; now apply elem_of_nil in He |].
    intros (i & Hi & _). now apply elem_of_nil in Hi.
  - apply bind_ok in H as (e0 & He0 & H). apply bind_ok in H as (rest & Hrest & H).
    apply Ok_inj in H. subst energies. rewrite elem_of_cons, (IH rest Hrest). split.
    + intros [-> | (j & Hj & Hje)]; [exists i; split; [left | exact He0] |].
      exists j. split; [now right | exact Hje].
    + intros (j & Hj & Hje). apply elem_of_cons in Hj as [-> | Hj].
      * left. congruence.
      * right. eauto.
Qed.

Lemma residues_max_energy_spec (pose : Pose) (residues : list nat) (m : R) :
  residues_max_energy pose residues = Ok m ->
  (exists i, i ∈ residues ∧ residue_total_energy pose i = Ok m)
  ∧ forall i e, i ∈ residues -> residue_total_energy pose i = Ok e -> e <= m.
Proof.
  intros H. unfold residues_max_energy in H.
  apply bind_ok in H as (energies & He & H). apply py_max_spec in H as [Hin Hmax].
  split; [now apply (residue_energies_lookup pose residues energies m He) |].
  intros i e Hi Hie. apply Hmax.
  apply (residue_energies_lookup pose residues energies e He). eauto.
Qed.

(** X17: residues_max_energy raises ValueError on an empty residue list;
    otherwise (the toolkit answering for every residue) it returns the
    energy of one of the residues, and no residue of the list has a higher
    energy. *)
Theorem residues_max_energy_is_maximum (pose : Pose) (residues : list nat) :
  residues_max_energy pose [] = Raise ValueError
  ∧ forall m, residues_max_energy pose residues = Ok m ->
      (exists i, i ∈ residues ∧ residue_total_energy pose i = Ok m)
      ∧ forall i e, i ∈ residues -> residue_total_energy pose i = Ok e -> e <= m.
Proof.
  split; [reflexivity | apply residues_max_energy_spec].
Qed.

(** X18: the maximum over the movable residues (designable + repackable)
    is never below the maximum over the designable residues. *)
Theorem max_energy_grows_with_residues (pose : Pose) (designable repackable : list nat)
    (m1 m2 : R) :
  residues_max_energy pose designable = Ok m1 ->
  residues_max_energy pose (designable ++ repackable) = Ok m2 ->
  m1 <= m2.
Proof.
  intros H1 H2.
  destruct (residues_max_energy_spec pose designable m1 H1) as [(i & Hi & Hie) _].
  unfold residues_max_energy in H2.
  apply bind_ok in H2 as (energies & He & H2). apply py_max_spec in H2 as [_ Hmax].
  apply Hmax. apply (residue_energies_lookup pose _ energies m1 He).
  exists i. split; [apply elem_of_app; now left | exact Hie].
Qed.

Lemma foldr_Rplus_le_max (x : R) (l : list R) :
  foldr Rplus 0 (x :: l) <= INR (length (x :: l)) * foldl Rmax x l.
Proof.
  assert (H : forall (k : list R) (m : R), (forall y, y ∈ k -> y <= m) ->
            foldr Rplus 0 k <= INR (length k) * m).
  { induction k as [|y k IH]; intros m Hm.
    - simpl. lra.
    - change (foldr Rplus 0 (y :: k)) with (y + foldr Rplus 0 k).
      change (length (y :: k)) with (S (length k)). rewrite S_INR.
      assert (y <= m) by (apply Hm; left).
      assert (foldr Rplus 0 k <= INR (length k) * m) by (apply IH; intros; apply Hm; now right).
      lra. }
  apply H. intros y Hy. apply elem_of_cons in Hy as [-> | Hy];
    [apply foldl_Rmax_ge | now apply foldl_Rmax_upper].
Qed.

(** X19: get_fragment_quality_scores raises ValueError when the fragment
    analysis yields no position (after the fragment file was removed);
    otherwise the worst coordinate RMSD it returns is one of the
    per-position values and is never below the mean it returns with it. *)
Theorem fragment_worst_bounds_mean (pose : Pose) (bb_remodeled_residues : list nat) :
  (position_crmsd pose bb_remodeled_residues = Ok [] -> remove_fragment_file = Ok tt ->
     get_fragment_quality_scores pose bb_remodeled_residues = Raise ValueError)
  ∧ forall worst mean,
      get_fragment_quality_scores pose bb_remodeled_residues = Ok (worst, mean) ->
      mean <= worst
      ∧ exists crmsds, position_crmsd pose bb_remodeled_residues = Ok crmsds
                       ∧ worst ∈ crmsds ∧ mean = np_mean crmsds.
Proof.
  unfold get_fragment_quality_scores. split.
  - intros -> ->. reflexivity.
  - intros worst mean H. apply bind_ok in H as (crmsds & Hc & H).
    apply bind_ok in H as (_ & _ & H). apply bind_ok in H as (w & Hw & H).
    apply Ok_inj in H. injection H as <- <-.
    split; [| exists crmsds; split; [exact Hc |]; split; [| reflexivity];
                now apply py_max_spec in Hw].
    destruct crmsds as [|x l]; [discriminate |]. simpl in Hw. apply Ok_inj in Hw. subst w.
    unfold np_mean.
    assert (Hn : 0 < INR (length (x :: l))) by (apply lt_0_INR; simpl; lia).
    pose proof (foldr_Rplus_le_max x l) as Hsum.
    apply (Rmult_le_reg_l (INR (length (x :: l)))); [exact Hn |].
    unfold Rdiv. rewrite <- Rmult_assoc, (Rmult_comm (INR _) (foldr _ _ _)), Rmult_assoc.
    rewrite Rinv_r, Rmult_1_r; lra.
Qed.

(** *** get_num_buried_unsatisfied_hbonds *)

Lemma sum_buhs_app (buhs : list Z) (r1 r2 : list nat) :
  sum_buhs buhs (r1 ++ r2)
  = (x ← sum_buhs buhs r1; y ← sum_buhs buhs r2; Ok (x + y)%Z).
Proof.
  induction r1 as [|i r1 IH]; simpl.
  - destruct (sum_buhs buhs r2) as [y|]; [| reflexivity]. rewrite !bind_Ok_l. reflexivity.
  - destruct (py_getitem buhs (Z.of_nat i - 1)) as [x|]; [| reflexivity].
    rewrite !bind_Ok_l, IH.
    destruct (sum_buhs buhs r1) as [x1|]; [| reflexivity]. rewrite !bind_Ok_l.
    destruct (sum_buhs buhs r2) as [y|]; [| reflexivity]. rewrite !bind_Ok_l.
    f_equal. lia.
Qed.

(** X20: the buried unsatisfied count of designable + repackable residues
    is the sum of the counts of the two lists, and fails exactly when one of
    the two fails. *)
Theorem buried_unsat_is_additive (pose : Pose) (designable repackable : list nat) :
  get_num_buried_unsatisfied_hbonds pose (designable ++ repackable)
  = (x ← get_num_buried_unsatisfied_hbonds pose designable;
     y ← get_num_buried_unsatisfied_hbonds pose repackable;
     Ok (x + y)%Z).
Proof.
  unfold get_num_buried_unsatisfied_hbonds.
  destruct (residue_bur_unsat_polars pose) as [buhs|]; [| reflexivity].
  rewrite !bind_Ok_l. apply sum_buhs_app.
Qed.

(** X21: get_num_buried_unsatisfied_hbonds reads the count of residue i at
    list index i - 1: a residue within the list gives its own count, a
    residue past the end raises IndexError, and residue 0 does not fail but
    gives the count of the last residue (index -1). *)
Theorem buried_unsat_indexing (pose : Pose) (buhs : list Z) (i : nat) :
  residue_bur_unsat_polars pose = Ok buhs ->
  ((1 <= i <= length buhs)%nat ->
     exists x, buhs !! (i - 1)%nat = Some x
               ∧ get_num_buried_unsatisfied_hbonds pose [i] = Ok x)
  ∧ ((length buhs < i)%nat ->
       get_num_buried_unsatisfied_hbonds pose [i] = Raise IndexError)
  ∧ (forall x, last buhs = Some x -> get_num_buried_unsatisfied_hbonds pose [0%nat] = Ok x).
Proof.
  intros Hb. unfold get_num_buried_unsatisfied_hbonds. rewrite Hb, !bind_Ok_l.
  unfold sum_buhs, py_getitem, py_index. split; [| split].
  - intros Hi. destruct (lookup_lt_is_Some_2 buhs (i - 1)) as [x Hx]; [lia |].
    exists x. split; [exact Hx |].
    destruct (0 <=? Z.of_nat i - 1)%Z eqn:E; [| apply Z.leb_gt in E; lia].
    replace (Z.to_nat (Z.of_nat i - 1)) with (i - 1)%nat by lia.
    rewrite Hx, !bind_Ok_l. f_equal. lia.
  - intros Hi. destruct (0 <=? Z.of_nat i - 1)%Z eqn:E; [| apply Z.leb_gt in E; lia].
    rewrite (lookup_ge_None_2 buhs); [reflexivity | lia].
  - intros x Hx. change (Z.of_nat 0 - 1)%Z with (-1)%Z. cbn [Z.leb Z.compare].
    rewrite last_lookup in Hx.
    assert (Hlen : (0 < length buhs)%nat).
    { apply lookup_lt_Some in Hx. lia. }
    destruct (0 <=? Z.of_nat (length buhs) + -1)%Z eqn:E; [| apply Z.leb_gt in E; lia].
    replace (Z.to_nat (Z.of_nat (length buhs) + -1)) with (pred (length buhs)) by lia.
    rewrite Hx, !bind_Ok_l. f_equal. lia.
Qed.

End Facts.

Lemma residues_max_energy_is_maximum_witness :
  residues_max_energy 5%nat [2; 4; 3]%nat = Ok 4%R
  ∧ exists i, i ∈ [2; 4; 3]%nat ∧ residue_total_energy 5%nat i = Ok 4%R.
Proof.
  assert (H : residues_max_energy 5%nat [2; 4; 3]%nat = Ok 4%R).
  { unfold residues_max_energy. simpl. f_equal.
    rewrite (Rmax_right (1 + 1) (1 + 1 + 1 + 1)) by lra.
    rewrite (Rmax_left (1 + 1 + 1 + 1) (1 + 1 + 1)) by lra. lra. }
  split; [exact H |].
  destruct (residues_max_energy_is_maximum 5%nat [2; 4; 3]%nat) as [_ Hmax].
  now destruct (Hmax 4%R H).
Defined.

Lemma max_energy_grows_with_residues_witness :
  residues_max_energy 5%nat [1]%nat = Ok 1%R
  ∧ residues_max_energy 5%nat ([1] ++ [2])%nat = Ok 2%R
  ∧ (1 <= 2)%R.
Proof.
  assert (H1 : residues_max_energy 5%nat [1]%nat = Ok 1%R) by reflexivity.
  assert (H2 : residues_max_energy 5%nat ([1] ++ [2])%nat = Ok 2%R).
  { unfold residues_max_energy. simpl. f_equal.
    rewrite (Rmax_right 1 (1 + 1)) by lra. lra. }
  split; [exact H1 |]. split; [exact H2 |].
  exact (max_energy_grows_with_residues 5%nat [1]%nat [2]%nat 1%R 2%R H1 H2).
Defined.

Lemma fragment_worst_bounds_mean_witness :
  get_fragment_quality_scores 5%nat [] = Raise ValueError
  ∧ forall worst mean,
      get_fragment_quality_scores 5%nat [1; 3]%nat = Ok (worst, mean) -> (mean <= worst)%R.
Proof.
  destruct (fragment_worst_bounds_mean 5%nat []) as [Hempty _].
  destruct (fragment_worst_bounds_mean 5%nat [1; 3]%nat) as [_ Hmean].
  split; [now apply Hempty |].
  intros worst mean H. now destruct (Hmean worst mean H).
Defined.

Lemma buried_unsat_indexing_witness :
  get_num_buried_unsatisfied_hbonds 3%nat [4%nat] = Raise IndexError
  ∧ get_num_buried_unsatisfied_hbonds 3%nat [0%nat] = Ok 30%Z
  ∧ exists x, get_num_buried_unsatisfied_hbonds 3%nat [2%nat] = Ok x.
Proof.
  destruct (buried_unsat_indexing 3%nat [10; 20; 30]%Z 4%nat) as (_ & Hpast & _);
    [reflexivity |].
  destruct (buried_unsat_indexing 3%nat [10; 20; 30]%Z 0%nat) as (_ & _ & Hzero);
    [reflexivity |].
  destruct (buried_unsat_indexing 3%nat [10; 20; 30]%Z 2%nat) as (Hin & _ & _);
    [reflexivity |].
  split; [apply Hpast; simpl; lia |]. split; [now apply Hzero |].
  destruct Hin as (x & _ & Hx); [simpl; lia |]. eauto.
Defined.

End FilterHelperFacts.

Module FilterTableFacts.
Import Filter.

Section Table.

Context {Pose Mover : Type} `{!Toolkit Pose Mover}.

(* what a run of generate_filter_scores that returns a table went through *)
Lemma generate_filter_scores_steps (br_mover : Mover) (pose : Pose)
    (designable repackable remodeled : list nat) (table : gmap string R) :
  generate_filter_scores br_mover pose designable repackable remodeled = Ok table ->
  exists consensus n_designable n_movable total_sasa hydrophobic_sasa average relative,
    get_backrub_ensemble_consensus_buhs_for_each_res br_mover pose = Ok consensus
    ∧ sum_shifted consensus designable = Ok n_designable
    ∧ sum_shifted consensus (designable ++ repackable) = Ok n_movable
    ∧ get_sasa pose (designable ++ repackable) = Ok (total_sasa, hydrophobic_sasa)
    ∧ py_div hydrophobic_sasa (INR (length (designable ++ repackable))) = Ok average
    ∧ py_div hydrophobic_sasa total_sasa = Ok relative
    ∧ table !! "backrub_ensemble_consensus_buhs_for_all_residues"%string
      = Some (IZR (foldr Z.add 0%Z consensus))
    ∧ table !! "backrub_ensemble_consensus_buhs_for_designable_residues"%string
      = Some (IZR n_designable)
    ∧ table !! "backrub_ensemble_consensus_buhs_for_movable_residues"%string
      = Some (IZR n_movable)
    ∧ table !! "hydrophobic_sasa_for_movable_residues"%string = Some hydrophobic_sasa
    ∧ table !! "average_hydrophobic_sasa_for_movable_residues"%string = Some average
    ∧ table !! "relative_hydrophobic_sasa_for_movable_residues"%string = Some relative
    ∧ dom table = list_to_set filter_score_keys.
Proof.
  unfold generate_filter_scores. intros H.
  do 9 (apply bind_ok in H as (? & _ & H)).
  apply bind_ok in H as (consensus & Hc & H).
  apply bind_ok in H as (nd & Hnd & H).
  apply bind_ok in H as (nm & Hnm & H).
  apply bind_ok in H as (? & _ & H).
  apply bind_ok in H as ([total hyd] & Hsasa & H).
  apply bind_ok in H as (avg & Havg & H).
  apply bind_ok in H as (rel & Hrel & H).
  do 4 (apply bind_ok in H as (? & _ & H)).
  apply bind_ok in H as ([worst mean] & _ & H).
  apply Ok_inj in H. subst table.
  exists consensus, nd, nm, total, hyd, avg, rel.
  repeat (split; [first [assumption
                        | repeat (rewrite lookup_insert_ne by discriminate);
                          apply lookup_insert_eq] |]).
  rewrite !dom_insert_L, dom_empty_L. unfold filter_score_keys. simpl. set_solver.
Qed.

End Table.

End FilterTableFacts.

Module FilterScoreFacts.
Import Filter FilterTableFacts.

Section Scores.
Context {Pose Mover : Type} `{!Toolkit Pose Mover}.

Lemma filter_score_keys_distinct : NoDup filter_score_keys.
Proof. apply (bool_decide_unpack _). vm_compute. exact I. Qed.

(** X22: every table generate_filter_scores returns has the same 25 keys,
    whatever the pose and the residue lists. *)
Theorem filter_table_schema (br_mover : Mover) (pose : Pose)
    (designable repackable remodeled : list nat) (table : gmap string R) :
  generate_filter_scores br_mover pose designable repackable remodeled = Ok table ->
  dom table = list_to_set filter_score_keys ∧ base.size table = 25.
Proof.
  intros H. apply generate_filter_scores_steps in H
    as (? & ? & ? & ? & ? & ? & ? & _ & _ & _ & _ & _ & _ & _ & _ & _ & _ & _ & _ & Hdom).
  split; [exact Hdom |].
  rewrite <- size_dom, Hdom, size_list_to_set by exact filter_score_keys_distinct.
  reflexivity.
Qed.

Lemma py_div_ok (a b q : R) : py_div a b = Ok q -> b ≠ 0%R ∧ q = (a / b)%R.
Proof.
  unfold py_div. destruct (Req_dec_T b 0); [discriminate |].
  intros H. apply Ok_inj in H. auto.
Qed.

(** X23: a table is only returned when there is a movable residue and the
    total SASA of the movable residues is not 0; its three hydrophobic SASA
    entries are then the hydrophobic SASA, that value divided by the number
    of movable residues, and that value divided by the total SASA. *)
Theorem hydrophobic_sasa_entries (br_mover : Mover) (pose : Pose)
    (designable repackable remodeled : list nat) (table : gmap string R) :
  generate_filter_scores br_mover pose designable repackable remodeled = Ok table ->
  designable ++ repackable ≠ []
  ∧ exists total_sasa hydrophobic_sasa,
      get_sasa pose (designable ++ repackable) = Ok (total_sasa, hydrophobic_sasa)
      ∧ total_sasa ≠ 0%R
      ∧ table !! "hydrophobic_sasa_for_movable_residues"%string = Some hydrophobic_sasa
      ∧ table !! "average_hydrophobic_sasa_for_movable_residues"%string
        = Some (hydrophobic_sasa / INR (length (designable ++ repackable)))%R
      ∧ table !! "relative_hydrophobic_sasa_for_movable_residues"%string
        = Some (hydrophobic_sasa / total_sasa)%R.
Proof.
  intros H. apply generate_filter_scores_steps in H
    as (? & ? & ? & total & hyd & avg & rel & _ & _ & _ & Hsasa & Havg & Hrel
        & _ & _ & _ & Hh & Ha & Hr & _).
  apply py_div_ok in Havg as [Hlen ->]. apply py_div_ok in Hrel as [Htotal ->].
  split; [intros Hnil; rewrite Hnil in Hlen; now apply Hlen |].
  exists total, hyd. auto.
Qed.

Lemma sum_shifted_app_ok (l : list Z) (r1 r2 : list nat) (n : Z) :
  sum_shifted l (r1 ++ r2) = Ok n ->
  exists x y, sum_shifted l r1 = Ok x ∧ sum_shifted l r2 = Ok y ∧ n = (x + y)%Z.
Proof.
  revert n. induction r1 as [|i r1 IH]; intros n H; simpl in *.
  - exists 0%Z, n. auto.
  - apply bind_ok in H as (x & Hx & H). apply bind_ok in H as (rest & Hrest & H).
    apply Ok_inj in H. subst n. destruct (IH rest Hrest) as (x1 & y & -> & Hy & ->).
    rewrite Hx, !bind_Ok_l. exists (x + x1)%Z, y. split; [reflexivity |].
    split; [exact Hy | lia].
Qed.

Lemma sum_shifted_in_range (l : list Z) (residues : list nat) (n : Z) (i : nat) :
  sum_shifted l residues = Ok n -> i ∈ residues -> i + 1 < length l.
Proof.
  revert n. induction residues as [|j residues IH]; intros n H Hi;
    [now apply elem_of_nil in Hi |].
  simpl in H. apply bind_ok in H as (x & Hx & H). apply bind_ok in H as (rest & Hrest & _).
  apply elem_of_cons in Hi as [-> | Hi]; [| exact (IH rest Hrest Hi)].
  apply py_index_ok, lookup_lt_Some in Hx. exact Hx.
Qed.

(** X24: in a returned table, the consensus entry for the movable residues
    is the entry for the designable residues plus the same sum over the
    repackable residues; each sum adds, for a residue i, the consensus count
    at list index i + 1, and the entry for all residues adds every count. *)
Theorem consensus_entries_add_up (br_mover : Mover) (pose : Pose)
    (designable repackable remodeled : list nat) (table : gmap string R) :
  generate_filter_scores br_mover pose designable repackable remodeled = Ok table ->
  exists consensus n_designable n_repackable,
    get_backrub_ensemble_consensus_buhs_for_each_res br_mover pose = Ok consensus
    ∧ sum_shifted consensus designable = Ok n_designable
    ∧ sum_shifted consensus repackable = Ok n_repackable
    ∧ table !! "backrub_ensemble_consensus_buhs_for_designable_residues"%string
      = Some (IZR n_designable)
    ∧ table !! "backrub_ensemble_consensus_buhs_for_movable_residues"%string
      = Some (IZR n_designable + IZR n_repackable)%R
    ∧ table !! "backrub_ensemble_consensus_buhs_for_all_residues"%string
      = Some (IZR (foldr Z.add 0%Z consensus)).
Proof.
  intros H. apply generate_filter_scores_steps in H
    as (consensus & nd & nm & ts & hs & av & re & Hc & Hnd & Hnm & _ & _ & _
        & Hall & Hd & Hm & _).
  destruct (sum_shifted_app_ok _ _ _ _ Hnm) as (x' & y & Hx & Hy & ->).
  rewrite Hnd in Hx. apply Ok_inj in Hx. subst x'.
  exists consensus, nd, y. rewrite <- plus_IZR. auto 10.
Qed.

(** *** The consensus counts against the original counts *)

Lemma keep_consensus_le (buhs tmp l : list Z) :
  keep_consensus buhs tmp = Ok l -> Forall2 Z.le l buhs.
Proof.
  revert tmp l. induction buhs as [|b buhs IH]; intros [|t tmp] l H; simpl in H;
    try discriminate; try (apply Ok_inj in H; subst; constructor).
  apply bind_ok in H as (rest & Hrest & H). apply Ok_inj in H. subst l.
  constructor; [lia | exact (IH tmp rest Hrest)].
Qed.

Lemma Forall2_le_trans (a b c : list Z) :
  Forall2 Z.le a b -> Forall2 Z.le b c -> Forall2 Z.le a c.
Proof.
  intros Hab. revert c. induction Hab as [|x y a b Hxy _ IH]; intros c Hbc.
  - inversion Hbc. constructor.
  - inversion Hbc as [|? z ? c' Hyz Hbc']. subst. constructor; [lia | now apply IH].
Qed.

Lemma perturb_repeatedly_le (repeats : nat) (br_mover br_mover' : Mover) (pose : Pose)
    (buhs l : list Z) :
  perturb_repeatedly repeats br_mover pose buhs = Ok (br_mover', l) -> Forall2 Z.le l buhs.
Proof.
  revert br_mover buhs. induction repeats as [|repeats IH]; intros br_mover buhs H;
    simpl in H.
  - apply Ok_inj in H. injection H as _ <-. apply Forall2_same_length_lookup_2; [reflexivity |].
    intros i x y Hx Hy. rewrite Hx in Hy. injection Hy as ->. lia.
  - destruct (apply br_mover pose) as [m1 tmp_pose].
    apply bind_ok in H as (buhs1 & H1 & H). apply keep_consensus_le in H1.
    eapply Forall2_le_trans; [exact (IH m1 buhs1 H) | exact H1].
Qed.

Lemma perturb_segments_le (segments : list nat) (br_mover : Mover) (pose : Pose)
    (buhs l : list Z) :
  perturb_segments segments br_mover pose buhs = Ok l -> Forall2 Z.le l buhs.
Proof.
  revert br_mover buhs. induction segments as [|i segments IH]; intros br_mover buhs H;
    cbn [perturb_segments] in H.
  - apply Ok_inj in H. subst. apply Forall2_same_length_lookup_2; [reflexivity |].
    intros k x y Hx Hy. rewrite Hx in Hy. injection Hy as ->. lia.
  - apply bind_ok in H as ([m2 buhs1] & H1 & H). apply perturb_repeatedly_le in H1.
    eapply Forall2_le_trans; [exact (IH m2 buhs1 H) | exact H1].
Qed.

Lemma consensus_le_original (br_mover : Mover) (pose : Pose) (consensus : list Z) :
  get_backrub_ensemble_consensus_buhs_for_each_res br_mover pose = Ok consensus ->
  Forall2 Z.le consensus (get_buhs_for_each_res pose).
Proof.
  unfold get_backrub_ensemble_consensus_buhs_for_each_res.
  destruct (apply (set_max_atoms 4 br_mover) pose) as [m1 warm_up].
  apply perturb_segments_le.
Qed.

Lemma Forall2_le_sum (a b : list Z) :
  Forall2 Z.le a b -> (foldr Z.add 0 a <= foldr Z.add 0 b)%Z.
Proof. induction 1; simpl; lia. Qed.

(** X25: whenever get_backrub_ensemble_consensus_buhs_for_each_res returns,
    whatever the perturbed copies were, its list is as long as the original
    counts and no entry exceeds the original count at its position; so the
    total of the consensus counts is at most the total of the original
    counts. *)
Theorem consensus_never_exceeds_original (br_mover : Mover) (pose : Pose)
    (consensus : list Z) :
  get_backrub_ensemble_consensus_buhs_for_each_res br_mover pose = Ok consensus ->
  length consensus = length (get_buhs_for_each_res pose)
  ∧ (forall k c b, consensus !! k = Some c -> get_buhs_for_each_res pose !! k = Some b ->
       (c <= b)%Z)
  ∧ (foldr Z.add 0 consensus <= foldr Z.add 0 (get_buhs_for_each_res pose))%Z.
Proof.
  intros H. apply consensus_le_original in H.
  split; [exact (Forall2_length _ _ _ H) |].
  split; [| now apply Forall2_le_sum].
  intros k c b Hc Hb. exact (Forall2_lookup_lr _ _ _ _ _ _ H Hc Hb).
Qed.

(** X26: generate_filter_scores cannot return a table when a designable or
    repackable residue i has i + 1 at or past the end of the per-residue
    count list: the consensus sums read index i + 1, which such a list does
    not have. *)
Theorem late_residue_breaks_consensus_sums (br_mover : Mover) (pose : Pose)
    (designable repackable remodeled : list nat) (i : nat) :
  i ∈ designable ++ repackable ->
  length (get_buhs_for_each_res pose) <= i + 1 ->
  is_ok (generate_filter_scores br_mover pose designable repackable remodeled) = false.
Proof.
  intros Hi Hlate.
  destruct (generate_filter_scores br_mover pose designable repackable remodeled)
    as [table|] eqn:E; [exfalso | reflexivity].
  apply generate_filter_scores_steps in E
    as (consensus & ? & nm & ? & ? & ? & ? & Hc & _ & Hnm & _).
  apply consensus_le_original, Forall2_length in Hc.
  pose proof (sum_shifted_in_range _ _ _ i Hnm Hi). lia.
Qed.

End Scores.

Lemma filter_table_schema_witness :
  exists table, generate_filter_scores 0 4 [1] [2] [] = Ok table ∧ base.size table = 25.
Proof.
  destruct FilterFacts.toy_scores_exist as [table H]. exists table.
  split; [exact H |]. now destruct (filter_table_schema 0 4 [1] [2] [] table H).
Defined.

Lemma hydrophobic_sasa_entries_witness :
  exists table,
    generate_filter_scores 0 4 [1] [2] [] = Ok table
    ∧ table !! "average_hydrophobic_sasa_for_movable_residues"%string
      = Some (1 / INR 2)%R.
Proof.
  destruct FilterFacts.toy_scores_exist as [table H]. exists table.
  split; [exact H |].
  destruct (hydrophobic_sasa_entries 0 4 [1] [2] [] table H)
    as (_ & total & hyd & Hsasa & _ & _ & Havg & _).
  apply Ok_inj in Hsasa. injection Hsasa as <- <-. exact Havg.
Defined.

Lemma consensus_entries_add_up_witness :
  exists table n_designable n_repackable,
    generate_filter_scores 0 4 [1] [2] [] = Ok table
    ∧ table !! "backrub_ensemble_consensus_buhs_for_movable_residues"%string
      = Some (IZR n_designable + IZR n_repackable)%R.
Proof.
  destruct FilterFacts.toy_scores_exist as [table H].
  destruct (consensus_entries_add_up 0 4 [1] [2] [] table H)
    as (consensus & nd & nr & _ & _ & _ & _ & Hm & _).
  exists table, nd, nr. auto.
Defined.

Lemma consensus_never_exceeds_original_witness :
  get_backrub_ensemble_consensus_buhs_for_each_res 0 4 = Ok [0; 2; 0; 1; 5]%Z
  ∧ (foldr Z.add 0 [0; 2; 0; 1; 5] <= foldr Z.add 0 (get_buhs_for_each_res 4%nat))%Z.
Proof.
  split; [exact FilterFacts.toy_consensus |].
  now destruct (consensus_never_exceeds_original 0 4 [0; 2; 0; 1; 5]%Z
                  FilterFacts.toy_consensus) as (_ & _ & H).
Defined.

Lemma late_residue_breaks_consensus_sums_witness :
  is_ok (generate_filter_scores 0 4 [4] [2] []) = false.
Proof.
  apply (late_residue_breaks_consensus_sums 0 4 [4] [2] [] 4).
  - left.
  - simpl. lia.
Defined.

End FilterScoreFacts.
